(** * Rendering pipeline of the component renderer: context builder, custom
    hash function and patch engine.

    The development embeds the Go code of
    - [internal/crd-renderer/component-pipeline/context] (component and addon
      context builders, [deepMerge], [deepCopyValue]),
    - [internal/crd-renderer/template] ([oc_hash], [generateHashString]),
    - [internal/crd-renderer/patch] (path expansion, [mergeShallow],
      [ensureParentExists], [ApplySpec])
    as Rocq functions over plain value trees, and proves the properties the
    specification states about them. *)

From Stdlib Require Import ZArith String Ascii List Lia Bool.
From stdpp Require Import gmap strings list fin_maps option pretty sorting.

#[local] Set Warnings "-register-all".
#[local] Open Scope string_scope.
#[local] Open Scope Z_scope.

(** ** Plain value trees

    Values of Go type [any] that flow through the renderer: [nil], booleans,
    integers, floating-point numbers (kept as their IEEE-754 bit pattern, no
    arithmetic is ever done on them here), strings (byte sequences), slices
    [[]any] and string-keyed maps [map[string]any].  Go maps are unordered and
    have unique keys, hence [gmap]. *)

Inductive value : Type :=
| VNil
| VBool (b : bool)
| VInt (z : Z)
| VFloat (bits : Z)
| VStr (s : string)
| VList (l : list value)
| VMap (m : gmap string value).

Abbreviation object := (gmap string value).

Definition is_map (v : value) : bool :=
  match v with VMap _ => true | _ => false end.

Definition is_scalar (v : value) : bool :=
  match v with VMap _ | VList _ => false | _ => true end.

Fixpoint value_size (v : value) : nat :=
  match v with
  | VMap m => S (map_fold (fun _ x n => value_size x + n)%nat 0%nat m)
  | VList l => S (foldr (fun x n => value_size x + n)%nat 0%nat l)
  | _ => 1%nat
  end.

(** [lookup_path p v] follows the keys of [p] through nested maps. *)
Fixpoint lookup_path (p : list string) (v : value) : option value :=
  match p with
  | [] => Some v
  | k :: p' =>
      match v with
      | VMap m => match m !! k with Some x => lookup_path p' x | None => None end
      | _ => None
      end
  end.

(** ** Context builder: merging *)

Module Ctx.

(** [deepCopyValue] of the context package: maps and slices are rebuilt,
    everything else is returned as it is. *)
Fixpoint deepCopyValue (v : value) : value :=
  match v with
  | VMap val => VMap (deepCopyValue <$> val)
  | VList val => VList (deepCopyValue <$> val)
  | _ => v
  end.

(** [deepMerge base override].  The Go function ranges over [override] and
    writes into [result], which starts as a deep copy of [base]; the recursion
    descends into [override], so the override is passed as a value here.  A nil
    Go map reads as the empty map; for a nil [override] the Go code returns
    [base] itself, which is the same tree. *)
Fixpoint deepMergeV (base : object) (override : value) {struct override} : object :=
  match override with
  | VMap om =>
      map_fold (fun k v result =>
        match result !! k, v with
        | Some (VMap existingMap), VMap _ =>
            <[k := VMap (deepMergeV existingMap v)]> result
        | _, _ => <[k := deepCopyValue v]> result
        end) (deepCopyValue <$> base) om
  | _ => base
  end.

Definition deepMerge (base override : object) : object :=
  deepMergeV base (VMap override).

(** What [deepMerge] leaves at one key, read off the two values found there
    (used to state the lookup equation of [deepMerge]). *)
Definition merge_at (ob oo : option value) : option value :=
  match oo with
  | None => ob
  | Some v =>
      match ob, v with
      | Some (VMap bm), VMap om => Some (VMap (deepMerge bm om))
      | _, _ => Some v
      end
  end.

(** [untouched p v]: the override tree [v] defines nothing at path [p] nor
    replaces any prefix of it by a non-mapping. *)
Fixpoint untouched (p : list string) (v : value) : bool :=
  match p with
  | [] => false
  | k :: p' =>
      match v with
      | VMap m => match m !! k with None => true | Some x => untouched p' x end
      | _ => false
      end
  end.

End Ctx.


(** ** Structural schema and defaulting *)

Module Schema.

(** Modelled from the spec: the structural schema type and
    [schema.ApplyDefaults] live in package [internal/crd-renderer/schema],
    which is not part of the sources at hand.  The spec (4.2) describes the
    schema as "per-field type, optional default, enum, children" over objects,
    arrays and primitives. *)
Inductive Structural : Type :=
  MkStructural {
    sType : string;
    sDefault : option value;
    sProperties : gmap string Structural;
    sItems : option Structural }.

(** Modelled from the spec: [schema.ApplyDefaults] is missing from the
    sources.  Spec 4.2: "produce a mapping in which every declared field that
    is absent and has a default is present with that default; recursively
    across nested objects; and for arrays, per-item defaults are applied to
    each element".  Present values are never replaced. *)
Fixpoint applyDefaultsV (s : Structural) (v : value) {struct s} : value :=
  match v with
  | VMap m =>
      VMap (map_fold (fun k prop acc =>
              match acc !! k with
              | Some x => <[k := applyDefaultsV prop x]> acc
              | None =>
                  match sDefault prop with
                  | Some d => <[k := applyDefaultsV prop d]> acc
                  | None => acc
                  end
              end) m (sProperties s))
  | VList l =>
      match sItems s with
      | Some it => VList (applyDefaultsV it <$> l)
      | None => v
      end
  | _ => v
  end.

(** The schema of the field reached by the keys of [q]. *)
Fixpoint schema_at (q : list string) (s : Structural) : option Structural :=
  match q with
  | [] => Some s
  | k :: q' =>
      match sProperties s !! k with
      | Some prop => schema_at q' prop
      | None => None
      end
  end.

(** Modelled from the spec: the entry point on a parameter map, see
    [applyDefaultsV]. *)
Definition ApplyDefaults (parameters : object) (s : Structural) : object :=
  match applyDefaultsV s (VMap parameters) with
  | VMap m => m
  | _ => parameters
  end.

End Schema.

(** ** Context builder: inputs and the two builders *)

Module Builder.
Import Ctx Schema.

(** [runtime.RawExtension]: only the [Raw] bytes are read; [None] is a nil
    slice. *)
Record RawExtension := { Raw : option string }.

Record Component := {
  cName : string;
  cNamespace : string;
  cParameters : option RawExtension }.

(** The two schema fields of [Spec.Schema], shared by
    [ComponentTypeDefinition] and [Addon]. *)
Record SchemaSpec := {
  schParameters : option RawExtension;
  schEnvOverrides : option RawExtension }.

Record ComponentTypeDefinition := { ctdSchema : SchemaSpec }.

Record Addon := { aName : string; aSchema : SchemaSpec }.

Record ComponentAddon := { InstanceID : string; Config : option RawExtension }.

Record EnvSettings := {
  esOverrides : option RawExtension;
  esAddonOverrides : option (gmap string (gmap string RawExtension)) }.

Record Container := {
  Image : string;
  Command : list string;
  Args : list string }.

(** [Endpoints] and [Connections] are maps of API structs that are stored in
    the context as they are; they are kept as already-embedded maps. *)
Record Workload := {
  wName : string;
  wContainers : gmap string Container;
  wEndpoints : object;
  wConnections : object }.

Record ComponentContextInput := {
  ciComponent : option Component;
  ciComponentTypeDefinition : option ComponentTypeDefinition;
  ciEnvSettings : option EnvSettings;
  ciWorkload : option Workload;
  ciEnvironment : string;
  ciAdditionalMetadata : gmap string string }.

Record AddonContextInput := {
  aiAddon : option Addon;
  aiInstance : ComponentAddon;
  aiComponent : option Component;
  aiEnvSettings : option EnvSettings;
  aiEnvironment : string;
  aiAdditionalMetadata : gmap string string }.

Record SchemaInput := {
  ParametersSchema : option RawExtension;
  EnvOverridesSchema : option RawExtension;
  siStructural : option Structural }.

Section builders.

(** Errors of the libraries the builders call. *)
Variable E : Type.

(** [json.Unmarshal] into a [map[string]any] (encoding/json). *)
Variable json_Unmarshal : string -> E + object.

(** [schema.ToStructural] on the list of declared schemas; like
    [ApplyDefaults] it belongs to the missing schema package, and nothing
    about its result is used but that it is a schema. *)
Variable ToStructural : list object -> E + Structural.

(** One constructor per [fmt.Errorf] of the builders. *)
Inductive build_error :=
| ErrInputNil
| ErrComponentNil
| ErrTypeDefinitionNil
| ErrAddonNil
| ErrUnmarshalParameters (e : E)
| ErrStructural (e : E)
| ErrBuildSchema (e : build_error)
| ErrExtractParameters (e : build_error)
| ErrExtractOverrides (e : build_error).

Definition slist (l : list string) : value := VList (VStr <$> l).
Definition smap (m : gmap string string) : value := VMap (VStr <$> m).

Definition extractParameters (raw : option RawExtension)
  : build_error + object :=
  match raw with
  | None => inr ∅
  | Some r =>
      match Raw r with
      | None => inr ∅
      | Some bytes =>
          match json_Unmarshal bytes with
          | inl e => inl (ErrUnmarshalParameters e)
          | inr params => inr params
          end
      end
  end.

(** [extractParametersFromRawExtension] of the addon builder has the same
    body; it is called on the address of a map element, which is never
    nil. *)
Definition extractParametersFromRawExtension (raw : option RawExtension)
  : build_error + object :=
  match raw with
  | None => inr ∅
  | Some r =>
      match Raw r with
      | None => inr ∅
      | Some bytes =>
          match json_Unmarshal bytes with
          | inl e => inl (ErrUnmarshalParameters e)
          | inr params => inr params
          end
      end
  end.

Definition containerData (c : Container) : value :=
  let d : object := {[ "image" := VStr (Image c) ]} in
  let d := if bool_decide (Command c = []) then d
           else <["command" := slist (Command c)]> d in
  let d := if bool_decide (Args c = []) then d
           else <["args" := slist (Args c)]> d in
  VMap d.

Definition extractWorkloadData (workload : option Workload) : object :=
  match workload with
  | None => ∅
  | Some w =>
      let data : object := ∅ in
      let data := if bool_decide (wName w = "") then data
                  else <["name" := VStr (wName w)]> data in
      let data := if bool_decide (wContainers w = ∅) then data
                  else <["containers" := VMap (containerData <$> wContainers w)]> data in
      let data := if bool_decide (wEndpoints w = ∅) then data
                  else <["endpoints" := VMap (wEndpoints w)]> data in
      let data := if bool_decide (wConnections w = ∅) then data
                  else <["connections" := VMap (wConnections w)]> data in
      data
  end.

Definition buildStructuralSchema (input : SchemaInput)
  : build_error + Structural :=
  match siStructural input with
  | Some s => inr s
  | None =>
      let schemas : build_error + list object :=
        match ParametersSchema input with
        | None => inr []
        | Some _ =>
            match extractParameters (ParametersSchema input) with
            | inl e => inl e
            | inr params => inr [params]
            end
        end in
      match schemas with
      | inl e => inl e
      | inr schemas =>
          let schemas : build_error + list object :=
            match EnvOverridesSchema input with
            | None => inr schemas
            | Some _ =>
                match extractParameters (EnvOverridesSchema input) with
                | inl e => inl e
                | inr envOverrides => inr (schemas ++ [envOverrides])%list
                end
            end in
          match schemas with
          | inl e => inl e
          | inr schemas =>
              match ToStructural schemas with
              | inl e => inl (ErrStructural e)
              | inr structural => inr structural
              end
          end
      end
  end.

Definition componentMeta (c : Component) : value :=
  let m : object := {[ "name" := VStr (cName c) ]} in
  VMap (if bool_decide (cNamespace c = "") then m
        else <["namespace" := VStr (cNamespace c)]> m).

(** Steps 5 to 8 of [BuildComponentContext], after [parameters] is set. *)
Definition componentContextTail (input : ComponentContextInput)
    (component : Component) (ctx : object) : object :=
  let ctx := match ciWorkload input with
             | Some w => <["workload" := VMap (extractWorkloadData (Some w))]> ctx
             | None => ctx
             end in
  let ctx := <["component" := componentMeta component]> ctx in
  let ctx := if bool_decide (ciEnvironment input = "") then ctx
             else <["environment" := VStr (ciEnvironment input)]> ctx in
  let ctx := if bool_decide (ciAdditionalMetadata input = ∅) then ctx
             else <["metadata" := smap (ciAdditionalMetadata input)]> ctx in
  ctx.

Definition BuildComponentContext (input : option ComponentContextInput)
  : build_error + object :=
  match input with
  | None => inl ErrInputNil
  | Some input =>
  match ciComponent input with
  | None => inl ErrComponentNil
  | Some component =>
  match ciComponentTypeDefinition input with
  | None => inl ErrTypeDefinitionNil
  | Some ctd =>
  let schemaInput :=
    {| ParametersSchema := schParameters (ctdSchema ctd);
       EnvOverridesSchema := schEnvOverrides (ctdSchema ctd);
       siStructural := None |} in
  match buildStructuralSchema schemaInput with
  | inl e => inl (ErrBuildSchema e)
  | inr structural =>
  match extractParameters (cParameters component) with
  | inl e => inl (ErrExtractParameters e)
  | inr parameters =>
  let merged : build_error + object :=
    match ciEnvSettings input with
    | Some es =>
        match esOverrides es with
        | Some _ =>
            match extractParameters (esOverrides es) with
            | inl e => inl (ErrExtractOverrides e)
            | inr envOverrides => inr (deepMerge parameters envOverrides)
            end
        | None => inr parameters
        end
    | None => inr parameters
    end in
  match merged with
  | inl e => inl e
  | inr parameters =>
      let parameters := ApplyDefaults parameters structural in
      let ctx : object := <["parameters" := VMap parameters]> ∅ in
      inr (componentContextTail input component ctx)
  end end end end end end.

(** Steps 5 to 8 of [BuildAddonContext]. *)
Definition addonContextTail (input : AddonContextInput) (addon : Addon)
    (component : Component) (ctx : object) : object :=
  let addonMeta : object :=
    <["instanceId" := VStr (InstanceID (aiInstance input))]>
      {[ "name" := VStr (aName addon) ]} in
  let ctx := <["addon" := VMap addonMeta]> ctx in
  let ctx := <["component" := componentMeta component]> ctx in
  let ctx := if bool_decide (aiEnvironment input = "") then ctx
             else <["environment" := VStr (aiEnvironment input)]> ctx in
  let ctx := if bool_decide (aiAdditionalMetadata input = ∅) then ctx
             else <["metadata" := smap (aiAdditionalMetadata input)]> ctx in
  ctx.

(** The override of one addon instance:
    [EnvSettings.Spec.AddonOverrides[addonName][instanceID]]. *)
Definition instanceOverride (input : AddonContextInput) (addon : Addon)
  : option RawExtension :=
  es ← aiEnvSettings input;
  all ← esAddonOverrides es;
  addonOverrides ← all !! aName addon;
  addonOverrides !! InstanceID (aiInstance input).

Definition BuildAddonContext (input : option AddonContextInput)
  : build_error + object :=
  match input with
  | None => inl ErrInputNil
  | Some input =>
  match aiAddon input with
  | None => inl ErrAddonNil
  | Some addon =>
  match aiComponent input with
  | None => inl ErrComponentNil
  | Some component =>
  let schemaInput :=
    {| ParametersSchema := schParameters (aSchema addon);
       EnvOverridesSchema := schEnvOverrides (aSchema addon);
       siStructural := None |} in
  match buildStructuralSchema schemaInput with
  | inl e => inl (ErrBuildSchema e)
  | inr structural =>
  match extractParameters (Config (aiInstance input)) with
  | inl e => inl (ErrExtractParameters e)
  | inr parameters =>
  let merged : build_error + object :=
    match instanceOverride input addon with
    | Some instanceOverride =>
        match extractParametersFromRawExtension (Some instanceOverride) with
        | inl e => inl (ErrExtractOverrides e)
        | inr envOverrides => inr (deepMerge parameters envOverrides)
        end
    | None => inr parameters
    end in
  match merged with
  | inl e => inl e
  | inr parameters =>
      let parameters := ApplyDefaults parameters structural in
      let ctx : object := <["parameters" := VMap parameters]> ∅ in
      inr (addonContextTail input addon component ctx)
  end end end end end end.

(** The environment overrides a component render merges, [∅] when the
    settings or their [Overrides] are nil. *)
Definition componentOverrides (input : ComponentContextInput)
  : build_error + object :=
  match ciEnvSettings input with
  | Some es =>
      match esOverrides es with
      | Some _ => extractParameters (esOverrides es)
      | None => inr ∅
      end
  | None => inr ∅
  end.

(** The overrides an addon render merges, [∅] when there are none. *)
Definition addonOverrides (input : AddonContextInput) (addon : Addon)
  : build_error + object :=
  match instanceOverride input addon with
  | Some o => extractParametersFromRawExtension (Some o)
  | None => inr ∅
  end.

(** The precedence of the three parameter sources, read on the final
    [parameters] tree: a scalar set by the overrides is there; a scalar set
    by the declared parameters is there unless the overrides touch its path;
    a declared scalar default is there where the merged tree has an object
    without that key. *)
Definition has_precedence (overrides declared : object) (s : Structural)
    (parameters : object) : Prop :=
  (forall p v, p <> [] -> is_scalar v = true ->
     lookup_path p (VMap overrides) = Some v ->
     lookup_path p (VMap parameters) = Some v)
  /\ (forall p v, is_scalar v = true ->
        untouched p (VMap overrides) = true ->
        lookup_path p (VMap declared) = Some v ->
        lookup_path p (VMap parameters) = Some v)
  /\ (forall q fields sq k prop d,
        lookup_path q (VMap (deepMerge declared overrides)) = Some (VMap fields) ->
        fields !! k = None ->
        schema_at q s = Some sq ->
        sProperties sq !! k = Some prop ->
        sDefault prop = Some d ->
        is_scalar d = true ->
        lookup_path (q ++ [k])%list (VMap parameters) = Some d).

End builders.

End Builder.

(** ** Template functions: [oc_hash] *)

Module Hash.

(** The bytes of a Go string. *)
Definition byte_of (c : ascii) : Z := Z.of_N (N_of_ascii c).

Fixpoint bytes (s : string) : list Z :=
  match s with
  | EmptyString => []
  | String c s' => byte_of c :: bytes s'
  end.

(** [hash/fnv]: the 32-bit FNV-1a state, its offset basis and prime. *)
Definition offset32 : Z := 2166136261.
Definition prime32 : Z := 16777619.

Definition wrap32 (z : Z) : Z := z mod 2 ^ 32.

(** One round of [sum32a.Write]: [hash ^= c; hash *= prime32] on [uint32]. *)
Definition write_byte (hash c : Z) : Z := wrap32 (Z.lxor hash c * prime32).

(** [h := fnv.New32a(); h.Write(data); h.Sum32()]. *)
Definition Sum32 (data : list Z) : Z := fold_left write_byte data offset32.

(** [fmt] integer formatting with verb [x]: the digits come out of
    [0123456789abcdef], least significant first, while [u >= 16]. *)
Definition ldigits : string := "0123456789abcdef".

Definition digit (d : Z) : ascii :=
  match String.get (Z.to_nat d) ldigits with
  | Some c => c
  | None => "0"%char
  end.

Fixpoint fmt_hex_loop (fuel : nat) (u : Z) (acc : string) : string :=
  match fuel with
  | O => acc
  | S fuel' =>
      if u <? 16 then String (digit u) acc
      else fmt_hex_loop fuel' (Z.shiftr u 4) (String (digit (Z.land u 15)) acc)
  end.

Fixpoint zeros (n : nat) : string :=
  match n with
  | O => ""
  | S n' => String "0"%char (zeros n')
  end.

(** [fmt.Sprintf("%08x", u)] for an unsigned [u] of at most 64 bits (16
    digits): the digits, left-padded with zeros to width 8. *)
Definition Sprintf_08x (u : Z) : string :=
  let ds := fmt_hex_loop 16 u "" in
  zeros (8 - String.length ds) ++ ds.

(** The binding of the CEL function [oc_hash]. *)
Definition oc_hash (input : string) : string :=
  Sprintf_08x (Sum32 (bytes input)).

(** [generateHashString], the helper of the volume-name generators. *)
Definition generateHashString (input : string) : string :=
  Sprintf_08x (Sum32 (bytes input)).

(** The [k] low hexadecimal digits of [u], most significant first. *)
Fixpoint nibbles (k : nat) (u : Z) : string :=
  match k with
  | O => ""
  | S k' => nibbles k' (u / 16) ++ String (digit (u mod 16)) ""
  end.



End Hash.

(** ** Strings: the functions of [strings] and [strconv] the patch engine
    calls, on byte strings *)

Module Str.

Definition byte (c : ascii) : Z := Z.of_N (N_of_ascii c).

Fixpoint drop (n : nat) (s : string) : string :=
  match n, s with
  | O, _ => s
  | S n', String _ s' => drop n' s'
  | S _, EmptyString => EmptyString
  end.

Fixpoint take (n : nat) (s : string) : string :=
  match n, s with
  | S n', String c s' => String c (take n' s')
  | _, _ => EmptyString
  end.

(** The Go slice expression [s[i:j]]. *)
Definition slice (i j : nat) (s : string) : string := take (j - i) (drop i s).

Fixpoint rev_onto (s acc : string) : string :=
  match s with
  | EmptyString => acc
  | String c s' => rev_onto s' (String c acc)
  end.

Definition HasPrefix (s p : string) : bool := String.prefix p s.

Definition HasSuffix (s p : string) : bool :=
  (String.length p <=? String.length s)%nat
  && String.eqb (drop (String.length s - String.length p) s) p.

(** [strings.Index(s, c)] for a one-byte [c]; [None] is [-1]. *)
Fixpoint IndexByte (c : ascii) (s : string) : option nat :=
  match s with
  | EmptyString => None
  | String d s' => if Ascii.eqb d c then Some O else S <$> IndexByte c s'
  end.

Definition TrimPrefix (s p : string) : string :=
  if HasPrefix s p then drop (String.length p) s else s.

(** [strings.Split(s, sep)] for a one-byte separator. *)
Fixpoint Split (sep : ascii) (s : string) : list string :=
  match s with
  | EmptyString => [EmptyString]
  | String c s' =>
      if Ascii.eqb c sep then EmptyString :: Split sep s'
      else match Split sep s' with
           | [] => [String c EmptyString]
           | x :: xs => String c x :: xs
           end
  end.

(** [strings.ReplaceAll(s, old, new)] for a one-byte [old]. *)
Fixpoint ReplaceAll1 (a : ascii) (new : string) (s : string) : string :=
  match s with
  | EmptyString => EmptyString
  | String c s' =>
      if Ascii.eqb c a then new ++ ReplaceAll1 a new s'
      else String c (ReplaceAll1 a new s')
  end.

(** [strings.ReplaceAll(s, old, new)] for a two-byte [old]. *)
Fixpoint ReplaceAll2 (a b : ascii) (new : string) (s : string) : string :=
  match s with
  | String c ((String d s'') as s') =>
      if Ascii.eqb c a && Ascii.eqb d b then new ++ ReplaceAll2 a b new s''
      else String c (ReplaceAll2 a b new s')
  | _ => s
  end.

(** [strings.ToLower] on the ASCII letters.  The result is only compared with
    the operation names, none of which has an [i] or a [k], the two ASCII
    letters that are the lower case of a non-ASCII rune; so the comparison
    comes out as with the Unicode mapping. *)
Definition lower (c : ascii) : ascii :=
  let n := byte c in
  if (65 <=? n) && (n <=? 90) then ascii_of_N (Z.to_N (n + 32)) else c.

Fixpoint ToLower (s : string) : string :=
  match s with
  | EmptyString => EmptyString
  | String c s' => String (lower c) (ToLower s')
  end.

(** Leading white space in the sense of [unicode.IsSpace], on the UTF-8
    bytes: the six ASCII spaces, U+0085, U+00A0, U+1680, U+2000 to U+200A,
    U+2028, U+2029, U+202F, U+205F and U+3000. *)
Definition ascii_space (n : Z) : bool :=
  (n =? 9) || (n =? 10) || (n =? 11) || (n =? 12) || (n =? 13) || (n =? 32).

Definition space2 (a b : Z) : bool :=
  (a =? 194) && ((b =? 133) || (b =? 160)).

Definition space3 (a b c : Z) : bool :=
  ((a =? 225) && (b =? 154) && (c =? 128))
  || ((a =? 226) && (b =? 128)
      && (((128 <=? c) && (c <=? 138)) || (c =? 168) || (c =? 169) || (c =? 175)))
  || ((a =? 226) && (b =? 129) && (c =? 159))
  || ((a =? 227) && (b =? 128) && (c =? 128)).

Fixpoint TrimLeftSpace (s : string) : string :=
  match s with
  | String a s1 =>
      if ascii_space (byte a) then TrimLeftSpace s1
      else match s1 with
           | String b s2 =>
               if space2 (byte a) (byte b) then TrimLeftSpace s2
               else match s2 with
                    | String c s3 =>
                        if space3 (byte a) (byte b) (byte c)
                        then TrimLeftSpace s3 else s
                    | EmptyString => s
                    end
           | EmptyString => s
           end
  | EmptyString => s
  end.

(** The same on a reversed string: the bytes of a rune come last first. *)
Fixpoint TrimLeftSpaceRev (s : string) : string :=
  match s with
  | String a s1 =>
      if ascii_space (byte a) then TrimLeftSpaceRev s1
      else match s1 with
           | String b s2 =>
               if space2 (byte b) (byte a) then TrimLeftSpaceRev s2
               else match s2 with
                    | String c s3 =>
                        if space3 (byte c) (byte b) (byte a)
                        then TrimLeftSpaceRev s3 else s
                    | EmptyString => s
                    end
           | EmptyString => s
           end
  | EmptyString => s
  end.

(** [strings.TrimSpace]. *)
Definition TrimSpace (s : string) : string :=
  rev_onto (TrimLeftSpaceRev (rev_onto (TrimLeftSpace s) "")) "".

(** [strconv.Atoi] with a 64-bit [int]: an optional sign, then decimal
    digits, and a value that fits. *)
Definition digit_val (c : ascii) : option Z :=
  let n := byte c in
  if (48 <=? n) && (n <=? 57) then Some (n - 48) else None.

Fixpoint parse_digits (s : string) (acc : Z) : option Z :=
  match s with
  | EmptyString => Some acc
  | String c s' =>
      match digit_val c with
      | Some d => parse_digits s' (acc * 10 + d)
      | None => None
      end
  end.

Definition Atoi (s : string) : option Z :=
  let '(neg, ds) :=
    match s with
    | String "-" r => (true, r)
    | String "+" r => (false, r)
    | _ => (false, s)
    end in
  match ds with
  | EmptyString => None
  | _ =>
      match parse_digits ds 0 with
      | Some n =>
          let v := if neg : bool then - n else n in
          if (- 2 ^ 63 <=? v) && (v <=? 2 ^ 63 - 1) then Some v else None
      | None => None
      end
  end.

(** [strconv.Itoa]. *)
Definition Itoa (i : Z) : string := pretty i.

(** [filterExpr.FindStringSubmatch] for the regular expression of the patch
    package: at the start [@.], then group 1, one or more bytes out of
    [A-Za-z0-9_.-]; then spaces, [==], spaces, a single or double quote; then
    group 2, any bytes but a newline; then a single or double quote ending the
    text.  No part can match in two ways: the field class has neither a space
    nor [=], a space is neither [=] nor a quote, and the closing quote must be
    the last byte.  The result is the pair of the two groups. *)
Definition field_char (c : ascii) : bool :=
  let n := byte c in
  ((65 <=? n) && (n <=? 90)) || ((97 <=? n) && (n <=? 122))
  || ((48 <=? n) && (n <=? 57)) || (n =? 95) || (n =? 46) || (n =? 45).

(** [\s] of the RE2 syntax. *)
Definition re_space (c : ascii) : bool :=
  let n := byte c in
  (n =? 9) || (n =? 10) || (n =? 12) || (n =? 13) || (n =? 32).

Definition quote (c : ascii) : bool :=
  let n := byte c in (n =? 39) || (n =? 34).

Fixpoint span (f : ascii -> bool) (s : string) : string * string :=
  match s with
  | String c s' =>
      if f c then let '(a, b) := span f s' in (String c a, b)
      else (EmptyString, s)
  | EmptyString => (EmptyString, EmptyString)
  end.

(** [body] and the last byte of a string. *)
Fixpoint unsnoc (s : string) : option (string * ascii) :=
  match s with
  | EmptyString => None
  | String c s' =>
      match unsnoc s' with
      | None => Some (EmptyString, c)
      | Some (body, l) => Some (String c body, l)
      end
  end.

Fixpoint no_newline (s : string) : bool :=
  match s with
  | EmptyString => true
  | String c s' => negb (byte c =? 10) && no_newline s'
  end.

Definition filterExpr_FindStringSubmatch (s : string) : option (string * string) :=
  match s with
  | String "@" (String "." rest) =>
      let '(field, rest) := span field_char rest in
      if String.eqb field "" then None
      else
        match snd (span re_space rest) with
        | String "=" (String "=" rest) =>
            match snd (span re_space rest) with
            | String q rest =>
                if quote q then
                  match unsnoc rest with
                  | Some (body, q') =>
                      if quote q' && no_newline body then Some (field, body)
                      else None
                  | None => None
                  end
                else None
            | EmptyString => None
            end
        | _ => None
        end
  | _ => None
  end.

End Str.

(** ** Patch engine *)

Module Patch.
Import Str.

Record JSONPatchOperation := {
  Op : string;
  Path : string;
  Value : value }.

Record TargetSpec := {
  Kind : string;
  Group : string;
  Version : string;
  Name : string;
  Where : string }.

Record PatchSpec := {
  ForEach : string;
  Var : string;
  Target : TargetSpec;
  Operations : list JSONPatchOperation }.

(** A location reached during path expansion: the pointer segments and the
    value found there. *)
Record pathState := {
  pointer : list string;
  psValue : value }.

Definition opRemove : string := "remove".

(** [cloneValue], [deepCopyMap] and [deepCopySlice] of the patch package: the
    three functions copy maps and slices element by element with the same
    type switch. *)
Fixpoint cloneValue (v : value) : value :=
  match v with
  | VMap typed => VMap (cloneValue <$> typed)
  | VList typed => VList (cloneValue <$> typed)
  | _ => v
  end.

Definition deepCopyMap (src : object) : object := cloneValue <$> src.
Definition deepCopySlice (src : list value) : list value := cloneValue <$> src.

(** [for k, v := range overlay { target[k] = cloneValue(v) }] *)
Definition mergeShallowInto (target overlay : object) : object :=
  map_fold (fun k v target => <[k := cloneValue v]> target) target overlay.

Definition escapePointerSegment (seg : string) : string :=
  ReplaceAll1 "/" "~1" (ReplaceAll1 "~" "~0" seg).

Definition unescapePointerSegment (seg : string) : string :=
  ReplaceAll2 "~" "0" "~" (ReplaceAll2 "~" "1" "/" seg).

Definition splitRawPath (path : string) : list string :=
  if String.eqb path "" then []
  else
    let trimmed := TrimPrefix path "/" in
    if String.eqb trimmed "" then [""] else Split "/" trimmed.

Definition appendPointer (base : list string) (segment : string) : list string :=
  (base ++ [segment])%list.

Fixpoint writeSegments (segments : list string) : string :=
  match segments with
  | [] => ""
  | seg :: rest =>
      "/" ++ (if String.eqb seg "-" then seg else escapePointerSegment seg)
          ++ writeSegments rest
  end.

Definition buildJSONPointer (segments : list string) : string :=
  match segments with
  | [] => ""
  | _ => writeSegments segments
  end.

Definition splitPointer (pointer : string) : list string :=
  if String.eqb pointer "" then []
  else
    let trimmed := TrimPrefix pointer "/" in
    if String.eqb trimmed "" then [""]
    else (fun part => if String.eqb part "-" then part
                      else unescapePointerSegment part) <$> Split "/" trimmed.

(** [determineNextContainerType]: the container to create for a missing
    intermediate, from the segment that follows it. *)
Definition determineNextContainerType (segments : list string) (index : nat)
    (last : string) : value :=
  let nextSeg := default last (segments !! (index + 1)%nat) in
  if String.eqb nextSeg "-" then VList []
  else match Atoi nextSeg with
       | Some _ => VList []
       | None => VMap ∅
       end.

Section engine.

(** Errors of the functions passed in or called from libraries: the render
    function and the JSON-Patch library. *)
Variable E : Type.

(** [fmt.Sprintf] with verb [v] on one value. *)
Variable Sprintf_v : value -> string.

(** One RFC 6902 operation run by [github.com/evanphx/json-patch] on the
    serialized target, as [applyJSONPatch] calls it: the operation, the
    pointer, the value ([None] for [remove]) and the document; the result is
    the patched document read back, or the error of any of the steps. *)
Variable jsonpatch_Apply : string -> string -> option value -> object -> E + object.

(** One constructor per [fmt.Errorf] of the package. *)
Inductive patch_error :=
| ErrEvalPath (e : E)
| ErrPathNotString (v : value)
| ErrEvalValue (e : E)
| ErrUnknownOp (op : string)
| ErrMergeValueNotObject
| ErrUnclosedBracket (segment : string)
| ErrUnsupportedIndex (content : string)
| ErrExpectsObject (key : string) (v : value)
| ErrExpectsArray (v : value)
| ErrIndexOutOfBounds (index : Z)
| ErrUnsupportedFilter (expr : string)
| ErrApplyJSONPatch (e : E)
| ErrCreateIndex (next seg : string)
| ErrExpectedIndex (seg : string)
| ErrSegmentOutOfBounds (index : Z) (seg : string)
| ErrCannotTraverse (seg : string) (v : value)
| ErrMissingPath (seg : string)
| ErrMergeAppend
| ErrMergeInvalidIndex (last : string)
| ErrMergeOutOfBounds (index : Z)
| ErrMergeParent (v : value)
| ErrEvalWhere (e : E)
| ErrWhereNotBool (v : value)
| ErrEvalForEach (e : E)
| ErrForEachNotArray (v : value).

(** [RenderFunc] and [MissingDataChecker]. *)
Definition RenderFunc := value -> object -> E + value.
Definition MissingDataChecker := option (E -> bool).

(** The supplied checker accepts the error; a nil checker accepts none. *)
Definition accepts (check : MissingDataChecker) (err : E) : bool :=
  match check with
  | Some f => f err
  | None => false
  end.

(** *** Path expansion *)

(** [matchesFilter]: the field path is followed through nested maps with
    [lookup_path]; a step on a non-map or to a missing key ends the walk. *)
Definition matchesFilter (item : value) (expr : string) : patch_error + bool :=
  match filterExpr_FindStringSubmatch (TrimSpace expr) with
  | None => inl (ErrUnsupportedFilter expr)
  | Some (field, expected) =>
      let fieldPath := Split "." field in
      match lookup_path fieldPath item with
      | None => inr false
      | Some VNil => inr (String.eqb expected "")
      | Some current => inr (String.eqb (Sprintf_v current) expected)
      end
  end.

Fixpoint applyKeyStates (key : string) (states : list pathState)
  : patch_error + list pathState :=
  match states with
  | [] => inr []
  | st :: rest =>
      let child : patch_error + value :=
        match psValue st with
        | VMap current => inr (default VNil (current !! key))
        | VNil => inr VNil
        | v => inl (ErrExpectsObject key v)
        end in
      match child with
      | inl e => inl e
      | inr child =>
          match applyKeyStates key rest with
          | inl e => inl e
          | inr next =>
              inr ({| pointer := appendPointer (pointer st) key;
                      psValue := child |} :: next)
          end
      end
  end.

Definition applyKey (states : list pathState) (key : string)
  : patch_error + list pathState :=
  if String.eqb key "" then inr states else applyKeyStates key states.

Fixpoint applyIndex (states : list pathState) (index : Z)
  : patch_error + list pathState :=
  match states with
  | [] => inr []
  | st :: rest =>
      match psValue st with
      | VList arr =>
          if (index <? 0) || (Z.of_nat (length arr) <=? index)
          then inl (ErrIndexOutOfBounds index)
          else
            match applyIndex rest index with
            | inl e => inl e
            | inr next =>
                inr ({| pointer := appendPointer (pointer st) (Itoa index);
                        psValue := default VNil (arr !! Z.to_nat index) |}
                       :: next)
            end
      | v => inl (ErrExpectsArray v)
      end
  end.

Definition applyDash (states : list pathState) : list pathState :=
  (fun st => {| pointer := appendPointer (pointer st) "-"; psValue := VNil |})
    <$> states.

(** The inner loop of [applyFilter] over the elements of one array, from
    index [idx] on. *)
Fixpoint filterItems (base : list string) (expr : string) (idx : nat)
    (arr : list value) : patch_error + list pathState :=
  match arr with
  | [] => inr []
  | item :: rest =>
      match matchesFilter item expr with
      | inl e => inl e
      | inr matched =>
          match filterItems base expr (S idx) rest with
          | inl e => inl e
          | inr next =>
              if matched
              then inr ({| pointer := appendPointer base (Itoa (Z.of_nat idx));
                           psValue := item |} :: next)
              else inr next
          end
      end
  end.

Fixpoint applyFilter (states : list pathState) (expr : string)
  : patch_error + list pathState :=
  match states with
  | [] => inr []
  | st :: rest =>
      let here : patch_error + list pathState :=
        match psValue st with
        | VList arr => filterItems (pointer st) expr 0 arr
        | _ => inr []
        end in
      match here with
      | inl e => inl e
      | inr found =>
          match applyFilter rest expr with
          | inl e => inl e
          | inr next => inr (found ++ next)%list
          end
      end
  end.

(** The loop of [applySegment]; every round consumes at least one byte of
    [remaining], so [fuel] is the length of the segment. *)
Fixpoint applySegmentLoop (fuel : nat) (segment : string)
    (current : list pathState) (remaining : string)
  : patch_error + list pathState :=
  match fuel with
  | O => inr current
  | S fuel' =>
      if String.eqb remaining "" then inr current
      else if HasPrefix remaining "[" then
        match IndexByte "]" remaining with
        | None => inl (ErrUnclosedBracket segment)
        | Some closeIdx =>
            let content := slice 1 closeIdx remaining in
            let remaining := drop (closeIdx + 1) remaining in
            let step : patch_error + list pathState :=
              if HasPrefix content "?(" && HasSuffix content ")" then
                applyFilter current
                  (slice 2 (String.length content - 1) content)
              else if String.eqb content "-" then inr (applyDash current)
              else match Atoi content with
                   | None => inl (ErrUnsupportedIndex content)
                   | Some index => applyIndex current index
                   end in
            match step with
            | inl e => inl e
            | inr current => applySegmentLoop fuel' segment current remaining
            end
        end
      else
        let '(token, remaining) :=
          match IndexByte "[" remaining with
          | None => (remaining, "")
          | Some nextBracket =>
              (take nextBracket remaining, drop nextBracket remaining)
          end in
        if String.eqb token "" then
          applySegmentLoop fuel' segment current remaining
        else
          match Atoi token with
          | Some idx =>
              match applyIndex current idx with
              | inl e => inl e
              | inr current => applySegmentLoop fuel' segment current remaining
              end
          | None =>
              match applyKey current token with
              | inl e => inl e
              | inr current => applySegmentLoop fuel' segment current remaining
              end
          end
  end.

Definition applySegment (state : pathState) (segment : string)
  : patch_error + list pathState :=
  applySegmentLoop (String.length segment) segment [state] segment.

(** [for _, st := range states]: every state is expanded by [segment]. *)
Fixpoint expandStates (segment : string) (states : list pathState)
  : patch_error + list pathState :=
  match states with
  | [] => inr []
  | st :: rest =>
      match applySegment st segment with
      | inl e => inl e
      | inr expanded =>
          match expandStates segment rest with
          | inl e => inl e
          | inr next => inr (expanded ++ next)%list
          end
      end
  end.

(** [for _, segment := range segments], with its [continue] and [break]. *)
Fixpoint expandSegments (segments : list string) (states : list pathState)
  : patch_error + list pathState :=
  match segments with
  | [] => inr states
  | segment :: rest =>
      if String.eqb segment "-" then expandSegments rest (applyDash states)
      else
        match expandStates segment states with
        | inl e => inl e
        | inr [] => inr []
        | inr nextStates => expandSegments rest nextStates
        end
  end.

Definition expandPaths (root : object) (rawPath : string)
  : patch_error + list string :=
  if String.eqb rawPath "" then inr [""]
  else
    let segments := splitRawPath rawPath in
    match expandSegments segments [{| pointer := []; psValue := VMap root |}] with
    | inl e => inl e
    | inr states => inr ((fun st => buildJSONPointer (pointer st)) <$> states)
    end.

(** *** Writing through a pointer

    The Go functions take the root map by reference and write into the maps
    and slices they reach.  A rendered resource is a tree (it comes out of a
    decoder or a deep copy), so a write through a reference is a functional
    update along the path; each function returns the tree it leaves behind,
    also when it fails half-way. *)

Definition as_object (fallback : object) (v : value) : object :=
  match v with VMap m => m | _ => fallback end.

(** [child, exists := node[seg]] followed by [!exists || child == nil]. *)
Definition present (child : option value) : option value :=
  match child with
  | Some VNil | None => None
  | Some c => Some c
  end.

(** The loop of [ensureParentExists] over all segments but the last. *)
Fixpoint ensureParents (segments : list string) (current : value)
  : value * option patch_error :=
  match segments with
  | seg :: ((next :: _) as rest) =>
      match current with
      | VMap node =>
          match present (node !! seg) with
          | Some child =>
              let '(child, r) := ensureParents rest child in
              (VMap (<[seg := child]> node), r)
          | None =>
              if String.eqb next "-" then
                let '(child, r) := ensureParents rest (VList []) in
                (VMap (<[seg := child]> node), r)
              else
                match Atoi next with
                | Some _ => (current, Some (ErrCreateIndex next seg))
                | None =>
                    let '(child, r) := ensureParents rest (VMap ∅) in
                    (VMap (<[seg := child]> node), r)
                end
          end
      | VList node =>
          match Atoi seg with
          | None => (current, Some (ErrExpectedIndex seg))
          | Some index =>
              if (index <? 0) || (Z.of_nat (length node) <=? index)
              then (current, Some (ErrSegmentOutOfBounds index seg))
              else
                let '(child, r) :=
                  ensureParents rest (default VNil (node !! Z.to_nat index)) in
                (VList (<[Z.to_nat index := child]> node), r)
          end
      | _ => (current, Some (ErrCannotTraverse seg current))
      end
  | _ => (current, None)
  end.

Definition ensureParentExists (root : object) (pointer : string)
  : object * option patch_error :=
  let segments := splitPointer pointer in
  match segments with
  | [] => (root, None)
  | _ =>
      let '(v, r) := ensureParents segments (VMap root) in
      (as_object root v, r)
  end.

(** The loop of [navigateToParent] from segment [i] of [parentSegs] on.  The
    Go function returns the parent container, into which its caller then
    writes; here the caller's write is the function [k], run on the parent. *)
Fixpoint navigate (create : bool) (parentSegs : list string) (last : string)
    (i : nat) (todo : list string) (k : value -> value * option patch_error)
    (current : value) : value * option patch_error :=
  match todo with
  | [] => k current
  | seg :: rest =>
      match current with
      | VMap node =>
          match present (node !! seg) with
          | Some child =>
              let '(child, r) :=
                navigate create parentSegs last (S i) rest k child in
              (VMap (<[seg := child]> node), r)
          | None =>
              if create then
                let next := determineNextContainerType parentSegs i last in
                let '(child, r) :=
                  navigate create parentSegs last (S i) rest k next in
                (VMap (<[seg := child]> node), r)
              else (current, Some (ErrMissingPath seg))
          end
      | VList node =>
          match Atoi seg with
          | None => (current, Some (ErrExpectedIndex seg))
          | Some index =>
              if (index <? 0) || (Z.of_nat (length node) <=? index)
              then (current, Some (ErrSegmentOutOfBounds index seg))
              else
                let '(child, r) :=
                  navigate create parentSegs last (S i) rest k
                    (default VNil (node !! Z.to_nat index)) in
                (VList (<[Z.to_nat index := child]> node), r)
          end
      | _ => (current, Some (ErrCannotTraverse seg current))
      end
  end.

(** Reading and writing the value at the end of a chain of segments the way
    the two traversals walk it: a key of a map that holds a non-nil value, or
    an index in range of a slice.  They state what [navigate] does when
    nothing is missing. *)
Fixpoint pointer_get (segs : list string) (current : value) : option value :=
  match segs with
  | [] => Some current
  | seg :: rest =>
      match current with
      | VMap node =>
          match present (node !! seg) with
          | Some child => pointer_get rest child
          | None => None
          end
      | VList node =>
          match Atoi seg with
          | Some index =>
              if (index <? 0) || (Z.of_nat (length node) <=? index) then None
              else pointer_get rest (default VNil (node !! Z.to_nat index))
          | None => None
          end
      | _ => None
      end
  end.

Fixpoint pointer_set (segs : list string) (x : value) (current : value) : value :=
  match segs with
  | [] => x
  | seg :: rest =>
      match current with
      | VMap node =>
          VMap (<[seg := pointer_set rest x (default VNil (node !! seg))]> node)
      | VList node =>
          match Atoi seg with
          | Some index =>
              VList (<[Z.to_nat index :=
                         pointer_set rest x (default VNil (node !! Z.to_nat index))]>
                       node)
          | None => current
          end
      | _ => current
      end
  end.

(** [navigateToParent root pointer create], with the caller's use of the
    returned [(parent, last)] passed as [k last parent]. *)
Definition navigateToParent (root : object) (pointer : string) (create : bool)
    (k : string -> value -> value * option patch_error)
  : object * option patch_error :=
  let segments := splitPointer pointer in
  match segments with
  | [] =>
      let '(v, r) := k "" (VMap root) in (as_object root v, r)
  | _ =>
      let parentSegs := removelast segments in
      let last := List.last segments "" in
      let '(v, r) :=
        navigate create parentSegs last 0 parentSegs (k last) (VMap root) in
      (as_object root v, r)
  end.

(** What [mergeShallowAtPointer] does with an existing entry of the parent:
    a map is overlaid, anything else (and nil) is replaced by a copy. *)
Definition mergeShallowEntry (existing : option value) (val : object) : value :=
  match present existing with
  | Some (VMap targetMap) => VMap (mergeShallowInto targetMap val)
  | _ => VMap (deepCopyMap val)
  end.

(** The type switch of [mergeShallowAtPointer] on the parent container. *)
Definition mergeShallowParent (val : object) (last : string) (parent : value)
  : value * option patch_error :=
  match parent with
  | VMap container =>
      (VMap (<[last := mergeShallowEntry (container !! last) val]> container),
       None)
  | VList container =>
      if String.eqb last "-" then (parent, Some ErrMergeAppend)
      else
        match Atoi last with
        | None => (parent, Some (ErrMergeInvalidIndex last))
        | Some index =>
            if (index <? 0) || (Z.of_nat (length container) <=? index)
            then (parent, Some (ErrMergeOutOfBounds index))
            else
              (VList (<[Z.to_nat index :=
                          mergeShallowEntry (container !! Z.to_nat index) val]>
                        container), None)
        end
  | _ => (parent, Some (ErrMergeParent parent))
  end.

Definition mergeShallowAtPointer (root : object) (pointer : string)
    (val : object) : object * option patch_error :=
  navigateToParent root pointer true (mergeShallowParent val).

(** [applyJSONPatch]: on success the target is cleared and refilled from the
    patched document; on any error it is left as it was. *)
Definition applyJSONPatch (target : object) (op pointer : string) (val : value)
  : object * option patch_error :=
  let v := if String.eqb op opRemove then None else Some val in
  match jsonpatch_Apply op pointer v target with
  | inl e => (target, Some (ErrApplyJSONPatch e))
  | inr updated => (updated, None)
  end.

(** [for _, pointer := range resolved] of [applyRFC6902]. *)
Fixpoint applyResolved (op : string) (val : value) (resolved : list string)
    (target : object) : object * option patch_error :=
  match resolved with
  | [] => (target, None)
  | pointer :: rest =>
      let '(target, r) :=
        if String.eqb op "add" then ensureParentExists target pointer
        else (target, None) in
      match r with
      | Some e => (target, Some e)
      | None =>
          let '(target, r) := applyJSONPatch target op pointer val in
          match r with
          | Some e => (target, Some e)
          | None => applyResolved op val rest target
          end
      end
  end.

Definition applyRFC6902 (target : object) (op rawPath : string) (val : value)
  : object * option patch_error :=
  match expandPaths target rawPath with
  | inl e => (target, Some e)
  | inr [] => (target, None)
  | inr resolved => applyResolved op val resolved target
  end.

(** [for _, pointer := range resolved] of [applyMergeShallow]. *)
Fixpoint mergeResolved (valueMap : object) (resolved : list string)
    (target : object) : object * option patch_error :=
  match resolved with
  | [] => (target, None)
  | pointer :: rest =>
      let '(target, r) := mergeShallowAtPointer target pointer valueMap in
      match r with
      | Some e => (target, Some e)
      | None => mergeResolved valueMap rest target
      end
  end.

Definition applyMergeShallow (target : object) (rawPath : string) (val : value)
  : object * option patch_error :=
  match val with
  | VMap valueMap =>
      match expandPaths target rawPath with
      | inl e => (target, Some e)
      | inr [] => (target, None)
      | inr resolved => mergeResolved valueMap resolved target
      end
  | _ => (target, Some ErrMergeValueNotObject)
  end.

Definition rfc6902_ops : list string :=
  ["add"; "replace"; opRemove; "test"; "move"; "copy"].

Definition ApplyOperation (target : object) (operation : JSONPatchOperation)
    (inputs : object) (render : RenderFunc) : object * option patch_error :=
  match render (VStr (Path operation)) inputs with
  | inl err => (target, Some (ErrEvalPath err))
  | inr pathValue =>
      match pathValue with
      | VStr pathStr =>
          let rendered : E + value :=
            if String.eqb (Op operation) opRemove then inr VNil
            else render (Value operation) inputs in
          match rendered with
          | inl err => (target, Some (ErrEvalValue err))
          | inr val =>
              let op := ToLower (Op operation) in
              if bool_decide (op ∈ rfc6902_ops)
              then applyRFC6902 target op pathStr val
              else if String.eqb op "mergeshallow"
              then applyMergeShallow target pathStr val
              else (target, Some (ErrUnknownOp (Op operation)))
          end
      | _ => (target, Some (ErrPathNotString pathValue))
      end
  end.

(** *** Patch specifications *)

Definition splitAPIVersion (apiVersion : string) : string * string :=
  if String.eqb apiVersion "" then ("", "")
  else
    match IndexByte "/" apiVersion with
    | Some i => (take i apiVersion, drop (i + 1) apiVersion)
    | None => ("", apiVersion)
    end.

Definition matchesTarget (resource : object) (target : TargetSpec) : bool :=
  let kindOk :=
    if String.eqb (Kind target) "" then true
    else match resource !! "kind" with
         | Some (VStr kind) => String.eqb kind (Kind target)
         | _ => false
         end in
  let '(group, version) :=
    match resource !! "apiVersion" with
    | Some (VStr gv) => splitAPIVersion gv
    | _ => ("", "")
    end in
  let groupOk := String.eqb (Group target) "" || String.eqb group (Group target) in
  let versionOk :=
    String.eqb (Version target) "" || String.eqb version (Version target) in
  let nameOk :=
    if String.eqb (Name target) "" then true
    else match resource !! "metadata" with
         | Some (VMap metadata) =>
             match metadata !! "name" with
             | Some (VStr name) => String.eqb name (Name target)
             | _ => false
             end
         | _ => false
         end in
  kindOk && groupOk && versionOk && nameOk.

(** [FindTargetResources]: the matching resources, in order.  The Go slice
    holds references to the maps of [resources]; here it holds their
    positions.  The [selector] argument of the Go function is not used. *)
Fixpoint findTargetsFrom (i : nat) (resources : list object) (target : TargetSpec)
  : list nat :=
  match resources with
  | [] => []
  | resource :: rest =>
      if matchesTarget resource target
      then i :: findTargetsFrom (S i) rest target
      else findTargetsFrom (S i) rest target
  end.

Definition FindTargetResources (resources : list object) (target : TargetSpec)
  : list nat := findTargetsFrom 0 resources target.

(** Putting back a binding saved as [previous, had := m[key]]. *)
Definition restore (key : string) (previous : option value) (m : object) : object :=
  match previous with
  | Some p => <[key := p]> m
  | None => delete key m
  end.

Section apply_spec.

Variable spec : PatchSpec.
Variable render : RenderFunc.
Variable isMissingData : MissingDataChecker.

(** The closure [matchTarget] of [ApplySpec]; it returns the context map as
    it leaves it. *)
Definition matchTarget (where_ : string) (target : object) (baseInputs : object)
  : object * (patch_error + bool) :=
  if String.eqb where_ "" then (baseInputs, inr true)
  else
    let previous := baseInputs !! "resource" in
    let baseInputs := <["resource" := VMap target]> baseInputs in
    let result := render (VStr where_) baseInputs in
    let baseInputs := restore "resource" previous baseInputs in
    match result with
    | inl err =>
        match isMissingData with
        | Some check =>
            if check err then (baseInputs, inr false)
            else (baseInputs, inl (ErrEvalWhere err))
        | None => (baseInputs, inl (ErrEvalWhere err))
        end
    | inr (VBool boolResult) => (baseInputs, inr boolResult)
    | inr result => (baseInputs, inl (ErrWhereNotBool result))
    end.

(** [for _, op := range spec.Operations] of [executeOperations].  The context
    binds [resource] to the target map itself, so every operation is rendered
    against the target as the operations before it left it. *)
Fixpoint runOperations (ops : list JSONPatchOperation) (target : object)
    (baseInputs : object) : object * option patch_error :=
  match ops with
  | [] => (target, None)
  | op :: rest =>
      let '(target, r) :=
        ApplyOperation target op (<["resource" := VMap target]> baseInputs) render in
      match r with
      | Some err => (target, Some err)
      | None => runOperations rest target baseInputs
      end
  end.

(** The closure [executeOperations]: the target and the context map as it
    leaves them. *)
Definition executeOperations (target : object) (baseInputs : object)
  : object * object * option patch_error :=
  let previous := baseInputs !! "resource" in
  let '(target, r) := runOperations (Operations spec) target baseInputs in
  let baseInputs :=
    restore "resource" previous (<["resource" := VMap target]> baseInputs) in
  (target, baseInputs, r).

(** [for _, target := range targets], the same loop in both branches. *)
Fixpoint forTargets (targets : list nat) (resources : list object)
    (inputs : object) : list object * object * option patch_error :=
  match targets with
  | [] => (resources, inputs, None)
  | idx :: rest =>
      match resources !! idx with
      | None => forTargets rest resources inputs
      | Some target =>
          let '(inputs, matched) :=
            matchTarget (Where (Target spec)) target inputs in
          match matched with
          | inl err => (resources, inputs, Some err)
          | inr false => forTargets rest resources inputs
          | inr true =>
              let '(target, inputs, r) := executeOperations target inputs in
              let resources := <[idx := target]> resources in
              match r with
              | Some err => (resources, inputs, Some err)
              | None => forTargets rest resources inputs
              end
          end
      end
  end.

(** [for _, item := range items] of the [forEach] branch; on an error the
    variable binding is put back before returning. *)
Fixpoint forItems (varName : string) (previous : option value)
    (targets : list nat) (items : list value) (resources : list object)
    (inputs : object) : list object * object * option patch_error :=
  match items with
  | [] => (resources, restore varName previous inputs, None)
  | item :: rest =>
      let inputs := <[varName := item]> inputs in
      let '(resources, inputs, r) := forTargets targets resources inputs in
      match r with
      | Some err => (resources, restore varName previous inputs, Some err)
      | None => forItems varName previous targets rest resources inputs
      end
  end.

(** [ApplySpec]: the resources and the context map as the call leaves them,
    and the error if any. *)
Definition ApplySpec (resources : list object) (inputs : object)
  : list object * object * option patch_error :=
  let targets := FindTargetResources resources (Target spec) in
  match Operations spec with
  | [] => (resources, inputs, None)
  | _ =>
      if negb (String.eqb (ForEach spec) "") then
        match render (VStr (ForEach spec)) inputs with
        | inl err => (resources, inputs, Some (ErrEvalForEach err))
        | inr (VList items) =>
            let varName := if String.eqb (Var spec) "" then "item" else Var spec in
            let previous := inputs !! varName in
            forItems varName previous targets items resources inputs
        | inr itemsRaw => (resources, inputs, Some (ErrForEachNotArray itemsRaw))
        end
      else forTargets targets resources inputs
  end.

End apply_spec.

End engine.

End Patch.

(** ** Sample instances and inputs

    Stand-ins for the library functions the model is parameterised by, and the
    concrete inputs of the examples below. *)

Module Sample.
Import Str Patch.

Fixpoint join (sep : string) (l : list string) : string :=
  match l with
  | [] => ""
  | [x] => x
  | x :: rest => x ++ sep ++ join sep rest
  end.

Definition key_le (a b : string * string) : Prop := String.le a.1 b.1.

#[local] Instance key_le_dec : RelDecision key_le.
Proof. intros a b. unfold key_le. apply _. Defined.

(** [fmt.Sprintf] with verb [v]: strings as they are, booleans, decimal
    integers, [<nil>], slices in brackets and maps with sorted keys.  The
    shortest decimal form of a floating-point number is not computed here:
    the examples use no floats, and the stand-in prints their bit pattern. *)
Fixpoint Sprintf_v (v : value) : string :=
  match v with
  | VNil => "<nil>"
  | VBool true => "true"
  | VBool false => "false"
  | VInt z => Itoa z
  | VFloat bits => "float64bits:" ++ Itoa bits
  | VStr s => s
  | VList l => "[" ++ join " " (Sprintf_v <$> l) ++ "]"
  | VMap m =>
      "map[" ++
      join " " ((fun kv : string * string => kv.1 ++ ":" ++ kv.2)
                  <$> merge_sort key_le (map_to_list (Sprintf_v <$> m)))
      ++ "]"
  end.

(** Errors of the stand-ins are plain messages. *)
Definition err := string.

(** A JSON-Patch stand-in that refuses every operation; the examples that use
    it never reach the library. *)
Definition jsonpatch_refuse (op pointer : string) (v : option value)
    (doc : object) : err + object := inl "json-patch not available".

(** The render function of the package tests: the value as it is. *)
Definition render_id : RenderFunc err := fun v _ => inr v.

Definition str_obj (l : list (string * string)) : object :=
  list_to_map ((fun kv : string * string => (kv.1, VStr kv.2)) <$> l).

(** The resource of the test [add env entry for multiple matches]. *)
Definition two_workers : object :=
  {[ "spec" := VMap {[ "template" := VMap {[ "spec" := VMap {[
       "containers" := VList [
          VMap (<["env" := VList []]> (str_obj [("name", "app"); ("role", "worker")]));
          VMap (<["env" := VList []]> (str_obj [("name", "logger"); ("role", "worker")]))
       ] ]} ]} ]} ]}.

(** The resource of the [mergeShallow] tests. *)
Definition annotated : object :=
  {[ "spec" := VMap {[ "template" := VMap {[ "metadata" := VMap {[
       "annotations" := VMap {[
          "nested" := VMap (str_obj [("keep", "retained")]);
          "sibling" := VStr "present" ]} ]} ]} ]} ]}.

(** Scenario 4 of the specification: [{a: {x: 1, y: 2}, b: 3}] and the
    overlay [{a: {z: 3}}]. *)
Definition scenario4 : object :=
  {[ "a" := VMap {[ "x" := VInt 1; "y" := VInt 2 ]}; "b" := VInt 3 ]}.

Definition overlay4 : object := {[ "a" := VMap {[ "z" := VInt 3 ]} ]}.

(** Three parameter maps with pairwise disjoint keys, and a base and an
    override that meet at two keys. *)
Definition params_a : object := {[ "replicas" := VInt 2 ]}.
Definition params_b : object := {[ "resources" := VMap {[ "cpu" := VStr "100m" ]} ]}.
Definition params_c : object := {[ "tags" := VList [VStr "blue"] ]}.

Definition declared0 : object :=
  {[ "replicas" := VInt 2;
     "resources" := VMap {[ "cpu" := VStr "100m"; "memory" := VStr "1Gi" ]};
     "tags" := VList [VStr "blue"; VStr "green"] ]}.

Definition overrides0 : object :=
  {[ "replicas" := VInt 5;
     "resources" := VMap {[ "cpu" := VStr "500m" ]};
     "tags" := VList [VStr "red"] ]}.

(** A decoder stand-in for [json.Unmarshal] that knows three documents by
    name. *)
Definition json_sample (bytes : string) : err + object :=
  if String.eqb bytes "declared" then inr declared0
  else if String.eqb bytes "overrides" then inr overrides0
  else if String.eqb bytes "schema" then inr ∅
  else inl "invalid character".

Definition prim (ty : string) (d : option value) : Schema.Structural :=
  Schema.MkStructural ty d ∅ None.

(** A schema with a default for [logLevel] and, inside [resources], for
    [memory] and [storage]. *)
Definition schema0 : Schema.Structural :=
  Schema.MkStructural "object" None
    {[ "replicas" := prim "integer" (Some (VInt 1));
       "logLevel" := prim "string" (Some (VStr "info"));
       "resources" :=
         Schema.MkStructural "object" None
           {[ "cpu" := prim "string" None;
              "memory" := prim "string" (Some (VStr "256Mi"));
              "storage" := prim "string" (Some (VStr "1Gi")) ]} None ]}
    None.

Definition ToStructural_sample (schemas : list object) : err + Schema.Structural :=
  inr schema0.

Definition raw (name : string) : option Builder.RawExtension :=
  Some {| Builder.Raw := Some name |}.

Definition component0 : Builder.Component :=
  {| Builder.cName := "web"; Builder.cNamespace := "shop";
     Builder.cParameters := raw "declared" |}.

Definition schemaSpec0 : Builder.SchemaSpec :=
  {| Builder.schParameters := raw "schema"; Builder.schEnvOverrides := None |}.

Definition settings0 : Builder.EnvSettings :=
  {| Builder.esOverrides := raw "overrides";
     Builder.esAddonOverrides :=
       Some {[ "storage" := {[ "main" := {| Builder.Raw := Some "overrides" |} ]} ]} |}.

(** A full component input: workload, environment name and metadata given. *)
Definition component_input : Builder.ComponentContextInput :=
  {| Builder.ciComponent := Some component0;
     Builder.ciComponentTypeDefinition := Some {| Builder.ctdSchema := schemaSpec0 |};
     Builder.ciEnvSettings := Some settings0;
     Builder.ciWorkload :=
       Some {| Builder.wName := "web";
               Builder.wContainers :=
                 {[ "main" := {| Builder.Image := "web:v1";
                                 Builder.Command := []; Builder.Args := [] |} ]};
               Builder.wEndpoints := ∅; Builder.wConnections := ∅ |};
     Builder.ciEnvironment := "dev";
     Builder.ciAdditionalMetadata := {[ "name" := "web-dev" ]} |}.

(** The least component input that builds: no settings, no workload, no
    environment name, no metadata. *)
Definition bare_input : Builder.ComponentContextInput :=
  {| Builder.ciComponent := Some component0;
     Builder.ciComponentTypeDefinition := Some {| Builder.ctdSchema := schemaSpec0 |};
     Builder.ciEnvSettings := None;
     Builder.ciWorkload := None;
     Builder.ciEnvironment := "";
     Builder.ciAdditionalMetadata := ∅ |}.

Definition addon_input : Builder.AddonContextInput :=
  {| Builder.aiAddon := Some {| Builder.aName := "storage";
                                Builder.aSchema := schemaSpec0 |};
     Builder.aiInstance := {| Builder.InstanceID := "main";
                              Builder.Config := raw "declared" |};
     Builder.aiComponent := Some component0;
     Builder.aiEnvSettings := Some settings0;
     Builder.aiEnvironment := "dev";
     Builder.aiAdditionalMetadata := ∅ |}.

(** The [parameters] both sample renders end with. *)
Definition parameters0 : object :=
  {[ "replicas" := VInt 5;
     "logLevel" := VStr "info";
     "resources" := VMap {[ "cpu" := VStr "500m"; "memory" := VStr "1Gi";
                            "storage" := VStr "1Gi" ]};
     "tags" := VList [VStr "red"] ]}.

Definition component_ctx : object :=
  {[ "parameters" := VMap parameters0;
     "workload" := VMap {[ "name" := VStr "web";
                           "containers" := VMap {[ "main" := VMap {[ "image" := VStr "web:v1" ]} ]} ]};
     "component" := VMap {[ "name" := VStr "web"; "namespace" := VStr "shop" ]};
     "environment" := VStr "dev";
     "metadata" := VMap {[ "name" := VStr "web-dev" ]} ]}.

Definition addon_ctx : object :=
  {[ "parameters" := VMap parameters0;
     "addon" := VMap {[ "name" := VStr "storage"; "instanceId" := VStr "main" ]};
     "component" := VMap {[ "name" := VStr "web"; "namespace" := VStr "shop" ]};
     "environment" := VStr "dev" ]}.

(** What the bare input builds: only [parameters] and [component]. *)
Definition bare_ctx : object :=
  {[ "parameters" :=
       VMap {[ "replicas" := VInt 2;
               "logLevel" := VStr "info";
               "resources" := VMap {[ "cpu" := VStr "100m"; "memory" := VStr "1Gi";
                                      "storage" := VStr "1Gi" ]};
               "tags" := VList [VStr "blue"; VStr "green"] ]};
     "component" := VMap {[ "name" := VStr "web"; "namespace" := VStr "shop" ]} ]}.

(** A filter that no container of [two_workers] satisfies. *)
Definition nobody_path : string :=
  "/spec/template/spec/containers/[?(@.role=='nobody')]/env".

Definition merge_scalar_op : JSONPatchOperation :=
  {| Op := "mergeShallow"; Path := nobody_path; Value := VStr "enabled" |}.

Definition add_op : JSONPatchOperation :=
  {| Op := "add"; Path := nobody_path; Value := VStr "enabled" |}.


Definition annotations_pointer : string := "/spec/template/metadata/annotations".

Definition nested_overlay : object :=
  {[ "nested" := VMap (str_obj [("added", "new")]) ]}.

(** The two resources, the render function and the checker of the test
    [TestApplySpec_SkipsMissingData], without its [forEach]: the [where]
    expression fails with the missing-data error on the resource [worker]. *)
Definition named (name owner : string) : object :=
  {[ "metadata" := VMap {[ "name" := VStr name;
                           "annotations" := VMap (str_obj [("owner", owner)]) ]} ]}.

Definition api_and_worker : list object :=
  [named "api" "platform"; named "worker" "ops"].

Definition errMissing : err := "missing data".

Definition resource_name (inputs : object) : option string :=
  match inputs !! "resource" with
  | Some (VMap resource) =>
      match resource !! "metadata" with
      | Some (VMap metadata) =>
          match metadata !! "name" with
          | Some (VStr name) => Some name
          | _ => None
          end
      | _ => None
      end
  | _ => None
  end.

Definition render_by_name : RenderFunc err := fun expr inputs =>
  match expr with
  | VStr "is-api" =>
      match resource_name inputs with
      | Some "worker" => inl errMissing
      | Some name => inr (VBool (String.eqb name "api"))
      | None => inr (VBool false)
      end
  | _ => inr expr
  end.

Definition isMissing : MissingDataChecker err :=
  Some (fun e => String.eqb e errMissing).

Definition annotate_api : PatchSpec :=
  {| ForEach := ""; Var := "";
     Target := {| Kind := ""; Group := ""; Version := ""; Name := "";
                  Where := "is-api" |};
     Operations := [ {| Op := "mergeShallow"; Path := "/metadata/annotations";
                        Value := VMap (str_obj [("team", "platform")]) |} ] |}.

(** The inputs of the test [TestApplySpec_ForEachAndWhere]: two deployments,
    a patch per addon, and the render function of the test. *)
Definition deployment (name owner : string) : object :=
  {[ "apiVersion" := VStr "apps/v1";
     "kind" := VStr "Deployment";
     "metadata" := VMap {[ "name" := VStr name;
                           "annotations" := VMap (str_obj [("owner", owner)]) ]} ]}.

Definition deployments : list object :=
  [deployment "api" "platform"; deployment "worker" "ops"].

Definition addons : list value :=
  [VMap (str_obj [("name", "api"); ("key", "team"); ("value", "platform")]);
   VMap (str_obj [("name", "worker"); ("key", "team"); ("value", "ops")])].

Definition addon_field (inputs : object) (field : string) : option value :=
  match inputs !! "addon" with
  | Some (VMap addon) => addon !! field
  | _ => None
  end.

Definition render_test : RenderFunc err := fun expr inputs =>
  match expr with
  | VStr "addons" => inr (VList addons)
  | VStr "annotationValue" =>
      match addon_field inputs "key", addon_field inputs "value" with
      | Some (VStr key), Some v => inr (VMap {[ key := v ]})
      | _, _ => inl "type assertion"
      end
  | VStr "match-addon-name" =>
      match resource_name inputs, addon_field inputs "name" with
      | Some name, Some (VStr wanted) => inr (VBool (String.eqb name wanted))
      | _, _ => inr (VBool false)
      end
  | _ => inr expr
  end.

Definition per_addon : PatchSpec :=
  {| ForEach := "addons"; Var := "addon";
     Target := {| Kind := "Deployment"; Group := ""; Version := ""; Name := "";
                  Where := "match-addon-name" |};
     Operations := [ {| Op := "mergeShallow"; Path := "/metadata/annotations";
                        Value := VStr "annotationValue" |} ] |}.

Definition annotated_deployment (name owner team : string) : object :=
  {[ "apiVersion" := VStr "apps/v1";
     "kind" := VStr "Deployment";
     "metadata" := VMap {[ "name" := VStr name;
                           "annotations" :=
                             VMap (str_obj [("owner", owner); ("team", team)]) ]} ]}.

End Sample.

(** ** Auxiliary definitions of the further properties *)

Module Aux.

(** An escaped pointer segment, byte by byte: what the two [ReplaceAll] of
    [escapePointerSegment] amount to. *)
Fixpoint escaped (seg : string) : string :=
  match seg with
  | EmptyString => EmptyString
  | String c s =>
      if Ascii.eqb c "~" then String "~" (String "0" (escaped s))
      else if Ascii.eqb c "/" then String "~" (String "1" (escaped s))
      else String c (escaped s)
  end.

End Aux.

(** ** Contexts from a snapshot

    [BuildFromSnapshot] and [BuildAddonFromSnapshot] of the context package
    (builder.go). *)

Module Snapshot.
Import Builder.

(** [ComponentEnvSnapshot.Spec], the four fields the builders read.  They are
    struct values, so their addresses are never nil. *)
Record ComponentEnvSnapshot := {
  snComponent : Component;
  snComponentTypeDefinition : ComponentTypeDefinition;
  snWorkload : Workload;
  snEnvironment : string }.

Section from_snapshot.

Variable E : Type.
Variable json_Unmarshal : string -> E + object.
Variable ToStructural : list object -> E + Schema.Structural.

(** The two [fmt.Errorf] of builder.go, and the error of the builder called
    last, which is returned as it is. *)
Inductive snapshot_error :=
| ErrSnapshotNil
| ErrSnapshotAddonNil
| ErrContext (e : build_error E).

Definition lift (r : build_error E + object) : snapshot_error + object :=
  match r with
  | inl e => inl (ErrContext e)
  | inr ctx => inr ctx
  end.

Definition BuildFromSnapshot (snapshot : option ComponentEnvSnapshot)
    (settings : option EnvSettings) (additionalMetadata : gmap string string)
  : snapshot_error + object :=
  match snapshot with
  | None => inl ErrSnapshotNil
  | Some snapshot =>
      let input :=
        {| ciComponent := Some (snComponent snapshot);
           ciComponentTypeDefinition := Some (snComponentTypeDefinition snapshot);
           ciWorkload := Some (snWorkload snapshot);
           ciEnvironment := snEnvironment snapshot;
           ciEnvSettings := settings;
           ciAdditionalMetadata := additionalMetadata |} in
      lift (BuildComponentContext E json_Unmarshal ToStructural (Some input))
  end.

Definition BuildAddonFromSnapshot (snapshot : option ComponentEnvSnapshot)
    (addon : option Addon) (instance : ComponentAddon)
    (settings : option EnvSettings) (additionalMetadata : gmap string string)
  : snapshot_error + object :=
  match snapshot with
  | None => inl ErrSnapshotNil
  | Some snapshot =>
      match addon with
      | None => inl ErrSnapshotAddonNil
      | Some _ =>
          let input :=
            {| aiAddon := addon;
               aiInstance := instance;
               aiComponent := Some (snComponent snapshot);
               aiEnvironment := snEnvironment snapshot;
               aiEnvSettings := settings;
               aiAdditionalMetadata := additionalMetadata |} in
          lift (BuildAddonContext E json_Unmarshal ToStructural (Some input))
      end
  end.

(** The input of a component build with its environment settings taken
    away. *)
Definition without_settings (input : ComponentContextInput)
  : ComponentContextInput :=
  {| ciComponent := ciComponent input;
     ciComponentTypeDefinition := ciComponentTypeDefinition input;
     ciWorkload := ciWorkload input;
     ciEnvironment := ciEnvironment input;
     ciEnvSettings := None;
     ciAdditionalMetadata := ciAdditionalMetadata input |}.

End from_snapshot.

End Snapshot.

(** ** Paths with one filter

    Vocabulary for the paths of the form [/k1/.../kn/key[?(expr)]]: what
    makes a segment a plain key, the raw path of a chain of keys, and the
    elements of an array a filter selects. *)

Module Select.
Import Str Patch.

(** The first byte is a decimal digit. *)
Definition starts_digit (s : string) : Prop :=
  match s with
  | String c _ => is_Some (digit_val c)
  | EmptyString => False
  end.

(** A segment that [applySegment] takes as one key: not empty, not the
    append marker, no slash, no bracket, and not a number. *)
Definition plain (key : string) : Prop :=
  key <> ""
  /\ key <> "-"
  /\ IndexByte "/" key = None
  /\ IndexByte "[" key = None
  /\ Atoi key = None.

(** [/k1/k2/.../kn] *)
Fixpoint raw_keys (keys : list string) : string :=
  match keys with
  | [] => ""
  | key :: rest => "/" ++ key ++ raw_keys rest
  end.

(** [key[?(expr)]] *)
Definition filter_segment (key expr : string) : string :=
  key ++ "[?(" ++ expr ++ ")]".

(** [/k1/.../kn/key[?(expr)]] *)
Definition filter_path (parents : list string) (key expr : string) : string :=
  raw_keys parents ++ "/" ++ filter_segment key expr.

Section selection.

Variable E : Type.
Variable Sprintf_v : value -> string.

(** [matchesFilter] says yes. *)
Definition selects (expr : string) (item : value) : bool :=
  match matchesFilter E Sprintf_v item expr with
  | inr true => true
  | _ => false
  end.

(** The positions of the selected elements, counted from [idx]. *)
Fixpoint selected_from (idx : nat) (expr : string) (items : list value)
  : list nat :=
  match items with
  | [] => []
  | item :: rest =>
      if selects expr item then idx :: selected_from (S idx) expr rest
      else selected_from (S idx) expr rest
  end.

(** The array with the overlay merged into every selected element. *)
Definition merge_selected (expr : string) (overlay : object)
    (items : list value) : list value :=
  (fun item => if selects expr item
               then mergeShallowEntry (Some item) overlay else item) <$> items.

End selection.

End Select.

(** ** Template functions

    The custom CEL functions of the template package.  A CEL value and the Go
    value it wraps ([ref.Val], [Value()], [NativeToValue], [NewDynamicMap],
    [NewDynamicList]) are two representations of one tree; the embedding has
    one, [value].  Of the two map cases of the type switches, [map[string]any]
    and [map[ref.Val]ref.Val] with string keys, the first is modelled: the
    second copies the same entries into a [map[string]any]. *)

Module Template.
Import Str Hash.

(** [maps.Copy(dst, src)]: [for k, v := range src { dst[k] = v }]. *)
Definition maps_Copy (dst src : object) : object :=
  map_fold (fun k v dst => <[k := v]> dst) dst src.

(** [mergeMapFunction]: a value that is no map leaves its map empty. *)
Definition mergeMapFunction (lhs rhs : value) : object :=
  let baseMap : object := match lhs with VMap b => b | _ => ∅ end in
  let overrideMap : object := match rhs with VMap o => o | _ => ∅ end in
  let result : object := ∅ in
  let result := maps_Copy result baseMap in
  let result := maps_Copy result overrideMap in
  result.

(** The call expressions [mergeMacro] builds out of its arguments. *)
Inductive merge_expr :=
| Arg (v : value)
| Call (lhs rhs : merge_expr).

(** What a macro returns: an error, [nil] (the call is left as written), or
    the expression that replaces the call. *)
Inductive expansion :=
| MacroError
| NoExpansion
| Expanded (e : merge_expr).

(** [mergeMacro]: [result := oc_merge(args[0], args[1])], then
    [result = oc_merge(result, args[i])] for the other arguments. *)
Definition mergeMacro (args : list merge_expr) : expansion :=
  match args with
  | [] | [_] => MacroError
  | [_; _] => NoExpansion
  | a :: b :: rest =>
      Expanded (fold_left (fun result arg => Call result arg) rest (Call a b))
  end.

(** Evaluation of the calls: the binary overload is [mergeMapFunction]. *)
Fixpoint eval (e : merge_expr) : value :=
  match e with
  | Arg v => v
  | Call lhs rhs => VMap (mergeMapFunction (eval lhs) (eval rhs))
  end.

(** [oc_merge(args...)] as a template evaluates it: the macro runs first, and
    a call it leaves alone is the binary call.  The overload is declared on
    maps, so the arguments meant here are maps: for an argument that is no
    map the expression language finds no overload and [mergeMapFunction] is
    not reached, a failure this definition does not tell apart. *)
Definition oc_merge (args : list value) : option value :=
  match mergeMacro (Arg <$> args) with
  | MacroError => None
  | NoExpansion =>
      match args with
      | [a; b] => Some (eval (Call (Arg a) (Arg b)))
      | _ => None
      end
  | Expanded e => Some (eval e)
  end.

Section names.

(** [kubernetes.GenerateK8sNameWithLengthLimit] and
    [kubernetes.MaxResourceNameLength] belong to another package. *)
Variable GenerateK8sNameWithLengthLimit : Z -> list string -> string.
Variable MaxResourceNameLength : Z.

Definition generateK8sNameFromStrings (parts : list string) : string :=
  GenerateK8sNameWithLengthLimit MaxResourceNameLength parts.

(** [if str, ok := item.(string); ok { parts = append(parts, str) }] *)
Definition string_item (item : value) : option string :=
  match item with
  | VStr str => Some str
  | _ => None
  end.

Definition generateK8sName (arg : value) : string :=
  let parts : list string :=
    match arg with
    | VStr v => [v]
    | VList v => omap string_item v
    | _ => []
    end in
  generateK8sNameFromStrings parts.

Definition generateVolumeMountEntry (fileMap : object) : option value :=
  match fileMap !! "name", fileMap !! "mountPath" with
  | Some name, Some mountPath =>
      match name, mountPath with
      | VStr nameStr, VStr mountPathStr =>
          let fullPath := mountPathStr ++ "/" ++ nameStr in
          let volumeName := "file-mount-" ++ generateHashString fullPath in
          Some (VMap {[ "name" := VStr volumeName;
                        "mountPath" := VStr fullPath;
                        "subPath" := VStr nameStr ]})
      | _, _ => None
      end
  | _, _ => None
  end.

Definition generateConfigMapVolumeEntry (fileMap : object)
    (metadataName : string) : option value :=
  match fileMap !! "name", fileMap !! "mountPath" with
  | Some name, Some mountPath =>
      match name, mountPath with
      | VStr nameStr, VStr mountPathStr =>
          let fullPath := mountPathStr ++ "/" ++ nameStr in
          let volumeName := "file-mount-" ++ generateHashString fullPath in
          let configMapName :=
            generateK8sNameFromStrings [metadataName; "config"; nameStr] in
          let configMapNameStr := ReplaceAll1 "." "-" configMapName in
          Some (VMap {[ "name" := VStr volumeName;
                        "configMap" := VMap {[ "name" := VStr configMapNameStr ]} ]})
      | _, _ => None
      end
  | _, _ => None
  end.

Definition generateSecretVolumeEntry (fileMap : object)
    (metadataName : string) : option value :=
  match fileMap !! "name", fileMap !! "mountPath" with
  | Some name, Some mountPath =>
      match name, mountPath with
      | VStr nameStr, VStr mountPathStr =>
          let fullPath := mountPathStr ++ "/" ++ nameStr in
          let volumeName := "file-mount-" ++ generateHashString fullPath in
          let secretName :=
            generateK8sNameFromStrings [metadataName; "secret"; nameStr] in
          let secretNameStr := ReplaceAll1 "." "-" secretName in
          Some (VMap {[ "name" := VStr volumeName;
                        "secret" := VMap {[ "secretName" := VStr secretNameStr ]} ]})
      | _, _ => None
      end
  | _, _ => None
  end.

(** The loop over [containerConfigs[section]["files"]] shared by the two
    list functions: every element that is a map is handed to [entry], and
    the entries that are not nil are kept. *)
Definition fileEntries (containerConfigs : object) (section : string)
    (entry : object -> option value) : list value :=
  match containerConfigs !! section with
  | Some (VMap sectionMap) =>
      match sectionMap !! "files" with
      | Some (VList filesList) =>
          omap (fun fileAny => match fileAny with
                               | VMap fileMap => entry fileMap
                               | _ => None
                               end) filesList
      | _ => []
      end
  | _ => []
  end.

Definition generateVolumeMountsForContainer (containerConfigsVal : value)
  : list value :=
  match containerConfigsVal with
  | VMap containerConfigs =>
      (fileEntries containerConfigs "configs" generateVolumeMountEntry
       ++ fileEntries containerConfigs "secrets" generateVolumeMountEntry)%list
  | _ => []
  end.

Definition generateVolumesForContainer (containerConfigsVal : value)
    (metadataName : string) : list value :=
  match containerConfigsVal with
  | VMap containerConfigs =>
      (fileEntries containerConfigs "configs"
         (fun fileMap => generateConfigMapVolumeEntry fileMap metadataName)
       ++ fileEntries containerConfigs "secrets"
            (fun fileMap => generateSecretVolumeEntry fileMap metadataName))%list
  | _ => []
  end.

(** The [name] of an entry. *)
Definition entry_name (entry : value) : option value :=
  match entry with
  | VMap m => m !! "name"
  | _ => None
  end.

End names.

(** The list [containerConfigs[section]["files"]], empty when there is
    none. *)
Definition section_files (containerConfigsVal : value) (section : string)
  : list value :=
  match containerConfigsVal with
  | VMap containerConfigs =>
      match containerConfigs !! section with
      | Some (VMap sectionMap) =>
          match sectionMap !! "files" with
          | Some (VList filesList) => filesList
          | _ => []
          end
      | _ => []
      end
  | _ => []
  end.

(** The full path [mountPath/name] of a file entry that is a map with both
    fields as strings. *)
Definition file_path (fileAny : value) : option string :=
  match fileAny with
  | VMap fileMap =>
      match fileMap !! "name", fileMap !! "mountPath" with
      | Some (VStr nameStr), Some (VStr mountPathStr) =>
          Some (mountPathStr ++ "/" ++ nameStr)
      | _, _ => None
      end
  | _ => None
  end.

(** The volume name of a full path. *)
Definition volume_name (fullPath : string) : option value :=
  Some (VStr ("file-mount-" ++ oc_hash fullPath)).

End Template.

(** ** Further sample inputs *)

Module Cases.
Import Str Patch Builder Snapshot Sample.

(** Paths and pointers into [two_workers]. *)
Definition first_name : string := "/spec/template/spec/containers/0/name".
Definition first_env_append : string := "/spec/template/spec/containers/0/env/-".
Definition to_containers : list string := ["spec"; "template"; "spec"].
Definition role_worker : string := "@.role=='worker'".

(** The containers of [two_workers]. *)
Definition workers : list value :=
  [ VMap (<["env" := VList []]> (str_obj [("name", "app"); ("role", "worker")]));
    VMap (<["env" := VList []]> (str_obj [("name", "logger"); ("role", "worker")])) ].

Definition tier : object := {[ "tier" := VStr "backend" ]}.

(** What [add] at [/a/b/c] leaves of the empty document before the patch
    library runs. *)
Definition a_b : object := {[ "a" := VMap {[ "b" := VMap ∅ ]} ]}.

(** The snapshot of the sample component, and settings without overrides. *)
Definition snapshot0 : ComponentEnvSnapshot :=
  {| snComponent := component0;
     snComponentTypeDefinition := {| ctdSchema := schemaSpec0 |};
     snWorkload := {| wName := ""; wContainers := ∅;
                      wEndpoints := ∅; wConnections := ∅ |};
     snEnvironment := "dev" |}.

(** A render function for which every [where] is false. *)
Definition render_never : RenderFunc err := fun _ _ => inr (VBool false).

Definition no_overrides : EnvSettings :=
  {| esOverrides := None; esAddonOverrides := None |}.

Definition quiet_input : ComponentContextInput :=
  {| ciComponent := Some component0;
     ciComponentTypeDefinition := Some {| ctdSchema := schemaSpec0 |};
     ciEnvSettings := Some no_overrides;
     ciWorkload := None;
     ciEnvironment := "dev";
     ciAdditionalMetadata := ∅ |}.


(** Settings whose overrides hold a slice of zero bytes that is not nil, and
    the input [quiet_input] with them. *)
Definition zero_bytes : EnvSettings :=
  {| esOverrides := Some {| Raw := Some "" |}; esAddonOverrides := None |}.

Definition zero_bytes_input : ComponentContextInput :=
  {| ciComponent := Some component0;
     ciComponentTypeDefinition := Some {| ctdSchema := schemaSpec0 |};
     ciEnvSettings := Some zero_bytes;
     ciWorkload := None;
     ciEnvironment := "dev";
     ciAdditionalMetadata := ∅ |}.

End Cases.

(** * Proofs *)

(** ** Induction over value trees *)

Section value_induction.

Lemma value_size_lookup (m : object) k v :
  m !! k = Some v -> (value_size v < value_size (VMap m))%nat.
Proof.
  simpl. revert k v.
  apply (map_fold_weak_ind
           (fun (n : nat) (m : object) =>
              forall k v, m !! k = Some v -> (value_size v < S n)%nat)).
  - intros k v Hk. by rewrite lookup_empty in Hk.
  - intros i x m' r Hi IH k v Hk.
    destruct (decide (i = k)) as [->|Hne].
    + rewrite lookup_insert_eq in Hk. injection Hk as ->. lia.
    + rewrite lookup_insert_ne in Hk by done.
      specialize (IH _ _ Hk). lia.
Qed.

Lemma value_size_elem (l : list value) v :
  v ∈ l -> (value_size v < value_size (VList l))%nat.
Proof.
  induction l as [|x l IH]; intros Hv.
  - by apply elem_of_nil in Hv.
  - apply elem_of_cons in Hv as [->|Hv]; simpl in *; [lia|].
    specialize (IH Hv). lia.
Qed.

Variable P : value -> Prop.
Hypothesis Hnil : P VNil.
Hypothesis Hbool : forall b, P (VBool b).
Hypothesis Hint : forall z, P (VInt z).
Hypothesis Hfloat : forall f, P (VFloat f).
Hypothesis Hstr : forall s, P (VStr s).
Hypothesis Hlist : forall l, Forall P l -> P (VList l).
Hypothesis Hmap : forall m, map_Forall (fun _ v => P v) m -> P (VMap m).

Lemma value_tree_ind : forall v, P v.
Proof.
  intros v. remember (value_size v) as n eqn:Hn.
  revert v Hn. induction n as [n IH] using lt_wf_ind. intros v ->.
  destruct v; auto.
  - apply Hlist. apply List.Forall_forall. intros x Hx.
    apply (IH (value_size x)); [|reflexivity].
    apply value_size_elem. by apply list_elem_of_In.
  - apply Hmap. intros k x Hk.
    apply (IH (value_size x)); [|reflexivity]. by eapply value_size_lookup.
Qed.

End value_induction.

(** ** Deep copy and deep merge *)

Section deep_merge.
Import Ctx.

(** Trees are compared structurally, so a deep copy is the tree itself. *)
Lemma deepCopyValue_id v : deepCopyValue v = v.
Proof.
  induction v as [| | | | |l IH|m IH] using value_tree_ind; simpl; try done.
  - f_equal. rewrite <- (list_fmap_id l) at 2.
    apply Forall_fmap_ext. exact IH.
  - f_equal. rewrite <- (map_fmap_id m) at 2.
    apply map_fmap_ext. intros k x Hk. exact (IH k x Hk).
Qed.

Lemma deepMerge_lookup base override k :
  deepMerge base override !! k = merge_at (base !! k) (override !! k).
Proof.
  unfold deepMerge. simpl. revert k.
  apply (map_fold_weak_ind
           (fun (r : object) (m : object) =>
              forall k, r !! k = merge_at (base !! k) (m !! k))).
  - intros k. rewrite lookup_fmap, lookup_empty. simpl.
    destruct (base !! k) as [x|]; simpl; [|done]. by rewrite deepCopyValue_id.
  - intros i x m r Hi IH k.
    assert (Hri : r !! i = base !! i).
    { rewrite IH, Hi. done. }
    rewrite Hri.
    destruct (decide (i = k)) as [->|Hne].
    + rewrite lookup_insert_eq. simpl.
      destruct (base !! k) as [[]|] eqn:Hb; destruct x;
        rewrite ?lookup_insert_eq, ?deepCopyValue_id; try done.
    + rewrite (lookup_insert_ne m) by done.
      destruct (base !! i) as [[]|]; destruct x;
        rewrite lookup_insert_ne by done; apply IH.
Qed.

Lemma deepMerge_as_merge base override :
  deepMerge base override = merge merge_at base override.
Proof.
  apply map_eq. intros k. rewrite deepMerge_lookup, lookup_merge.
  destruct (base !! k), (override !! k); done.
Qed.

Lemma deepMerge_empty_r base : deepMerge base ∅ = base.
Proof. apply map_eq. intros k. by rewrite deepMerge_lookup, lookup_empty. Qed.

Lemma deepMerge_empty_l override : deepMerge ∅ override = override.
Proof.
  apply map_eq. intros k. rewrite deepMerge_lookup, lookup_empty.
  by destruct (override !! k) as [[]|].
Qed.

(** C7. [deepMerge] is right-biased: at a key of the override whose value is
    not a mapping, or where the base holds no mapping, the override's value
    replaces the base's (sequences and scalars are replaced, never merged);
    it recurses exactly when both sides hold a mapping; keys the override
    does not name keep the base's value.  For three maps with pairwise
    disjoint key sets it is associative. *)
Theorem deepMerge_right_biased_assoc (a b c : object) :
  (forall k v, b !! k = Some v ->
     is_map v = false \/ (forall bm, a !! k <> Some (VMap bm)) ->
     deepMerge a b !! k = Some v)
  /\ (forall k bm om, a !! k = Some (VMap bm) -> b !! k = Some (VMap om) ->
        deepMerge a b !! k = Some (VMap (deepMerge bm om)))
  /\ (forall k, b !! k = None -> deepMerge a b !! k = a !! k)
  /\ (dom a ## dom b -> dom b ## dom c -> dom a ## dom c ->
      deepMerge (deepMerge a b) c = deepMerge a (deepMerge b c)).
Proof.
  repeat split.
  - intros k v Hb Hcase. rewrite deepMerge_lookup, Hb. simpl.
    destruct Hcase as [Hv|Ha].
    + destruct v; try discriminate; by destruct (a !! k) as [[]|].
    + destruct (a !! k) as [[]|] eqn:Hak; try done.
      by destruct (Ha m).
  - intros k bm om Ha Hb. by rewrite deepMerge_lookup, Ha, Hb.
  - intros k Hb. by rewrite deepMerge_lookup, Hb.
  - intros Hab Hbc Hac. apply map_eq. intros k.
    rewrite !deepMerge_lookup.
    destruct (a !! k) as [x|] eqn:Ha, (b !! k) as [y|] eqn:Hb,
             (c !! k) as [z|] eqn:Hc; simpl; try done;
      try (exfalso; apply (Hab k); apply elem_of_dom; eauto; fail);
      try (exfalso; apply (Hbc k); apply elem_of_dom; eauto; fail);
      try (exfalso; apply (Hac k); apply elem_of_dom; eauto; fail).
Qed.

End deep_merge.

(** ** Precedence of the parameter sources *)

Section precedence.
Import Ctx Schema Builder.

Lemma deepMerge_path_override base override p v :
  p <> [] -> is_map v = false ->
  lookup_path p (VMap override) = Some v ->
  lookup_path p (VMap (deepMerge base override)) = Some v.
Proof.
  revert base override. induction p as [|k p IH]; [done|].
  intros base override _ Hv. simpl. rewrite deepMerge_lookup.
  destruct (override !! k) as [y|] eqn:Ho; [|done]. simpl.
  destruct p as [|k' p].
  - simpl. intros [= ->]. destruct v; try done; by destruct (base !! k) as [[]|].
  - intros Hy. destruct y as [| | | | | |ym]; try done.
    destruct (base !! k) as [[| | | | | |xm]|]; try done.
    by apply IH.
Qed.

Lemma deepMerge_path_base base override p v :
  untouched p (VMap override) = true ->
  lookup_path p (VMap base) = Some v ->
  lookup_path p (VMap (deepMerge base override)) = Some v.
Proof.
  revert base override. induction p as [|k p IH]; [done|].
  intros base override. simpl. rewrite deepMerge_lookup.
  destruct (base !! k) as [x|] eqn:Hb; [|done].
  destruct (override !! k) as [y|] eqn:Ho; [|done]. simpl.
  destruct p as [|k' p]; [done|].
  destruct y as [| | | | | |ym]; try done.
  destruct x as [| | | | | |xm]; try done.
  by apply IH.
Qed.

Lemma applyDefaultsV_scalar s v : is_scalar v = true -> applyDefaultsV s v = v.
Proof. destruct s, v; done. Qed.

Lemma applyDefaultsV_map s m :
  applyDefaultsV s (VMap m) = VMap (ApplyDefaults m s).
Proof. unfold ApplyDefaults. by destruct s. Qed.

(** The field [k] after defaulting. *)
Lemma ApplyDefaults_lookup m s k :
  ApplyDefaults m s !! k =
    match sProperties s !! k with
    | Some prop =>
        match m !! k with
        | Some x => Some (applyDefaultsV prop x)
        | None => applyDefaultsV prop <$> sDefault prop
        end
    | None => m !! k
    end.
Proof.
  unfold ApplyDefaults. destruct s as [t d props items]. simpl. revert k.
  apply (map_fold_weak_ind
           (fun (r : object) (ps : gmap string Structural) =>
              forall k, r !! k =
                match ps !! k with
                | Some prop =>
                    match m !! k with
                    | Some x => Some (applyDefaultsV prop x)
                    | None => applyDefaultsV prop <$> sDefault prop
                    end
                | None => m !! k
                end)).
  - intros k. by rewrite lookup_empty.
  - intros i prop ps r Hi IH k.
    assert (Hri : r !! i = m !! i) by (by rewrite IH, Hi).
    rewrite Hri.
    destruct (decide (i = k)) as [->|Hne].
    + rewrite lookup_insert_eq.
      destruct (m !! k) as [x|] eqn:Hm.
      * by rewrite lookup_insert_eq.
      * destruct (sDefault prop) as [d'|]; simpl.
        -- by rewrite lookup_insert_eq.
        -- by rewrite Hri.
    + rewrite (lookup_insert_ne ps) by done.
      destruct (m !! i) as [x|].
      * rewrite lookup_insert_ne by done. apply IH.
      * destruct (sDefault prop) as [d'|];
          [rewrite lookup_insert_ne by done|]; apply IH.
Qed.

Lemma ApplyDefaults_path_scalar m s p v :
  p <> [] -> is_scalar v = true ->
  lookup_path p (VMap m) = Some v ->
  lookup_path p (VMap (ApplyDefaults m s)) = Some v.
Proof.
  revert m s. induction p as [|k p IH]; [done|].
  intros m s _ Hv. simpl. rewrite ApplyDefaults_lookup.
  destruct (m !! k) as [x|] eqn:Hm; [|done].
  destruct (sProperties s !! k) as [prop|]; [|done].
  destruct p as [|k' p].
  - simpl. intros [= ->]. by rewrite applyDefaultsV_scalar.
  - intros Hx. destruct x as [| | | | | |xm]; try done.
    rewrite applyDefaultsV_map. by apply IH.
Qed.

Lemma ApplyDefaults_path_object m s q sq fields :
  lookup_path q (VMap m) = Some (VMap fields) ->
  schema_at q s = Some sq ->
  lookup_path q (VMap (ApplyDefaults m s)) = Some (VMap (ApplyDefaults fields sq)).
Proof.
  revert m s. induction q as [|k q IH]; intros m s; simpl.
  - by intros [= ->] [= ->].
  - rewrite ApplyDefaults_lookup.
    destruct (m !! k) as [x|] eqn:Hm; [|done].
    destruct (sProperties s !! k) as [prop|]; [|done].
    intros Hx Hs.
    assert (exists xm, x = VMap xm) as [xm ->].
    { destruct q; simpl in Hx; [injection Hx as ->; eauto|].
      destruct x; try done. eauto. }
    rewrite applyDefaultsV_map. by apply IH.
Qed.

Lemma lookup_path_snoc q k v fields :
  lookup_path q v = Some (VMap fields) ->
  lookup_path (q ++ [k])%list v = fields !! k.
Proof.
  revert v. induction q as [|k' q IH]; intros v; simpl.
  - intros [= ->]. by destruct (fields !! k).
  - destruct v as [| | | | | |m]; try done.
    destruct (m !! k') as [x|]; [|done]. apply IH.
Qed.

Lemma precedence_holds declared overrides s :
  has_precedence overrides declared s
    (ApplyDefaults (deepMerge declared overrides) s).
Proof.
  repeat split.
  - intros p v Hp Hv Ho. apply ApplyDefaults_path_scalar; [done..|].
    apply deepMerge_path_override; [done| |done]. by destruct v.
  - intros p v Hv Hu Hd.
    assert (p <> []) by (by destruct p).
    apply ApplyDefaults_path_scalar; [done..|].
    by apply deepMerge_path_base.
  - intros q fields sq k prop d Hq Hk Hs Hprop Hd Hsc.
    rewrite (lookup_path_snoc _ _ _ (ApplyDefaults fields sq)).
    + rewrite ApplyDefaults_lookup, Hprop, Hk, Hd. simpl.
      by rewrite applyDefaultsV_scalar.
    + by apply ApplyDefaults_path_object.
Qed.

End precedence.

(** ** The two context builders *)

Section builders_correct.
Import Ctx Schema Builder.

Variable E : Type.
Variable json_Unmarshal : string -> E + object.
Variable ToStructural : list object -> E + Structural.

Lemma componentContextTail_parameters input component ctx :
componentContextTail input component ctx !! "parameters" = ctx !! "parameters".
Proof.
unfold componentContextTail.
destruct (ciWorkload input); repeat case_bool_decide; by simplify_map_eq.
Qed.

Lemma addonContextTail_parameters input addon component ctx :
addonContextTail input addon component ctx !! "parameters" = ctx !! "parameters".
Proof.
unfold addonContextTail. repeat case_bool_decide; by simplify_map_eq.
Qed.

(** A successful component build, step by step. *)
Lemma BuildComponentContext_inr (input : ComponentContextInput) ctx :
BuildComponentContext E json_Unmarshal ToStructural (Some input) = inr ctx ->
exists component ctd structural declared overrides,
  ciComponent input = Some component
  /\ ciComponentTypeDefinition input = Some ctd
  /\ buildStructuralSchema E json_Unmarshal ToStructural
       {| ParametersSchema := schParameters (ctdSchema ctd);
          EnvOverridesSchema := schEnvOverrides (ctdSchema ctd);
          siStructural := None |} = inr structural
  /\ extractParameters E json_Unmarshal (cParameters component) = inr declared
  /\ componentOverrides E json_Unmarshal input = inr overrides
  /\ ctx = componentContextTail input component
             (<["parameters" :=
                  VMap (ApplyDefaults (deepMerge declared overrides) structural)]> ∅).
Proof.
unfold BuildComponentContext.
destruct (ciComponent input) as [component|] eqn:Hc; [|done].
destruct (ciComponentTypeDefinition input) as [ctd|] eqn:Ht; [|done].
destruct (buildStructuralSchema _ _ _ _) as [|structural] eqn:Hs; [done|].
destruct (extractParameters _ _ (cParameters component))
  as [|declared] eqn:Hp; [done|].
intros Hctx. exists component, ctd, structural, declared.
unfold componentOverrides.
destruct (ciEnvSettings input) as [es|].
- destruct (esOverrides es) as [r|] eqn:Hr.
  + destruct (extractParameters _ _ (Some r)) as [|o]; [done|].
    exists o. repeat split; try done. by injection Hctx as <-.
  + exists ∅. repeat split; try done. rewrite deepMerge_empty_r.
    by injection Hctx as <-.
- exists ∅. repeat split; try done. rewrite deepMerge_empty_r.
  by injection Hctx as <-.
Qed.

(** A successful addon build, step by step. *)
Lemma BuildAddonContext_inr (input : AddonContextInput) ctx :
BuildAddonContext E json_Unmarshal ToStructural (Some input) = inr ctx ->
exists addon component structural declared overrides,
  aiAddon input = Some addon
  /\ aiComponent input = Some component
  /\ buildStructuralSchema E json_Unmarshal ToStructural
       {| ParametersSchema := schParameters (aSchema addon);
          EnvOverridesSchema := schEnvOverrides (aSchema addon);
          siStructural := None |} = inr structural
  /\ extractParameters E json_Unmarshal (Config (aiInstance input)) = inr declared
  /\ addonOverrides E json_Unmarshal input addon = inr overrides
  /\ ctx = addonContextTail input addon component
             (<["parameters" :=
                  VMap (ApplyDefaults (deepMerge declared overrides) structural)]> ∅).
Proof.
unfold BuildAddonContext.
destruct (aiAddon input) as [addon|] eqn:Ha; [|done].
destruct (aiComponent input) as [component|] eqn:Hc; [|done].
destruct (buildStructuralSchema _ _ _ _) as [|structural] eqn:Hs; [done|].
destruct (extractParameters _ _ (Config (aiInstance input)))
  as [|declared] eqn:Hp; [done|].
intros Hctx. exists addon, component, structural, declared.
unfold addonOverrides.
destruct (instanceOverride input addon) as [r|].
- destruct (extractParametersFromRawExtension _ _ (Some r)) as [|o]; [done|].
  exists o. repeat split; try done. by injection Hctx as <-.
- exists ∅. repeat split; try done. rewrite deepMerge_empty_r.
  by injection Hctx as <-.
Qed.

(** C1. In a component render [parameters] is the declared parameters
  deep-merged with the environment overrides (overrides on the right) and
  then defaulted, so an override wins over a declared parameter, which wins
  over a schema default; an addon render does the same with the instance
  config, the per-addon per-instance overrides and the addon's schema. *)
Theorem parameters_precedence (cin : ComponentContextInput)
  (ain : AddonContextInput) :
(forall ctx,
   BuildComponentContext E json_Unmarshal ToStructural (Some cin) = inr ctx ->
   exists component ctd structural declared overrides parameters,
     ciComponent cin = Some component
     /\ ciComponentTypeDefinition cin = Some ctd
     /\ buildStructuralSchema E json_Unmarshal ToStructural
          {| ParametersSchema := schParameters (ctdSchema ctd);
             EnvOverridesSchema := schEnvOverrides (ctdSchema ctd);
             siStructural := None |} = inr structural
     /\ extractParameters E json_Unmarshal (cParameters component) = inr declared
     /\ componentOverrides E json_Unmarshal cin = inr overrides
     /\ ctx !! "parameters" = Some (VMap parameters)
     /\ parameters = ApplyDefaults (deepMerge declared overrides) structural
     /\ has_precedence overrides declared structural parameters)
/\ (forall ctx,
   BuildAddonContext E json_Unmarshal ToStructural (Some ain) = inr ctx ->
   exists addon structural declared overrides parameters,
     aiAddon ain = Some addon
     /\ buildStructuralSchema E json_Unmarshal ToStructural
          {| ParametersSchema := schParameters (aSchema addon);
             EnvOverridesSchema := schEnvOverrides (aSchema addon);
             siStructural := None |} = inr structural
     /\ extractParameters E json_Unmarshal (Config (aiInstance ain)) = inr declared
     /\ addonOverrides E json_Unmarshal ain addon = inr overrides
     /\ ctx !! "parameters" = Some (VMap parameters)
     /\ parameters = ApplyDefaults (deepMerge declared overrides) structural
     /\ has_precedence overrides declared structural parameters).
Proof.
split; intros ctx Hctx.
- apply BuildComponentContext_inr in Hctx
    as (component & ctd & structural & declared & overrides
        & Hc & Ht & Hs & Hp & Ho & ->).
  exists component, ctd, structural, declared, overrides,
    (ApplyDefaults (deepMerge declared overrides) structural).
  split_and!; try done.
  + by rewrite componentContextTail_parameters, lookup_insert_eq.
  + apply precedence_holds.
- apply BuildAddonContext_inr in Hctx
    as (addon & component & structural & declared & overrides
        & Ha & Hc & Hs & Hp & Ho & ->).
  exists addon, structural, declared, overrides,
    (ApplyDefaults (deepMerge declared overrides) structural).
  split_and!; try done.
  + by rewrite addonContextTail_parameters, lookup_insert_eq.
  + apply precedence_holds.
Qed.

(** C8, amended. A successful [BuildComponentContext] always binds
  [parameters] and [component]; it binds [workload] exactly when a workload
  is given, [environment] exactly when the environment name is not empty,
  and [metadata] exactly when the additional metadata is not empty. *)
Theorem component_context_keys (input : ComponentContextInput) ctx :
BuildComponentContext E json_Unmarshal ToStructural (Some input) = inr ctx ->
is_Some (ctx !! "parameters")
/\ is_Some (ctx !! "component")
/\ (is_Some (ctx !! "workload") <-> is_Some (ciWorkload input))
/\ (is_Some (ctx !! "environment") <-> ciEnvironment input <> "")
/\ (is_Some (ctx !! "metadata") <-> ciAdditionalMetadata input <> ∅).
Proof.
intros Hctx.
apply BuildComponentContext_inr in Hctx
  as (component & ctd & structural & declared & overrides
      & Hc & Ht & Hs & Hp & Ho & ->).
unfold componentContextTail.
destruct (ciWorkload input); repeat case_bool_decide; simplify_map_eq;
  split_and!; try split; intros; try done; try (by eexists);
  try (by eapply is_Some_None).
Qed.

End builders_correct.

(** ** The hash function *)

Section hash.
Import Hash.

Lemma Sum32_range data : 0 <= Sum32 data < 2 ^ 32.
Proof.
  unfold Sum32.
  assert (H : forall h, 0 <= h < 2 ^ 32 -> 0 <= fold_left write_byte data h < 2 ^ 32).
  { induction data as [|c data IH]; intros h Hh; simpl; [done|].
    apply IH. unfold write_byte, wrap32. apply Z.mod_pos_bound. lia. }
  apply H. unfold offset32. lia.
Qed.

Lemma app_string_nil (t : string) : "" ++ t = t.
Proof. reflexivity. Qed.

Lemma app_string_cons c (s t : string) : String c s ++ t = String c (s ++ t).
Proof. reflexivity. Qed.

Lemma app_string_nil_r (s : string) : s ++ "" = s.
Proof.
  induction s as [|c s IH]; [done|]. by rewrite app_string_cons, IH.
Qed.

Lemma length_app_string (s t : string) :
  String.length (s ++ t) = (String.length s + String.length t)%nat.
Proof.
  induction s as [|c s IH]; [done|].
  rewrite app_string_cons. simpl. by rewrite IH.
Qed.

Lemma app_string_assoc (s t u : string) : (s ++ t) ++ u = s ++ (t ++ u).
Proof.
  induction s as [|c s IH]; [done|]. by rewrite !app_string_cons, IH.
Qed.

Lemma length_nibbles k u : String.length (nibbles k u) = k.
Proof.
  revert u. induction k as [|k IH]; intros u; simpl; [done|].
  rewrite length_app_string, IH. simpl. lia.
Qed.

Lemma length_zeros n : String.length (zeros n) = n.
Proof. induction n as [|n IH]; simpl; [done|]. by rewrite IH. Qed.

(** The loop writes the digits of [u] in front of [acc]. *)
Lemma fmt_hex_loop_nibbles fuel u acc :
  0 <= u < 16 ^ Z.of_nat fuel -> (0 < fuel)%nat ->
  exists k, (1 <= k <= fuel)%nat /\ u < 16 ^ Z.of_nat k
            /\ (k = 1%nat \/ 16 ^ (Z.of_nat k - 1) <= u)
            /\ fmt_hex_loop fuel u acc = nibbles k u ++ acc.
Proof.
  revert u acc. induction fuel as [|fuel IH]; intros u acc Hu Hf; [lia|].
  simpl. destruct (Z.ltb_spec u 16) as [Hlt|Hge].
  - exists 1%nat. split; [lia|]. split; [simpl; lia|]. split; [by left|].
    simpl. rewrite app_string_nil, app_string_cons, app_string_nil.
    by rewrite Z.mod_small by lia.
  - destruct fuel as [|fuel].
    { simpl in Hu. lia. }
    rewrite Z.shiftr_div_pow2 by lia.
    change (2 ^ 4) with 16.
    replace (Z.land u 15) with (u mod 16).
    2:{ change 15 with (Z.ones 4). rewrite Z.land_ones by lia. done. }
    destruct (IH (u / 16) (String (digit (u mod 16)) acc))
      as (k & Hk & Hlt & Hmin & ->).
    + split; [apply Z.div_pos; lia|].
      apply Z.div_lt_upper_bound; [lia|].
      replace (16 ^ Z.of_nat (S (S fuel))) with (16 * 16 ^ Z.of_nat (S fuel)) in Hu.
      * lia.
      * rewrite (Nat2Z.inj_succ (S fuel)), Z.pow_succ_r by lia. done.
    + lia.
    + pose proof (Z.mod_pos_bound u 16). pose proof (Z.div_mod u 16).
      exists (S k). split; [lia|]. split.
      * rewrite Nat2Z.inj_succ, Z.pow_succ_r by lia. lia.
      * split.
        -- right. replace (Z.of_nat (S k) - 1) with (Z.of_nat k) by lia.
           destruct Hmin as [->|Hmin]; [simpl; lia|].
           replace (Z.of_nat k) with (Z.succ (Z.of_nat k - 1)) by lia.
           rewrite Z.pow_succ_r by lia. lia.
        -- simpl. rewrite app_string_assoc. by rewrite app_string_cons, app_string_nil.
Qed.

(** Leading zeros: a number below [16^k] has only zeros above its [k] low
    digits. *)
Lemma nibbles_pad k n u :
  0 <= u < 16 ^ Z.of_nat k ->
  nibbles (n + k) u = zeros n ++ nibbles k u.
Proof.
  revert u n. induction k as [|k IH]; intros u n Hu.
  - simpl in Hu. assert (u = 0) as -> by lia. rewrite Nat.add_0_r.
    clear Hu. simpl. rewrite app_string_nil_r.
    induction n as [|n IHn]; simpl; [done|].
    change (0 / 16) with 0. change (0 mod 16) with 0. rewrite IHn.
    clear IHn. induction n as [|n IHn]; simpl; [done|].
    by rewrite app_string_cons, IHn.
  - replace (n + S k)%nat with (S (n + k)) by lia. simpl.
    rewrite IH, app_string_assoc; [done|].
    rewrite Nat2Z.inj_succ, Z.pow_succ_r in Hu by lia.
    split; [apply Z.div_pos; lia|]. apply Z.div_lt_upper_bound; lia.
Qed.

Lemma Sprintf_08x_nibbles u : 0 <= u < 2 ^ 32 -> Sprintf_08x u = nibbles 8 u.
Proof.
  intros Hu. unfold Sprintf_08x.
  destruct (fmt_hex_loop_nibbles 16 u "") as (k & Hk & Hlt & Hmin & ->);
    [lia|lia|].
  assert (Hk8 : (k <= 8)%nat).
  { destruct Hmin as [->|Hmin]; [lia|].
    destruct (decide (k <= 8)%nat) as [|Hgt]; [done|exfalso].
    assert (16 ^ 8 <= 16 ^ (Z.of_nat k - 1)) by (apply Z.pow_le_mono_r; lia).
    lia. }
  rewrite length_app_string, length_nibbles.
  change (String.length "") with 0%nat.
  rewrite Nat.add_0_r, app_string_nil_r.
  transitivity (nibbles ((8 - k) + k) u).
  - symmetry. apply nibbles_pad. lia.
  - f_equal. lia.
Qed.





(** The value of the documentation's sample input. *)
Example oc_hash_test : oc_hash "test" = "afd071e5".
Proof. vm_compute. reflexivity. Qed.

Example oc_hash_empty : oc_hash "" = "811c9dc5".
Proof. vm_compute. reflexivity. Qed.

End hash.

(** ** Path expansion: the loop of [applySegment] ends *)

Section segment_loop.
Import Str Patch.

Variable E : Type.
Variable Sprintf_v : value -> string.

Lemma length_drop n s :
  String.length (drop n s) = (String.length s - n)%nat.
Proof.
  revert s. induction n as [|n IH]; intros s; simpl.
  - lia.
  - destruct s as [|c s]; simpl; [done|]. apply IH.
Qed.

Lemma eqb_empty_length s :
  String.eqb s "" = false -> (0 < String.length s)%nat.
Proof. destruct s; simpl; [done|lia]. Qed.

Lemma IndexByte_not_prefix c s i :
  HasPrefix s (String c "") = false -> IndexByte c s = Some i -> (0 < i)%nat.
Proof.
  destruct s as [|d s]; simpl; [done|].
  unfold HasPrefix. simpl.
  destruct (Ascii.eqb_spec d c) as [->|Hne].
  - destruct (ascii_dec c c) as [_|Hcc]; [|done].
    by destruct s.
  - intros _. destruct (IndexByte c s); simpl; [|done]. intros [= <-]. lia.
Qed.

(** Every round of the loop shortens [remaining], so with as much fuel as
    [remaining] is long the loop never stops for lack of fuel: more fuel gives
    the same result. *)
Lemma applySegmentLoop_fuel fuel1 fuel2 segment current remaining :
  (String.length remaining <= fuel1)%nat ->
  (String.length remaining <= fuel2)%nat ->
  applySegmentLoop E Sprintf_v fuel1 segment current remaining
  = applySegmentLoop E Sprintf_v fuel2 segment current remaining.
Proof.
  revert fuel2 current remaining.
  induction fuel1 as [|fuel1 IH]; intros fuel2 current remaining H1 H2.
  - destruct remaining; simpl in H1; [|lia]. by destruct fuel2.
  - destruct fuel2 as [|fuel2].
    { destruct remaining; simpl in H2; [done|lia]. }
    simpl. destruct (String.eqb remaining "") eqn:Hempty; [done|].
    apply eqb_empty_length in Hempty.
    destruct (HasPrefix remaining "[") eqn:Hpre.
    + destruct (IndexByte "]" remaining) as [closeIdx|]; [|done].
      assert (Hlen : (String.length (drop (closeIdx + 1) remaining)
                      < String.length remaining)%nat)
        by (rewrite length_drop; lia).
      match goal with
      | |- match ?step with inl _ => _ | inr _ => _ end = _ =>
          destruct step as [e|next]; [done|]
      end.
      apply IH; lia.
    + destruct (IndexByte "[" remaining) as [nextBracket|] eqn:Hidx.
      * pose proof (IndexByte_not_prefix _ _ _ Hpre Hidx) as Hpos.
        assert (Hlen : (String.length (drop nextBracket remaining)
                        < String.length remaining)%nat)
          by (rewrite length_drop; lia).
        destruct (String.eqb (take nextBracket remaining) "");
          [apply IH; lia|].
        destruct (Atoi (take nextBracket remaining)) as [idx|].
        -- destruct (applyIndex E current idx) as [e|next]; [done|].
           apply IH; lia.
        -- destruct (applyKey E current (take nextBracket remaining))
             as [e|next]; [done|].
           apply IH; lia.
      * destruct (String.eqb remaining ""); [apply IH; simpl; lia|].
        destruct (Atoi remaining) as [idx|].
        -- destruct (applyIndex E current idx) as [e|next]; [done|].
           apply IH; simpl; lia.
        -- destruct (applyKey E current remaining) as [e|next]; [done|].
           apply IH; simpl; lia.
Qed.

End segment_loop.

(** ** Patch specifications: the context map *)

Section apply_spec_context.
Import Str Patch.

Variable E : Type.
Variable Sprintf_v : value -> string.
Variable jsonpatch_Apply : string -> string -> option value -> object -> E + object.
Variable spec : PatchSpec.
Variable render : RenderFunc E.
Variable isMissingData : MissingDataChecker E.

(** Saving a binding, overwriting it and putting it back is the identity. *)
Lemma restore_insert key (m : object) v :
  restore key (m !! key) (<[key := v]> m) = m.
Proof.
  unfold restore. destruct (m !! key) as [p|] eqn:Hk.
  - rewrite insert_insert_eq. by apply insert_id.
  - rewrite delete_insert_eq. by apply delete_id.
Qed.

Lemma restore_id key (m : object) : restore key (m !! key) m = m.
Proof.
  unfold restore. destruct (m !! key) as [p|] eqn:Hk.
  - by apply insert_id.
  - by apply delete_id.
Qed.

Lemma matchTarget_inputs where_ target baseInputs :
  (matchTarget E render isMissingData where_ target baseInputs).1 = baseInputs.
Proof.
  unfold matchTarget. destruct (String.eqb where_ ""); [done|].
  rewrite restore_insert.
  destruct (render _ _) as [err|[]]; try done.
  destruct isMissingData as [check|]; [|done]. by destruct (check err).
Qed.

Lemma executeOperations_inputs target baseInputs :
  (executeOperations E Sprintf_v jsonpatch_Apply spec render target baseInputs).1.2
  = baseInputs.
Proof.
  unfold executeOperations.
  destruct (runOperations _ _ _ _ _ _ _) as [target' r]. simpl.
  apply restore_insert.
Qed.

Lemma forTargets_inputs targets resources inputs :
  (forTargets E Sprintf_v jsonpatch_Apply spec render isMissingData
     targets resources inputs).1.2 = inputs.
Proof.
  revert resources. induction targets as [|idx rest IH]; intros resources;
    simpl; [done|].
  destruct (resources !! idx) as [target|]; [|apply IH].
  pose proof (matchTarget_inputs (Where (Target spec)) target inputs) as Hm.
  destruct (matchTarget _ _ _ _ _ _) as [inputs1 matched]. simpl in Hm. subst.
  destruct matched as [err|[]]; [done| |apply IH].
  pose proof (executeOperations_inputs target inputs) as He.
  destruct (executeOperations _ _ _ _ _ _ _) as [[target' inputs2] r].
  simpl in He. subst. destruct r; [done|apply IH].
Qed.

Lemma forItems_inputs varName targets items resources inputs0 inputs :
  (inputs = inputs0 \/ exists x, inputs = <[varName := x]> inputs0) ->
  (forItems E Sprintf_v jsonpatch_Apply spec render isMissingData varName
     (inputs0 !! varName) targets items resources inputs).1.2 = inputs0.
Proof.
  assert (Hrestore : forall x,
             restore varName (inputs0 !! varName) (<[varName := x]> inputs0)
             = inputs0) by (intros; apply restore_insert).
  revert resources inputs. induction items as [|item rest IH];
    intros resources inputs Hin; simpl.
  - destruct Hin as [->|[x ->]]; [apply restore_id|apply Hrestore].
  - assert (Hbound : <[varName := item]> inputs = <[varName := item]> inputs0).
    { destruct Hin as [->|[x ->]]; [done|apply insert_insert_eq]. }
    rewrite Hbound.
    pose proof (forTargets_inputs targets resources
                  (<[varName := item]> inputs0)) as Ht.
    destruct (forTargets _ _ _ _ _ _ _ _ _) as [[resources1 inputs1] r].
    simpl in Ht. subst. destruct r; simpl; [apply Hrestore|].
    apply IH. right. by exists item.
Qed.

(** C3. Whatever [ApplySpec] returns, the context map it leaves behind is the
    map it was given: the [forEach] variable and [resource] are bound as
    before the call, or absent if they were absent, after a success, after a
    failed [where] and after a failed operation. *)
Theorem ApplySpec_restores_context (resources : list object) (inputs : object) :
  (ApplySpec E Sprintf_v jsonpatch_Apply spec render isMissingData
     resources inputs).1.2 = inputs.
Proof.
  unfold ApplySpec. destruct (Operations spec) as [|op ops] eqn:Hops; [done|].
  destruct (negb (String.eqb (ForEach spec) "")).
  - destruct (render (VStr (ForEach spec)) inputs) as [err|[]]; try done.
    apply forItems_inputs. by left.
  - apply forTargets_inputs.
Qed.

End apply_spec_context.

(** ** Patch specifications: the [where] predicate *)

Section where_predicate.
Import Str Patch.

Variable E : Type.
Variable Sprintf_v : value -> string.
Variable jsonpatch_Apply : string -> string -> option value -> object -> E + object.
Variable spec : PatchSpec.
Variable render : RenderFunc E.
Variable isMissingData : MissingDataChecker E.

(** C6. A non-empty [where] is rendered with the candidate bound as
    [resource].  An error the missing-data checker accepts makes the candidate
    a non-match: the loop over the targets goes on with the next one and the
    candidate is left as it is.  Any other error, and a result that is not a
    boolean, end the loop with that error.  A boolean result decides the
    match. *)
Theorem where_missing_data_skips (idx : nat) (rest : list nat)
    (resources : list object) (target : object) (inputs : object) :
  Where (Target spec) <> "" ->
  resources !! idx = Some target ->
  let outcome := render (VStr (Where (Target spec)))
                   (<["resource" := VMap target]> inputs) in
  let loop := forTargets E Sprintf_v jsonpatch_Apply spec render isMissingData in
  (forall err, outcome = inl err -> accepts E isMissingData err = true ->
     matchTarget E render isMissingData (Where (Target spec)) target inputs
       = (inputs, inr false)
     /\ loop (idx :: rest) resources inputs = loop rest resources inputs)
  /\ (forall err, outcome = inl err -> accepts E isMissingData err = false ->
     matchTarget E render isMissingData (Where (Target spec)) target inputs
       = (inputs, inl (ErrEvalWhere E err))
     /\ loop (idx :: rest) resources inputs
          = (resources, inputs, Some (ErrEvalWhere E err)))
  /\ (forall v, outcome = inr v -> (forall b, v <> VBool b) ->
     matchTarget E render isMissingData (Where (Target spec)) target inputs
       = (inputs, inl (ErrWhereNotBool E v))
     /\ loop (idx :: rest) resources inputs
          = (resources, inputs, Some (ErrWhereNotBool E v)))
  /\ (forall b, outcome = inr (VBool b) ->
     matchTarget E render isMissingData (Where (Target spec)) target inputs
       = (inputs, inr b)).
Proof.
  intros Hw Ht outcome loop.
  assert (Hne : String.eqb (Where (Target spec)) "" = false)
    by (by apply String.eqb_neq).
  assert (Hmt : forall res,
    matchTarget E render isMissingData (Where (Target spec)) target inputs = res ->
    loop (idx :: rest) resources inputs =
      match res.2 with
      | inl err => (resources, res.1, Some err)
      | inr false => loop rest resources res.1
      | inr true =>
          let '(target', inputs', r) :=
            executeOperations E Sprintf_v jsonpatch_Apply spec render target res.1 in
          match r with
          | Some err => (<[idx := target']> resources, inputs', Some err)
          | None => loop rest (<[idx := target']> resources) inputs'
          end
      end).
  { intros res <-. unfold loop. simpl. rewrite Ht.
    by destruct (matchTarget _ _ _ _ _ _) as [inputs1 [err|[]]]. }
  assert (Hshape : forall res : unit,
    matchTarget E render isMissingData (Where (Target spec)) target inputs
    = (inputs,
       match outcome with
       | inl err => if accepts E isMissingData err then inr false
                    else inl (ErrEvalWhere E err)
       | inr (VBool b) => inr b
       | inr v => inl (ErrWhereNotBool E v)
       end)).
  { intros _. unfold matchTarget. rewrite Hne, restore_insert. fold outcome.
    destruct outcome as [err|[]]; try done.
    unfold accepts. destruct isMissingData as [check|]; [|done].
    by destruct (check err). }
  specialize (Hshape tt).
  split_and!.
  - intros err Ho Ha. rewrite Ho, Ha in Hshape. split; [done|].
    by rewrite (Hmt _ Hshape).
  - intros err Ho Ha. rewrite Ho, Ha in Hshape. split; [done|].
    by rewrite (Hmt _ Hshape).
  - intros v Ho Hv. rewrite Ho in Hshape.
    assert (Hres : matchTarget E render isMissingData (Where (Target spec))
                     target inputs = (inputs, inl (ErrWhereNotBool E v))).
    { rewrite Hshape. destruct v; try done. by destruct (Hv b). }
    split; [done|]. by rewrite (Hmt _ Hres).
  - intros b Ho. by rewrite Ho in Hshape.
Qed.

End where_predicate.

(** ** Array filters *)

Section filters.
Import Str Patch.

Variable E : Type.
Variable Sprintf_v : value -> string.

(** A walk that stops: some prefix of the field path leads to a value that is
    not a mapping, or to a mapping without the next key. *)
Lemma lookup_path_stops q k rest item x :
  lookup_path q item = Some x ->
  (is_map x = false \/ exists m, x = VMap m /\ m !! k = None) ->
  lookup_path (q ++ k :: rest)%list item = None.
Proof.
  revert item. induction q as [|k' q IH]; intros item; simpl.
  - intros [= ->] [Hx|(m & -> & Hk)].
    + by destruct x.
    + by rewrite Hk.
  - destruct item as [| | | | | |m]; try done.
    destruct (m !! k') as [y|]; [|done]. apply IH.
Qed.

(** C10. For a filter [@.field.path=='literal']: an element in which the field
    path runs into a value that is not a mapping, or into a mapping without
    the next key, does not match, and no error is raised; an element whose
    field is nil matches exactly when the literal is empty; any other field
    value matches exactly when its rendering by [Sprintf] equals the
    literal. *)
Theorem matchesFilter_field (item : value) (expr field expected : string) :
  filterExpr_FindStringSubmatch (TrimSpace expr) = Some (field, expected) ->
  (forall q k rest x,
     Split "." field = (q ++ k :: rest)%list ->
     lookup_path q item = Some x ->
     (is_map x = false \/ exists m, x = VMap m /\ m !! k = None) ->
     matchesFilter E Sprintf_v item expr = inr false)
  /\ (lookup_path (Split "." field) item = None ->
      matchesFilter E Sprintf_v item expr = inr false)
  /\ (lookup_path (Split "." field) item = Some VNil ->
      matchesFilter E Sprintf_v item expr = inr (String.eqb expected ""))
  /\ (forall current,
        lookup_path (Split "." field) item = Some current ->
        current <> VNil ->
        matchesFilter E Sprintf_v item expr
          = inr (String.eqb (Sprintf_v current) expected)).
Proof.
  intros Hre. unfold matchesFilter. rewrite Hre. split_and!.
  - intros q k rest x Hsplit Hq Hx. rewrite Hsplit.
    by rewrite (lookup_path_stops q k rest item x).
  - by intros ->.
  - by intros ->.
  - intros current -> Hc. by destruct current.
Qed.

End filters.

(** ** Patch operations *)

Section operations.
Import Str Patch.

Variable E : Type.
Variable Sprintf_v : value -> string.
Variable jsonpatch_Apply : string -> string -> option value -> object -> E + object.

(** C4, amended. When the path of an operation expands to no pointer, each of
    [add], [replace], [remove], [test], [move] and [copy] succeeds and leaves
    the target as it is, and so does [mergeShallow] when its value is a
    mapping. *)
Theorem zero_pointers_noop (target : object) (rawPath : string) (val : value) :
  expandPaths E Sprintf_v target rawPath = inr [] ->
  (forall op,
     applyRFC6902 E Sprintf_v jsonpatch_Apply target op rawPath val
     = (target, None))
  /\ (is_map val = true ->
      applyMergeShallow E Sprintf_v target rawPath val = (target, None))
  /\ (forall operation inputs (render : RenderFunc E),
        render (VStr (Path operation)) inputs = inr (VStr rawPath) ->
        (if String.eqb (Op operation) opRemove then inr VNil
         else render (Value operation) inputs) = inr val ->
        (ToLower (Op operation) ∈ rfc6902_ops
         \/ (ToLower (Op operation) = "mergeshallow" /\ is_map val = true)) ->
        ApplyOperation E Sprintf_v jsonpatch_Apply target operation inputs render
        = (target, None)).
Proof.
  intros Hexp.
  assert (Hrfc : forall op,
             applyRFC6902 E Sprintf_v jsonpatch_Apply target op rawPath val
             = (target, None)).
  { intros op. unfold applyRFC6902. by rewrite Hexp. }
  assert (Hms : is_map val = true ->
                applyMergeShallow E Sprintf_v target rawPath val = (target, None)).
  { intros Hv. unfold applyMergeShallow. destruct val; try done. by rewrite Hexp. }
  split_and!; [done..|].
  intros operation inputs render Hpath Hval Hop.
  unfold ApplyOperation. rewrite Hpath, Hval.
  destruct Hop as [Hop|[Hop Hv]].
  - rewrite bool_decide_eq_true_2 by done. apply Hrfc.
  - rewrite Hop. simpl. by apply Hms.
Qed.



End operations.

(** ** Shallow merge *)

Section merge_shallow.
Import Str Patch.

Variable E : Type.
Variable Sprintf_v : value -> string.

Lemma cloneValue_id v : cloneValue v = v.
Proof.
  induction v as [| | | | |l IH|m IH] using value_tree_ind; simpl; try done.
  - f_equal. rewrite <- (list_fmap_id l) at 2.
    apply Forall_fmap_ext. exact IH.
  - f_equal. rewrite <- (map_fmap_id m) at 2.
    apply map_fmap_ext. intros k x Hk. exact (IH k x Hk).
Qed.

Lemma deepCopyMap_id (m : object) : deepCopyMap m = m.
Proof.
  unfold deepCopyMap. rewrite <- (map_fmap_id m) at 2.
  apply map_fmap_ext. intros k x _. apply cloneValue_id.
Qed.

(** The overlay: a key of the value gets the value's entry, any other key
    keeps the target's. *)
Lemma mergeShallowInto_lookup (target overlay : object) k :
  mergeShallowInto target overlay !! k =
    match overlay !! k with
    | Some v => Some v
    | None => target !! k
    end.
Proof.
  unfold mergeShallowInto. revert k.
  apply (map_fold_weak_ind
           (fun (r : object) (o : object) =>
              forall k, r !! k = match o !! k with
                                 | Some v => Some v
                                 | None => target !! k
                                 end)).
  - intros k. by rewrite lookup_empty.
  - intros i x o r Hi IH k. rewrite cloneValue_id.
    destruct (decide (i = k)) as [->|Hne].
    + by rewrite !lookup_insert_eq.
    + rewrite !lookup_insert_ne by done. apply IH.
Qed.

(** When no parent is missing, [navigate] runs the caller's write on the
    value at the end of the parent segments and puts the result back. *)
Lemma navigate_existing create parentSegs last i todo k current parent :
  pointer_get todo current = Some parent ->
  navigate E create parentSegs last i todo k current =
    (pointer_set todo (k parent).1 current, (k parent).2).
Proof.
  revert i current. induction todo as [|seg rest IH]; intros i current; simpl.
  - intros [= ->]. by destruct (k parent).
  - destruct current as [| | | | |node|node]; try done.
    + destruct (Atoi seg) as [index|]; [|done].
      destruct ((index <? 0) || (Z.of_nat (length node) <=? index)); [done|].
      intros Hg. by rewrite (IH _ _ Hg).
    + destruct (present (node !! seg)) as [child|] eqn:Hp; [|done].
      intros Hg. rewrite (IH _ _ Hg).
      assert (Hd : default VNil (node !! seg) = child).
      { destruct (node !! seg) as [[]|]; simpl in *; congruence. }
      by rewrite Hd.
Qed.

Lemma splitPointer_snoc pointer parentSegs last :
  splitPointer pointer = (parentSegs ++ [last])%list ->
  forall root k,
    navigateToParent E root pointer true k =
      (let '(v, r) :=
         navigate E true parentSegs last 0 parentSegs (k last) (VMap root) in
       (as_object root v, r)).
Proof.
  intros Hs root k. unfold navigateToParent. rewrite Hs.
  rewrite removelast_last, last_last.
  by destruct parentSegs.
Qed.

End merge_shallow.

(** * Examples on concrete inputs *)

Section examples.
Import Str Patch Ctx Schema Builder Sample.

Example deepMerge_sample : deepMerge declared0 overrides0 =
  {[ "replicas" := VInt 5;
     "resources" := VMap {[ "cpu" := VStr "500m"; "memory" := VStr "1Gi" ]};
     "tags" := VList [VStr "red"] ]}.
Proof. vm_compute. reflexivity. Qed.

Example BuildComponentContext_sample :
  BuildComponentContext err json_sample ToStructural_sample (Some component_input)
  = inr component_ctx.
Proof. vm_compute. reflexivity. Qed.

Example BuildAddonContext_sample :
  BuildAddonContext err json_sample ToStructural_sample (Some addon_input)
  = inr addon_ctx.
Proof. vm_compute. reflexivity. Qed.

(** The package test [TestApplySpec_ForEachAndWhere]. *)
Example ApplySpec_ForEachAndWhere :
  ApplySpec err Sprintf_v jsonpatch_refuse per_addon render_test None deployments ∅
  = ([annotated_deployment "api" "platform" "platform";
      annotated_deployment "worker" "ops" "ops"], ∅, None).
Proof. vm_compute. reflexivity. Qed.

(** The package test [TestApplySpec_SkipsMissingData], without its
    [forEach]. *)
Example ApplySpec_SkipsMissingData :
  ApplySpec err Sprintf_v jsonpatch_refuse annotate_api render_by_name isMissing
    api_and_worker ∅
  = ([ {[ "metadata" := VMap {[ "name" := VStr "api";
            "annotations" := VMap (str_obj [("owner", "platform");
                                            ("team", "platform")]) ]} ]};
       named "worker" "ops" ], ∅, None).
Proof. vm_compute. reflexivity. Qed.

(** The package test [mergeShallow replaces nested maps instead of deep
    merging]. *)
Example mergeShallow_replaces_nested :
  ApplyOperation err Sprintf_v jsonpatch_refuse annotated
    {| Op := "mergeShallow"; Path := annotations_pointer;
       Value := VMap nested_overlay |} ∅ render_id
  = ({[ "spec" := VMap {[ "template" := VMap {[ "metadata" := VMap {[
           "annotations" := VMap {[
              "nested" := VMap (str_obj [("added", "new")]);
              "sibling" := VStr "present" ]} ]} ]} ]} ]}, None).
Proof. vm_compute. reflexivity. Qed.

(** The path of the test [add env entry for multiple matches] fans out to the
    two containers. *)
Example expandPaths_fans_out :
  expandPaths err Sprintf_v two_workers
    "/spec/template/spec/containers/[?(@.role=='worker')]/env/-"
  = inr ["/spec/template/spec/containers/0/env/-";
         "/spec/template/spec/containers/1/env/-"].
Proof. vm_compute. reflexivity. Qed.

(** At the empty pointer the parent returned by [navigateToParent] is the root
    and the last segment is empty: the value lands under the key [""] of the
    root, which keeps its own entries. *)
Example mergeShallow_empty_pointer :
  applyMergeShallow err Sprintf_v scenario4 "" (VMap overlay4)
  = (<["" := VMap overlay4]> scenario4, None).
Proof. vm_compute. reflexivity. Qed.

End examples.

(** * The theorems at concrete inputs *)

Section instances.
Import Str Patch Ctx Schema Builder Hash Sample.

(** A decidable closed proposition, decided by evaluation. *)
Ltac by_evaluation :=
  match goal with
  | |- ?P => apply (bool_decide_unpack P); vm_compute; exact I
  end.

Lemma deepMerge_right_biased_assoc_witness :
  (dom params_a ## dom params_b /\ dom params_b ## dom params_c
   /\ dom params_a ## dom params_c)
  /\ deepMerge (deepMerge params_a params_b) params_c
     = deepMerge params_a (deepMerge params_b params_c)
  /\ (overrides0 !! "tags" = Some (VList [VStr "red"])
      /\ deepMerge declared0 overrides0 !! "tags" = Some (VList [VStr "red"])).
Proof.
  assert (Hab : dom params_a ## dom params_b) by by_evaluation.
  assert (Hbc : dom params_b ## dom params_c) by by_evaluation.
  assert (Hac : dom params_a ## dom params_c) by by_evaluation.
  split; [done|]. split.
  - exact (proj2 (proj2 (proj2
             (deepMerge_right_biased_assoc params_a params_b params_c)))
             Hab Hbc Hac).
  - split; [reflexivity|].
    apply (proj1 (deepMerge_right_biased_assoc declared0 overrides0 ∅)
             "tags" (VList [VStr "red"])); [reflexivity|left; reflexivity].
Defined.


Lemma parameters_precedence_witness :
  (BuildComponentContext err json_sample ToStructural_sample (Some component_input)
   = inr component_ctx
   /\ exists component ctd structural declared overrides parameters,
       ciComponent component_input = Some component
       /\ ciComponentTypeDefinition component_input = Some ctd
       /\ buildStructuralSchema err json_sample ToStructural_sample
            {| ParametersSchema := schParameters (ctdSchema ctd);
               EnvOverridesSchema := schEnvOverrides (ctdSchema ctd);
               siStructural := None |} = inr structural
       /\ extractParameters err json_sample (cParameters component) = inr declared
       /\ componentOverrides err json_sample component_input = inr overrides
       /\ component_ctx !! "parameters" = Some (VMap parameters)
       /\ parameters = ApplyDefaults (deepMerge declared overrides) structural
       /\ has_precedence overrides declared structural parameters)
  /\ (BuildAddonContext err json_sample ToStructural_sample (Some addon_input)
      = inr addon_ctx
      /\ exists addon structural declared overrides parameters,
          aiAddon addon_input = Some addon
          /\ buildStructuralSchema err json_sample ToStructural_sample
               {| ParametersSchema := schParameters (aSchema addon);
                  EnvOverridesSchema := schEnvOverrides (aSchema addon);
                  siStructural := None |} = inr structural
          /\ extractParameters err json_sample (Config (aiInstance addon_input))
             = inr declared
          /\ addonOverrides err json_sample addon_input addon = inr overrides
          /\ addon_ctx !! "parameters" = Some (VMap parameters)
          /\ parameters = ApplyDefaults (deepMerge declared overrides) structural
          /\ has_precedence overrides declared structural parameters).
Proof.
  assert (Hc : BuildComponentContext err json_sample ToStructural_sample
                 (Some component_input) = inr component_ctx)
    by (vm_compute; reflexivity).
  assert (Ha : BuildAddonContext err json_sample ToStructural_sample
                 (Some addon_input) = inr addon_ctx)
    by (vm_compute; reflexivity).
  split; (split; [assumption|]).
  - exact (proj1 (parameters_precedence err json_sample ToStructural_sample
                    component_input addon_input) component_ctx Hc).
  - exact (proj2 (parameters_precedence err json_sample ToStructural_sample
                    component_input addon_input) addon_ctx Ha).
Defined.

Lemma component_context_keys_counterexample :
  BuildComponentContext err json_sample ToStructural_sample (Some bare_input)
  = inr bare_ctx
  /\ bare_ctx !! "workload" = None
  /\ bare_ctx !! "environment" = None
  /\ bare_ctx !! "metadata" = None.
Proof. split_and!; vm_compute; reflexivity. Qed.

Lemma component_context_keys_witness :
  BuildComponentContext err json_sample ToStructural_sample (Some component_input)
  = inr component_ctx
  /\ (is_Some (component_ctx !! "parameters")
      /\ is_Some (component_ctx !! "component")
      /\ (is_Some (component_ctx !! "workload")
          <-> is_Some (ciWorkload component_input))
      /\ (is_Some (component_ctx !! "environment")
          <-> ciEnvironment component_input <> "")
      /\ (is_Some (component_ctx !! "metadata")
          <-> ciAdditionalMetadata component_input <> ∅)).
Proof.
  assert (Hc : BuildComponentContext err json_sample ToStructural_sample
                 (Some component_input) = inr component_ctx)
    by (vm_compute; reflexivity).
  split; [assumption|].
  exact (component_context_keys err json_sample ToStructural_sample
           component_input component_ctx Hc).
Defined.

Lemma zero_pointers_mergeShallow_scalar :
  expandPaths err Sprintf_v two_workers nobody_path = inr []
  /\ ApplyOperation err Sprintf_v jsonpatch_refuse two_workers merge_scalar_op
       ∅ render_id
     = (two_workers, Some (ErrMergeValueNotObject err)).
Proof. split; vm_compute; reflexivity. Qed.

Lemma zero_pointers_noop_witness :
  expandPaths err Sprintf_v two_workers nobody_path = inr []
  /\ ApplyOperation err Sprintf_v jsonpatch_refuse two_workers add_op ∅ render_id
     = (two_workers, None)
  /\ applyMergeShallow err Sprintf_v two_workers nobody_path (VMap overlay4)
     = (two_workers, None).
Proof.
  assert (Hexp : expandPaths err Sprintf_v two_workers nobody_path = inr [])
    by (vm_compute; reflexivity).
  split; [assumption|].
  pose proof (zero_pointers_noop err Sprintf_v jsonpatch_refuse two_workers
                nobody_path (VStr "enabled") Hexp) as (_ & _ & Hop).
  pose proof (zero_pointers_noop err Sprintf_v jsonpatch_refuse two_workers
                nobody_path (VMap overlay4) Hexp) as (_ & Hms & _).
  split.
  - apply Hop; [reflexivity|reflexivity|left; by_evaluation].
  - apply Hms. reflexivity.
Defined.

Lemma where_missing_data_skips_witness :
  Where (Target annotate_api) <> ""
  /\ api_and_worker !! 1%nat = Some (named "worker" "ops")
  /\ matchTarget err render_by_name isMissing (Where (Target annotate_api))
       (named "worker" "ops") ∅ = (∅, inr false)
  /\ forTargets err Sprintf_v jsonpatch_refuse annotate_api render_by_name isMissing
       [1%nat] api_and_worker ∅
     = (api_and_worker, ∅, None).
Proof.
  assert (Hw : Where (Target annotate_api) <> "") by by_evaluation.
  assert (Ht : api_and_worker !! 1%nat = Some (named "worker" "ops"))
    by reflexivity.
  split; [assumption|]. split; [assumption|].
  pose proof (where_missing_data_skips err Sprintf_v jsonpatch_refuse annotate_api
                render_by_name isMissing 1%nat [] api_and_worker
                (named "worker" "ops") ∅ Hw Ht) as (Hskip & _).
  destruct (Hskip errMissing) as [Hm Hloop];
    [vm_compute; reflexivity|reflexivity|].
  split; [exact Hm|]. rewrite Hloop. reflexivity.
Defined.

Lemma matchesFilter_field_witness :
  filterExpr_FindStringSubmatch (TrimSpace "@.role=='worker'")
  = Some ("role", "worker")
  /\ matchesFilter err Sprintf_v (VMap (str_obj [("name", "app"); ("role", "worker")]))
       "@.role=='worker'" = inr true
  /\ matchesFilter err Sprintf_v (VMap (str_obj [("name", "app")]))
       "@.role=='worker'" = inr false.
Proof.
  assert (Hre : filterExpr_FindStringSubmatch (TrimSpace "@.role=='worker'")
                = Some ("role", "worker")) by (vm_compute; reflexivity).
  split; [assumption|].
  pose proof (matchesFilter_field err Sprintf_v
                (VMap (str_obj [("name", "app"); ("role", "worker")]))
                _ _ _ Hre) as (_ & _ & _ & Hval).
  pose proof (matchesFilter_field err Sprintf_v
                (VMap (str_obj [("name", "app")]))
                _ _ _ Hre) as (_ & Hnone & _).
  split.
  - rewrite (Hval (VStr "worker")); [reflexivity|vm_compute; reflexivity|done].
  - apply Hnone. vm_compute. reflexivity.
Defined.

End instances.

(** * Further properties of the patch package *)

(** ** JSON Pointer segments *)

Section pointer_roundtrip.
Import Str Patch Aux.

Lemma ReplaceAll2_other a b new c t :
  c <> a -> ReplaceAll2 a b new (String c t) = String c (ReplaceAll2 a b new t).
Proof.
  intros Hc. destruct t as [|d t]; simpl; [done|].
  destruct (Ascii.eqb_spec c a); [done|]. done.
Qed.

Lemma ReplaceAll2_hit a b new t :
  ReplaceAll2 a b new (String a (String b t)) = new ++ ReplaceAll2 a b new t.
Proof. simpl. by rewrite !Ascii.eqb_refl. Qed.

Lemma ReplaceAll2_miss a b new d t :
  d <> b ->
  ReplaceAll2 a b new (String a (String d t))
  = String a (ReplaceAll2 a b new (String d t)).
Proof.
  intros Hd. cbn [ReplaceAll2].
  destruct (Ascii.eqb_spec d b); [done|]. by rewrite andb_false_r.
Qed.

Lemma escapePointerSegment_escaped seg : escapePointerSegment seg = escaped seg.
Proof.
  unfold escapePointerSegment. induction seg as [|c s IH]; [done|].
  cbn [ReplaceAll1 escaped].
  destruct (Ascii.eqb_spec c "~") as [->|Hc].
  - rewrite !app_string_cons, app_string_nil. cbn [ReplaceAll1].
    change (Ascii.eqb "~" "/") with false. change (Ascii.eqb "0" "/") with false.
    cbv iota. by rewrite IH.
  - cbn [ReplaceAll1]. destruct (Ascii.eqb_spec c "/") as [->|Hs].
    + by rewrite !app_string_cons, app_string_nil, IH.
    + by rewrite IH.
Qed.

Lemma unescape_escaped seg : unescapePointerSegment (escaped seg) = seg.
Proof.
  unfold unescapePointerSegment. induction seg as [|c s IH]; [done|].
  cbn [escaped].
  destruct (Ascii.eqb_spec c "~") as [->|Hc].
  - rewrite (ReplaceAll2_miss "~" "1") by done.
    rewrite (ReplaceAll2_other "~" "1" _ "0") by done.
    rewrite ReplaceAll2_hit, app_string_cons, app_string_nil. by rewrite IH.
  - destruct (Ascii.eqb_spec c "/") as [->|Hs].
    + rewrite ReplaceAll2_hit, app_string_cons, app_string_nil.
      rewrite ReplaceAll2_other by done. by rewrite IH.
    + rewrite !ReplaceAll2_other by done. by rewrite IH.
Qed.

(** X1. Unescaping an escaped pointer segment gives the segment back, for
    every byte string: [~] and [/] survive the trip through [~0] and [~1]. *)
Theorem unescape_escape_segment (seg : string) :
  unescapePointerSegment (escapePointerSegment seg) = seg.
Proof. rewrite escapePointerSegment_escaped. apply unescape_escaped. Qed.

Lemma escaped_no_slash seg : IndexByte "/" (escaped seg) = None.
Proof.
  induction seg as [|c s IH]; [done|]. cbn [escaped].
  destruct (Ascii.eqb_spec c "~") as [->|Hc].
  - cbn [IndexByte]. change (Ascii.eqb "~" "/") with false.
    change (Ascii.eqb "0" "/") with false. cbv iota. by rewrite IH.
  - destruct (Ascii.eqb_spec c "/") as [->|Hs].
    + cbn [IndexByte]. change (Ascii.eqb "~" "/") with false.
      change (Ascii.eqb "1" "/") with false. cbv iota. by rewrite IH.
    + cbn [IndexByte]. destruct (Ascii.eqb_spec c "/"); [done|]. by rewrite IH.
Qed.

(** [Split] on a string without the separator, and on one that has it after
    such a prefix. *)
Lemma Split_no_sep sep s : IndexByte sep s = None -> Split sep s = [s].
Proof.
  induction s as [|c s IH]; [done|]. cbn [IndexByte Split].
  destruct (Ascii.eqb c sep); [done|].
  destruct (IndexByte sep s); [done|]. intros _. by rewrite IH.
Qed.

Lemma Split_app_sep sep s t :
  IndexByte sep s = None ->
  Split sep (s ++ String sep t) = s :: Split sep t.
Proof.
  induction s as [|c s IH].
  - intros _. rewrite app_string_nil. cbn [Split]. by rewrite Ascii.eqb_refl.
  - cbn [IndexByte]. rewrite app_string_cons. cbn [Split].
    destruct (Ascii.eqb c sep); [done|].
    destruct (IndexByte sep s); [done|]. intros _. by rewrite IH.
Qed.

(** How a segment is written by [buildJSONPointer] and read by
    [splitPointer]. *)
Lemma written_segment seg :
  (if String.eqb seg "-" then seg else escapePointerSegment seg) = escaped seg.
Proof.
  destruct (String.eqb_spec seg "-") as [->|_]; [done|].
  apply escapePointerSegment_escaped.
Qed.

Lemma read_segment part :
  (if String.eqb part "-" then part else unescapePointerSegment part)
  = unescapePointerSegment part.
Proof. by destruct (String.eqb_spec part "-") as [->|_]. Qed.

Lemma writeSegments_cons seg rest :
  writeSegments (seg :: rest) = String "/" (escaped seg ++ writeSegments rest).
Proof.
  cbn [writeSegments]. rewrite written_segment.
  by rewrite app_string_cons, app_string_nil.
Qed.

Lemma Split_written seg rest :
  Split "/" (escaped seg ++ writeSegments rest) = escaped seg :: (escaped <$> rest).
Proof.
  revert seg. induction rest as [|seg' rest IH]; intros seg.
  - cbn [writeSegments]. rewrite app_string_nil_r.
    apply Split_no_sep, escaped_no_slash.
  - rewrite writeSegments_cons, Split_app_sep by apply escaped_no_slash.
    by rewrite IH.
Qed.

Lemma escaped_empty seg : escaped seg = "" -> seg = "".
Proof.
  destruct seg as [|c s]; [done|]. cbn [escaped].
  by destruct (Ascii.eqb c "~"), (Ascii.eqb c "/").
Qed.

Lemma splitPointer_written (segments : list string) :
  splitPointer (buildJSONPointer segments) = segments.
Proof.
  destruct segments as [|seg rest]; [done|].
  unfold buildJSONPointer, splitPointer. rewrite writeSegments_cons.
  change (String.eqb (String "/" _) "") with false. cbv iota.
  assert (Htrim : TrimPrefix (String "/" (escaped seg ++ writeSegments rest)) "/"
                  = escaped seg ++ writeSegments rest).
  { unfold TrimPrefix, HasPrefix. simpl.
    by destruct (escaped seg ++ writeSegments rest). }
  rewrite Htrim.
  assert (Hread : (fun part => if String.eqb part "-" then part
                               else unescapePointerSegment part)
                    <$> (escaped seg :: (escaped <$> rest)) = seg :: rest).
  { rewrite fmap_cons, read_segment, unescape_escaped. f_equal.
    rewrite <- list_fmap_compose. rewrite <- (list_fmap_id rest) at 2.
    apply list_fmap_ext. intros _ x _. simpl.
    by rewrite read_segment, unescape_escaped. }
  destruct (String.eqb_spec (escaped seg ++ writeSegments rest) "") as [He|_].
  - destruct rest as [|seg' rest].
    + cbn [writeSegments] in He. rewrite app_string_nil_r in He.
      by rewrite (escaped_empty _ He).
    + rewrite writeSegments_cons in He.
      destruct (escaped seg); discriminate He.
  - by rewrite Split_written.
Qed.

(** X2. Splitting the pointer built from a list of segments gives the list
    back, whatever bytes the segments hold: [buildJSONPointer] and
    [splitPointer] are inverse on segment lists. *)
Theorem splitPointer_buildJSONPointer (segments : list string) :
  splitPointer (buildJSONPointer segments) = segments.
Proof. apply splitPointer_written. Qed.

End pointer_roundtrip.

(** ** Path expansion without filters *)

Section plain_paths.
Import Str Patch.

Variable E : Type.
Variable Sprintf_v : value -> string.

Lemma applyKeyStates_length key states next :
  applyKeyStates E key states = inr next -> length next = length states.
Proof.
  revert next. induction states as [|st rest IH]; intros next; simpl.
  - by intros [= <-].
  - destruct (psValue st); try done;
      destruct (applyKeyStates E key rest) as [|next'];
      try done; intros [= <-]; simpl; f_equal; by apply IH.
Qed.

Lemma applyKey_length key states next :
  applyKey E states key = inr next -> length next = length states.
Proof.
  unfold applyKey. destruct (String.eqb key "").
  - by intros [= <-].
  - apply applyKeyStates_length.
Qed.

Lemma applyIndex_length index states next :
  applyIndex E states index = inr next -> length next = length states.
Proof.
  revert next. induction states as [|st rest IH]; intros next; simpl.
  - by intros [= <-].
  - destruct (psValue st) as [| | | | |arr|]; try done.
    destruct ((index <? 0) || (Z.of_nat (length arr) <=? index)); [done|].
    destruct (applyIndex E rest index) as [|next']; [done|].
    intros [= <-]. simpl. f_equal. by apply IH.
Qed.

Lemma applyDash_length states : length (applyDash states) = length states.
Proof. unfold applyDash. apply length_fmap. Qed.

Lemma IndexByte_drop c n s :
  IndexByte c s = None -> IndexByte c (drop n s) = None.
Proof.
  revert s. induction n as [|n IH]; intros s; [done|].
  destruct s as [|d s]; [done|]. cbn [IndexByte drop].
  destruct (Ascii.eqb d c); [done|].
  destruct (IndexByte c s) eqn:Hs; [done|]. intros _. by apply IH.
Qed.

Lemma IndexByte_take c n s :
  IndexByte c s = None -> IndexByte c (take n s) = None.
Proof.
  revert s. induction n as [|n IH]; intros s; [by destruct s|].
  destruct s as [|d s]; [done|]. cbn [IndexByte take].
  destruct (Ascii.eqb d c); [done|].
  destruct (IndexByte c s) eqn:Hs; [done|]. intros _. by rewrite IH.
Qed.

Lemma HasPrefix_IndexByte c t s :
  IndexByte c s = None -> HasPrefix s (String c t) = false.
Proof.
  unfold HasPrefix. destruct s as [|d s]; [done|]. simpl.
  destruct (Ascii.eqb_spec d c) as [->|Hne]; [done|]. intros _.
  destruct (ascii_dec c d) as [->|_]; done.
Qed.

(** Without a filter a round of the loop keeps the number of states. *)
Lemma applySegmentLoop_length fuel segment current remaining next :
  IndexByte "?" remaining = None ->
  applySegmentLoop E Sprintf_v fuel segment current remaining = inr next ->
  length next = length current.
Proof.
  revert current remaining.
  induction fuel as [|fuel IH]; intros current remaining Hq; simpl.
  - by intros [= <-].
  - destruct (String.eqb remaining ""); [by intros [= <-]|].
    destruct (HasPrefix remaining "[").
    + destruct (IndexByte "]" remaining) as [closeIdx|]; [|done].
      assert (Hc : HasPrefix (slice 1 closeIdx remaining) "?(" = false).
      { apply HasPrefix_IndexByte. unfold slice.
        by apply IndexByte_take, IndexByte_drop. }
      rewrite Hc. simpl.
      destruct (String.eqb (slice 1 closeIdx remaining) "-").
      * intros Hn. rewrite (IH _ _ (IndexByte_drop _ _ _ Hq) Hn).
        apply applyDash_length.
      * destruct (Atoi (slice 1 closeIdx remaining)) as [index|]; [|done].
        destruct (applyIndex E current index) as [|mid] eqn:Hi; [done|].
        intros Hn. rewrite (IH _ _ (IndexByte_drop _ _ _ Hq) Hn).
        by eapply applyIndex_length.
    + destruct (IndexByte "[" remaining) as [nextBracket|].
      * destruct (String.eqb (take nextBracket remaining) "").
        { intros Hn. apply (IH _ _ (IndexByte_drop _ _ _ Hq) Hn). }
        destruct (Atoi (take nextBracket remaining)) as [idx|].
        -- destruct (applyIndex E current idx) as [|mid] eqn:Hi; [done|].
           intros Hn. rewrite (IH _ _ (IndexByte_drop _ _ _ Hq) Hn).
           by eapply applyIndex_length.
        -- destruct (applyKey E current (take nextBracket remaining))
             as [|mid] eqn:Hk; [done|].
           intros Hn. rewrite (IH _ _ (IndexByte_drop _ _ _ Hq) Hn).
           by eapply applyKey_length.
      * destruct (String.eqb remaining "").
        { intros Hn. by apply (IH _ "" eq_refl Hn). }
        destruct (Atoi remaining) as [idx|].
        -- destruct (applyIndex E current idx) as [|mid] eqn:Hi; [done|].
           intros Hn. rewrite (IH _ "" eq_refl Hn).
           by eapply applyIndex_length.
        -- destruct (applyKey E current remaining) as [|mid] eqn:Hk; [done|].
           intros Hn. rewrite (IH _ "" eq_refl Hn).
           by eapply applyKey_length.
Qed.

Lemma expandStates_length segment states next :
  IndexByte "?" segment = None ->
  expandStates E Sprintf_v segment states = inr next ->
  length next = length states.
Proof.
  intros Hq. revert next. induction states as [|st rest IH]; intros next; simpl.
  - by intros [= <-].
  - destruct (applySegment E Sprintf_v st segment) as [|expanded] eqn:Hs; [done|].
    destruct (expandStates E Sprintf_v segment rest) as [|next']; [done|].
    intros [= <-]. rewrite length_app, (IH next') by done.
    unfold applySegment in Hs.
    by rewrite (applySegmentLoop_length _ _ _ _ _ Hq Hs).
Qed.

Lemma expandSegments_length segments states next :
  Forall (fun segment => IndexByte "?" segment = None) segments ->
  expandSegments E Sprintf_v segments states = inr next ->
  length next = length states.
Proof.
  intros Hq. revert states next.
  induction Hq as [|segment rest Hseg _ IH]; intros states next; simpl.
  - by intros [= <-].
  - destruct (String.eqb segment "-").
    + intros Hn. rewrite (IH _ _ Hn). apply applyDash_length.
    + destruct (expandStates E Sprintf_v segment states) as [|mid] eqn:Hm; [done|].
      pose proof (expandStates_length _ _ _ Hseg Hm) as Hlen.
      destruct mid as [|st mid].
      * intros [= <-]. done.
      * intros Hn. by rewrite (IH _ _ Hn).
Qed.

Lemma Split_no_byte c sep s :
  IndexByte c s = None ->
  Forall (fun segment => IndexByte c segment = None) (Split sep s).
Proof.
  induction s as [|d s IH]; [by repeat constructor|].
  cbn [IndexByte Split]. destruct (Ascii.eqb d c) eqn:Hd; [done|].
  destruct (IndexByte c s); [done|]. intros _. specialize (IH eq_refl).
  destruct (Ascii.eqb d sep).
  - by constructor.
  - destruct (Split sep s) as [|x xs].
    + repeat constructor. cbn [IndexByte]. by rewrite Hd.
    + inversion IH as [|? ? Hx Hxs]; subst. constructor; [|done].
      cbn [IndexByte]. by rewrite Hd, Hx.
Qed.

Lemma splitRawPath_no_byte c path :
  IndexByte c path = None ->
  Forall (fun segment => IndexByte c segment = None) (splitRawPath path).
Proof.
  intros Hc. unfold splitRawPath.
  destruct (String.eqb path ""); [constructor|].
  destruct (String.eqb (TrimPrefix path "/") ""); [by repeat constructor|].
  apply Split_no_byte. unfold TrimPrefix.
  destruct (HasPrefix path "/"); [by apply IndexByte_drop|done].
Qed.

(** X3. A path with no [?] in it, hence with no filter, never fans out: its
    expansion is an error or exactly one pointer. *)
Theorem expandPaths_without_filter (root : object) (rawPath : string) :
  IndexByte "?" rawPath = None ->
  match expandPaths E Sprintf_v root rawPath with
  | inl _ => True
  | inr pointers => length pointers = 1%nat
  end.
Proof.
  intros Hq. unfold expandPaths.
  destruct (String.eqb rawPath ""); [done|].
  destruct (expandSegments _ _ _ _) as [|states] eqn:Hs; [done|].
  rewrite length_fmap.
  by rewrite (expandSegments_length _ _ _ (splitRawPath_no_byte _ _ Hq) Hs).
Qed.

End plain_paths.

(** ** Target selection and what a specification may touch *)

Section targets.
Import Str Patch.

Variable E : Type.
Variable Sprintf_v : value -> string.
Variable jsonpatch_Apply : string -> string -> option value -> object -> E + object.
Variable spec : PatchSpec.
Variable render : RenderFunc E.
Variable isMissingData : MissingDataChecker E.

Lemma findTargetsFrom_elem n resources target i :
  i ∈ findTargetsFrom n resources target <->
  exists j r, i = (n + j)%nat /\ resources !! j = Some r
              /\ matchesTarget r target = true.
Proof.
  revert n. induction resources as [|resource rest IH]; intros n; simpl.
  - split; [by intros ?%elem_of_nil|]. by intros (j & r & _ & ? & _).
  - assert (Hrest : i ∈ findTargetsFrom (S n) rest target <->
                    exists j r, i = (n + S j)%nat /\ rest !! j = Some r
                                /\ matchesTarget r target = true).
    { rewrite IH. split; intros (j & r & -> & Hr & Hm); exists j, r;
        (split; [lia|done]). }
    destruct (matchesTarget resource target) eqn:Hm.
    + rewrite elem_of_cons, Hrest. split.
      * intros [->|(j & r & -> & Hr & Hmr)].
        -- exists 0%nat, resource. split; [lia|done].
        -- by exists (S j), r.
      * intros ([|j] & r & -> & Hr & Hmr).
        -- left. lia.
        -- right. by exists j, r.
    + rewrite Hrest. split.
      * intros (j & r & -> & Hr & Hmr). by exists (S j), r.
      * intros ([|j] & r & -> & Hr & Hmr).
        -- simpl in Hr. injection Hr as ->. congruence.
        -- by exists j, r.
Qed.

Lemma findTargetsFrom_sorted n resources target :
  StronglySorted lt (findTargetsFrom n resources target).
Proof.
  revert n. induction resources as [|resource rest IH]; intros n; simpl.
  - constructor.
  - destruct (matchesTarget resource target); [|apply IH].
    constructor; [apply IH|].
    apply Forall_forall. intros i Hi.
    apply findTargetsFrom_elem in Hi as (j & r & -> & _). lia.
Qed.

Lemma findTargetsFrom_all n resources target :
  (forall r, matchesTarget r target = true) ->
  findTargetsFrom n resources target = seq n (length resources).
Proof.
  intros Hall. revert n. induction resources as [|resource rest IH];
    intros n; simpl; [done|].
  by rewrite Hall, IH.
Qed.

(** X4. [FindTargetResources] returns exactly the positions of the resources
    that pass the kind, group, version and name tests, each once and in the
    order of the list; a target with these four fields empty selects every
    resource. *)
Theorem FindTargetResources_selects (resources : list object) (target : TargetSpec) :
  (forall i, i ∈ FindTargetResources resources target <->
     exists r, resources !! i = Some r /\ matchesTarget r target = true)
  /\ StronglySorted lt (FindTargetResources resources target)
  /\ (Kind target = "" -> Group target = "" -> Version target = "" ->
      Name target = "" ->
      FindTargetResources resources target = seq 0 (length resources)).
Proof.
  unfold FindTargetResources. split_and!.
  - intros i. rewrite findTargetsFrom_elem. split.
    + intros (j & r & -> & Hr & Hm). by exists r.
    + intros (r & Hr & Hm). by exists i, r.
  - apply findTargetsFrom_sorted.
  - intros Hk Hg Hv Hn. apply findTargetsFrom_all. intros r.
    unfold matchesTarget. rewrite Hk, Hg, Hv, Hn. simpl.
    by destruct (r !! "apiVersion") as [[| | | |gv| |]|];
      try destruct (splitAPIVersion gv).
Qed.

Lemma forTargets_frame targets resources inputs :
  let result := forTargets E Sprintf_v jsonpatch_Apply spec render isMissingData
                  targets resources inputs in
  length result.1.1 = length resources
  /\ forall i, i ∉ targets -> result.1.1 !! i = resources !! i.
Proof.
  revert resources inputs. induction targets as [|idx rest IHt];
    intros resources inputs; simpl; [done|].
  destruct (resources !! idx) as [target|] eqn:Hidx.
  2:{ destruct (IHt resources inputs) as [Hl Hf]. split; [done|].
      intros i [_ Hi]%not_elem_of_cons. by apply Hf. }
  destruct (matchTarget _ _ _ _ _ _) as [inputs1 [err|[]]]; simpl.
  - done.
  - destruct (executeOperations _ _ _ _ _ _ _) as [[target' inputs2] [err|]];
      simpl.
    + split; [apply length_insert|].
      intros i [Hne _]%not_elem_of_cons. by apply list_lookup_insert_ne.
    + destruct (IHt (<[idx := target']> resources) inputs2) as [Hl Hf].
      split; [by rewrite Hl, length_insert|].
      intros i [Hne Hi]%not_elem_of_cons. rewrite Hf by done.
      by apply list_lookup_insert_ne.
  - destruct (IHt resources inputs1) as [Hl Hf]. split; [done|].
    intros i [_ Hi]%not_elem_of_cons. by apply Hf.
Qed.

Lemma forItems_frame varName previous targets items resources inputs :
  let result := forItems E Sprintf_v jsonpatch_Apply spec render isMissingData
                  varName previous targets items resources inputs in
  length result.1.1 = length resources
  /\ forall i, i ∉ targets -> result.1.1 !! i = resources !! i.
Proof.
  revert resources inputs. induction items as [|item rest IH];
    intros resources inputs; simpl; [done|].
  pose proof (forTargets_frame targets resources (<[varName := item]> inputs))
    as [Hl Hf].
  destruct (forTargets _ _ _ _ _ _ _ _ _) as [[resources1 inputs1] [err|]];
    simpl in *; [done|].
  destruct (IH resources1 inputs1) as [Hl' Hf'].
  split; [by rewrite Hl'|]. intros i Hi. by rewrite Hf', Hf.
Qed.

(** X5. [ApplySpec] returns as many resources as it was given, and a resource
    that [FindTargetResources] does not select for the target of the
    specification comes back as it was, whatever the outcome. *)
Theorem ApplySpec_touches_only_targets (resources : list object) (inputs : object) :
  let result := ApplySpec E Sprintf_v jsonpatch_Apply spec render isMissingData
                  resources inputs in
  length result.1.1 = length resources
  /\ forall i, i ∉ FindTargetResources resources (Target spec) ->
       result.1.1 !! i = resources !! i.
Proof.
  unfold ApplySpec. destruct (Operations spec) as [|op ops]; [done|].
  destruct (negb (String.eqb (ForEach spec) "")).
  - destruct (render (VStr (ForEach spec)) inputs) as [err|[]]; try done.
    apply forItems_frame.
  - apply forTargets_frame.
Qed.

End targets.

(** ** Auto-created parents *)

Section parents.
Import Str Patch.

Variable E : Type.

Lemma present_Some (node : object) seg child :
  present (node !! seg) = Some child -> node !! seg = Some child /\ child <> VNil.
Proof. by destruct (node !! seg) as [[]|]; simpl; intros [= <-]. Qed.

Lemma present_not_nil child : child <> VNil -> present (Some child) = Some child.
Proof. by destruct child. Qed.

Lemma list_default_insert_id (node : list value) i :
  (i < length node)%nat -> <[i := default VNil (node !! i)]> node = node.
Proof.
  intros Hi. destruct (lookup_lt_is_Some_2 node i Hi) as [x Hx].
  rewrite Hx. simpl. by apply list_insert_id.
Qed.

Lemma in_range index (node : list value) :
  (index <? 0) || (Z.of_nat (length node) <=? index) = false ->
  (Z.to_nat index < length node)%nat.
Proof.
  intros [H1 H2]%orb_false_iff.
  apply Z.ltb_ge in H1. apply Z.leb_gt in H2. lia.
Qed.

(** One step of the loop, for a pointer with at least two segments. *)
Lemma ensureParents_step seg next rest current :
  ensureParents E (seg :: next :: rest) current =
    match current with
    | VMap node =>
        match present (node !! seg) with
        | Some child =>
            let '(child, r) := ensureParents E (next :: rest) child in
            (VMap (<[seg := child]> node), r)
        | None =>
            if String.eqb next "-" then
              let '(child, r) := ensureParents E (next :: rest) (VList []) in
              (VMap (<[seg := child]> node), r)
            else
              match Atoi next with
              | Some _ => (current, Some (ErrCreateIndex E next seg))
              | None =>
                  let '(child, r) := ensureParents E (next :: rest) (VMap ∅) in
                  (VMap (<[seg := child]> node), r)
              end
        end
    | VList node =>
        match Atoi seg with
        | None => (current, Some (ErrExpectedIndex E seg))
        | Some index =>
            if (index <? 0) || (Z.of_nat (length node) <=? index)
            then (current, Some (ErrSegmentOutOfBounds E index seg))
            else
              let '(child, r) :=
                ensureParents E (next :: rest)
                  (default VNil (node !! Z.to_nat index)) in
              (VList (<[Z.to_nat index := child]> node), r)
        end
    | _ => (current, Some (ErrCannotTraverse E seg current))
    end.
Proof. reflexivity. Qed.

(** When every parent of the last segment exists, nothing is written. *)
Lemma ensureParents_existing segments current parent :
  pointer_get (removelast segments) current = Some parent ->
  ensureParents E segments current = (current, None).
Proof.
  revert current. induction segments as [|seg rest IH]; intros current; [done|].
  destruct rest as [|next rest]; [done|].
  change (removelast (seg :: next :: rest))
    with (seg :: removelast (next :: rest)).
  rewrite ensureParents_step. cbn [pointer_get].
  destruct current as [| | | | |node|node]; try done.
  - destruct (Atoi seg) as [index|]; [|done].
    destruct ((index <? 0) || (Z.of_nat (length node) <=? index)) eqn:Hb; [done|].
    intros Hg. rewrite (IH _ Hg).
    by rewrite list_default_insert_id by by apply in_range.
  - destruct (present (node !! seg)) as [child|] eqn:Hp; [|done].
    intros Hg. rewrite (IH _ Hg).
    apply present_Some in Hp as [Hs _]. by rewrite insert_id.
Qed.

(** The traversal keeps maps maps and slices slices. *)
Lemma ensureParents_not_nil segments current :
  current <> VNil -> (ensureParents E segments current).1 <> VNil.
Proof.
  intros Hc. destruct segments as [|seg [|next rest]]; [done..|].
  rewrite ensureParents_step.
  destruct current as [| | | | |node|node]; try done.
  - destruct (Atoi seg) as [index|]; [|done].
    destruct ((index <? 0) || (Z.of_nat (length node) <=? index)); [done|].
    by destruct (ensureParents E (next :: rest) _).
  - destruct (present (node !! seg)) as [child|].
    + by destruct (ensureParents E (next :: rest) _).
    + destruct (String.eqb next "-").
      * by destruct (ensureParents E (next :: rest) _).
      * destruct (Atoi next); [done|].
        by destruct (ensureParents E (next :: rest) _).
Qed.

(** After a success every parent of the last segment exists. *)
Lemma ensureParents_creates segments current current' :
  ensureParents E segments current = (current', None) ->
  is_Some (pointer_get (removelast segments) current').
Proof.
  revert current current'.
  induction segments as [|seg rest IH]; intros current current'.
  { intros [= <-]. by eexists. }
  destruct rest as [|next rest].
  { intros [= <-]. by eexists. }
  change (removelast (seg :: next :: rest))
    with (seg :: removelast (next :: rest)).
  rewrite ensureParents_step.
  assert (Hmap : forall (node : object) child0 child' r,
             child0 <> VNil ->
             ensureParents E (next :: rest) child0 = (child', r) ->
             (VMap (<[seg := child']> node), r) = (current', None) ->
             is_Some (pointer_get (seg :: removelast (next :: rest)) current')).
  { intros node child0 child' r Hnn Hrec [= <- ->]. cbn [pointer_get].
    rewrite lookup_insert_eq, present_not_nil.
    - by eapply IH.
    - pose proof (ensureParents_not_nil (next :: rest) child0 Hnn) as Hn.
      by rewrite Hrec in Hn. }
  destruct current as [| | | | |node|node]; try done.
  - destruct (Atoi seg) as [index|] eqn:Ha; [|done].
    destruct ((index <? 0) || (Z.of_nat (length node) <=? index)) eqn:Hb; [done|].
    destruct (ensureParents E (next :: rest) _) as [child' r] eqn:Hrec.
    intros [= <- ->]. cbn [pointer_get]. rewrite Ha, length_insert, Hb.
    rewrite list_lookup_insert_eq by by apply in_range. simpl. by eapply IH.
  - destruct (present (node !! seg)) as [child|] eqn:Hp.
    + destruct (ensureParents E (next :: rest) child) as [child' r] eqn:Hrec.
      apply present_Some in Hp as [_ Hnn]. by eapply Hmap.
    + destruct (String.eqb next "-").
      * destruct (ensureParents E (next :: rest) (VList [])) as [child' r] eqn:Hrec.
        intros Hr. by eapply Hmap; [|exact Hrec|exact Hr].
      * destruct (Atoi next); [done|].
        destruct (ensureParents E (next :: rest) (VMap ∅)) as [child' r] eqn:Hrec.
        intros Hr. by eapply Hmap; [|exact Hrec|exact Hr].
Qed.

Lemma ensureParents_object segments (root : object) :
  exists root', (ensureParents E segments (VMap root)).1 = VMap root'.
Proof.
  destruct segments as [|seg [|next rest]]; [by eexists..|].
  rewrite ensureParents_step. destruct (present (root !! seg)) as [child|].
  - destruct (ensureParents E (next :: rest) child). by eexists.
  - destruct (String.eqb next "-").
    + destruct (ensureParents E (next :: rest) _). by eexists.
    + destruct (Atoi next); [by eexists|].
      destruct (ensureParents E (next :: rest) _). by eexists.
Qed.

(** X6. [ensureParentExists] writes nothing and succeeds when every segment
    before the last leads, from the root, through a non-nil map entry or an
    index in range. *)
Theorem ensureParentExists_existing (root : object) (pointer : string)
    (parent : value) :
  pointer_get (removelast (splitPointer pointer)) (VMap root) = Some parent ->
  ensureParentExists E root pointer = (root, None).
Proof.
  intros Hg. unfold ensureParentExists.
  destruct (splitPointer pointer) as [|seg rest] eqn:Hs; [done|].
  by rewrite (ensureParents_existing _ _ _ Hg).
Qed.

(** X7. After a successful [ensureParentExists] every segment before the last
    resolves from the new root, and a second call with the same pointer
    succeeds and changes nothing. *)
Theorem ensureParentExists_idempotent (root root' : object) (pointer : string) :
  ensureParentExists E root pointer = (root', None) ->
  is_Some (pointer_get (removelast (splitPointer pointer)) (VMap root'))
  /\ ensureParentExists E root' pointer = (root', None).
Proof.
  unfold ensureParentExists.
  destruct (splitPointer pointer) as [|seg rest] eqn:Hs.
  { intros [= <-]. split; [by eexists|done]. }
  destruct (ensureParents_object (seg :: rest) root) as [m Hm].
  destruct (ensureParents E (seg :: rest) (VMap root)) as [v r] eqn:Hrec.
  simpl in Hm. subst v. cbv beta iota. cbn [as_object]. intros [= -> ->].
  pose proof (ensureParents_creates _ _ _ Hrec) as [parent Hg].
  split; [by eexists|].
  by rewrite (ensureParents_existing _ _ _ Hg).
Qed.

End parents.

(** ** Laws of the shallow merge *)

Section shallow_laws.
Import Str Patch.

Variable E : Type.

Lemma mergeShallowInto_union (target overlay : object) :
  mergeShallowInto target overlay = overlay ∪ target.
Proof.
  apply map_eq. intros k. rewrite mergeShallowInto_lookup.
  destruct (overlay !! k) as [v|] eqn:Hk.
  - symmetry. by apply lookup_union_Some_l.
  - symmetry. by rewrite lookup_union_r.
Qed.

(** X8. [mergeShallowInto target overlay] is the overlay laid over the
    target, keys of the overlay winning; merging nothing changes nothing,
    merging the same overlay again changes nothing, and merging two overlays in
    turn is merging the second laid over the first. *)
Theorem mergeShallowInto_laws (target a b : object) :
  mergeShallowInto target a = a ∪ target
  /\ mergeShallowInto target ∅ = target
  /\ mergeShallowInto (mergeShallowInto target a) a = mergeShallowInto target a
  /\ mergeShallowInto (mergeShallowInto target a) b
     = mergeShallowInto target (mergeShallowInto a b).
Proof.
  rewrite !mergeShallowInto_union. split_and!.
  - done.
  - by rewrite (left_id_L ∅ (∪)).
  - by rewrite (assoc_L (∪)), (idemp_L (∪)).
  - by rewrite (assoc_L (∪)).
Qed.

Lemma mergeShallowEntry_again existing (val : object) :
  mergeShallowEntry (Some (mergeShallowEntry existing val)) val
  = mergeShallowEntry existing val.
Proof.
  unfold mergeShallowEntry.
  destruct (present existing) as [[| | | | | |targetMap]|]; simpl;
    rewrite ?deepCopyMap_id, !mergeShallowInto_union;
    by rewrite ?(assoc_L (∪)), (idemp_L (∪)).
Qed.

Lemma mergeShallowParent_again (val : object) last parent parent' :
  mergeShallowParent E val last parent = (parent', None) ->
  parent' <> VNil /\ mergeShallowParent E val last parent' = (parent', None).
Proof.
  unfold mergeShallowParent.
  destruct parent as [| | | | |container|container]; try done.
  - destruct (String.eqb last "-"); [done|].
    destruct (Atoi last) as [index|]; [|done].
    destruct ((index <? 0) || (Z.of_nat (length container) <=? index)) eqn:Hb;
      [done|].
    intros [= <-]. split; [done|].
    rewrite length_insert, Hb.
    rewrite list_lookup_insert_eq by by apply in_range.
    by rewrite mergeShallowEntry_again, list_insert_insert_eq.
  - intros [= <-]. split; [done|].
    by rewrite lookup_insert_eq, mergeShallowEntry_again, insert_insert_eq.
Qed.

(** A write that can be repeated stays repeatable below any chain of
    segments, with missing containers created on the way. *)
Lemma navigate_again parentSegs last todo
    (k : value -> value * option (patch_error E)) :
  (forall parent parent',
      k parent = (parent', None) -> parent' <> VNil /\ k parent' = (parent', None)) ->
  forall i current current',
    navigate E true parentSegs last i todo k current = (current', None) ->
    current' <> VNil
    /\ navigate E true parentSegs last i todo k current' = (current', None).
Proof.
  intros Hk. induction todo as [|seg rest IH]; intros i current current'.
  { apply Hk. }
  cbn [navigate].
  assert (Hmap : forall (node : object) child0 child' r,
             navigate E true parentSegs last (S i) rest k child0 = (child', r) ->
             (VMap (<[seg := child']> node), r) = (current', None) ->
             current' <> VNil
             /\ match current' with
                | VMap node =>
                    match present (node !! seg) with
                    | Some child =>
                        let '(child, r) :=
                          navigate E true parentSegs last (S i) rest k child in
                        (VMap (<[seg := child]> node), r)
                    | None =>
                        let next := determineNextContainerType parentSegs i last in
                        let '(child, r) :=
                          navigate E true parentSegs last (S i) rest k next in
                        (VMap (<[seg := child]> node), r)
                    end
                | VList node =>
                    match Atoi seg with
                    | None => (current', Some (ErrExpectedIndex E seg))
                    | Some index =>
                        if (index <? 0) || (Z.of_nat (length node) <=? index)
                        then (current', Some (ErrSegmentOutOfBounds E index seg))
                        else
                          let '(child, r) :=
                            navigate E true parentSegs last (S i) rest k
                              (default VNil (node !! Z.to_nat index)) in
                          (VList (<[Z.to_nat index := child]> node), r)
                    end
                | _ => (current', Some (ErrCannotTraverse E seg current'))
                end = (current', None)).
  { intros node child0 child' r Hrec [= <- ->]. split; [done|].
    destruct (IH _ _ _ Hrec) as [Hnn Hagain].
    rewrite lookup_insert_eq, (present_not_nil _ Hnn), Hagain.
    by rewrite insert_insert_eq. }
  destruct current as [| | | | |node|node]; try done.
  - destruct (Atoi seg) as [index|] eqn:Ha; [|done].
    destruct ((index <? 0) || (Z.of_nat (length node) <=? index)) eqn:Hb; [done|].
    destruct (navigate E true parentSegs last (S i) rest k _)
      as [child' r] eqn:Hrec.
    intros [= <- ->]. split; [done|].
    destruct (IH _ _ _ Hrec) as [_ Hagain].
    rewrite length_insert, Hb.
    rewrite list_lookup_insert_eq by by apply in_range.
    simpl. rewrite Hagain. by rewrite list_insert_insert_eq.
  - destruct (present (node !! seg)) as [child|].
    + destruct (navigate E true parentSegs last (S i) rest k child)
        as [child' r] eqn:Hrec.
      intros Hr. exact (Hmap _ _ _ _ Hrec Hr).
    + cbv zeta. intros Hr.
      destruct (navigate E true parentSegs last (S i) rest k
                  (determineNextContainerType parentSegs i last))
        as [child' r] eqn:Hrec in Hr.
      exact (Hmap _ _ _ _ Hrec Hr).
Qed.

Lemma navigate_object parentSegs last i todo
    (k : value -> value * option (patch_error E)) (root : object) :
  (forall m : object, exists m', (k (VMap m)).1 = VMap m') ->
  exists root', (navigate E true parentSegs last i todo k (VMap root)).1 = VMap root'.
Proof.
  intros Hk. destruct todo as [|seg rest]; [apply Hk|].
  cbn [navigate]. destruct (present (root !! seg)) as [child|].
  - destruct (navigate E true parentSegs last (S i) rest k child). by eexists.
  - cbv zeta. destruct (navigate E true parentSegs last (S i) rest k _).
    by eexists.
Qed.

(** X9. Merging the same value at the same pointer a second time succeeds and
    changes nothing, whatever the first merge overlaid, replaced or created
    on its way. *)
Theorem mergeShallowAtPointer_idempotent (root root' : object)
    (pointer : string) (val : object) :
  mergeShallowAtPointer E root pointer val = (root', None) ->
  mergeShallowAtPointer E root' pointer val = (root', None).
Proof.
  unfold mergeShallowAtPointer, navigateToParent.
  destruct (splitPointer pointer) as [|seg rest] eqn:Hs.
  - cbn [mergeShallowParent as_object]. intros [= <-].
    by rewrite lookup_insert_eq, mergeShallowEntry_again, insert_insert_eq.
  - set (parentSegs := removelast (seg :: rest)).
    set (last := List.last (seg :: rest) "").
    destruct (navigate_object parentSegs last 0 parentSegs
                (mergeShallowParent E val last) root) as [m Hm].
    { intros c. by eexists. }
    destruct (navigate E true parentSegs last 0 parentSegs
                (mergeShallowParent E val last) (VMap root)) as [v r] eqn:Hnav.
    simpl in Hm. subst v. cbn [as_object]. intros [= -> ->].
    destruct (navigate_again parentSegs last parentSegs
                (mergeShallowParent E val last)
                (mergeShallowParent_again val last) _ _ _ Hnav) as [_ Hagain].
    by rewrite Hagain.
Qed.

End shallow_laws.

(** ** Laws of the deep merge *)

Section deep_merge_laws.
Import Ctx.

Lemma deepMerge_self_tree (v : value) :
  match v with VMap m => deepMerge m m = m | _ => True end.
Proof.
  induction v as [| | | | |l IH|m IH] using value_tree_ind; try done.
  apply map_eq. intros k. rewrite deepMerge_lookup.
  destruct (m !! k) as [x|] eqn:Hk; [|done]. simpl.
  specialize (IH k x Hk). destruct x; try done. by rewrite IH.
Qed.

Lemma deepMerge_self (m : object) : deepMerge m m = m.
Proof. exact (deepMerge_self_tree (VMap m)). Qed.

Lemma deepMerge_again_tree (v : value) :
  match v with
  | VMap b => forall a, deepMerge (deepMerge a b) b = deepMerge a b
  | _ => True
  end.
Proof.
  induction v as [| | | | |l IH|b IH] using value_tree_ind; try done.
  intros a. apply map_eq. intros k. rewrite !deepMerge_lookup.
  destruct (b !! k) as [y|] eqn:Hb; [|done].
  specialize (IH k y Hb).
  destruct (a !! k) as [x|]; simpl.
  - destruct x, y; simpl; try done; by rewrite ?deepMerge_self, ?IH.
  - destruct y; simpl; try done. by rewrite deepMerge_self.
Qed.

(** X10. [deepMerge] keeps every key of both maps and adds none; merging a
    map into itself gives the map back, and merging the same override a second
    time changes nothing. *)
Theorem deepMerge_idempotent (a b : object) :
  dom (deepMerge a b) = dom a ∪ dom b
  /\ deepMerge a a = a
  /\ deepMerge (deepMerge a b) b = deepMerge a b.
Proof.
  split_and!.
  - apply set_eq. intros k.
    rewrite elem_of_union, !elem_of_dom, deepMerge_lookup.
    destruct (a !! k) as [x|], (b !! k) as [y|]; simpl.
    + split; [by left; eexists|intros _].
      destruct x, y; by eexists.
    + split; [by left|by intros [|[]%is_Some_None]].
    + split; [by right; eexists|intros _]. destruct y; by eexists.
    + split; [by left|by intros [|]].
  - apply deepMerge_self.
  - exact (deepMerge_again_tree (VMap b) a).
Qed.

(** X11. On maps that share no key [deepMerge] is the union of the two, and
    the order of the arguments does not matter. *)
Theorem deepMerge_disjoint (a b : object) :
  dom a ## dom b ->
  deepMerge a b = a ∪ b /\ deepMerge a b = deepMerge b a.
Proof.
  intros Hd.
  assert (Hk : forall k, is_Some (a !! k) -> is_Some (b !! k) -> False).
  { intros k Ha Hb. apply (Hd k); by apply elem_of_dom. }
  split; apply map_eq; intros k; rewrite !deepMerge_lookup.
  - destruct (a !! k) as [x|] eqn:Ha, (b !! k) as [y|] eqn:Hb; simpl.
    + destruct (Hk k); by rewrite ?Ha, ?Hb.
    + symmetry. by apply lookup_union_Some_l.
    + symmetry. rewrite lookup_union_r by done. by destruct y.
    + symmetry. by apply lookup_union_None_2.
  - destruct (a !! k) as [x|] eqn:Ha, (b !! k) as [y|] eqn:Hb; simpl; try done.
    destruct (Hk k); by rewrite ?Ha, ?Hb.
Qed.

End deep_merge_laws.

(** ** Contexts from a snapshot, addon contexts *)

Section contexts.
Import Ctx Schema Builder Snapshot.

Variable E : Type.
Variable json_Unmarshal : string -> E + object.
Variable ToStructural : list object -> E + Structural.

Lemma componentContextTail_lookup input component (ctx : object) :
  dom ctx ⊆ {[ "parameters" ]} ->
  let out := componentContextTail input component ctx in
  out !! "workload"
    = (w ← ciWorkload input; Some (VMap (extractWorkloadData (Some w))))
  /\ out !! "component" = Some (componentMeta component)
  /\ out !! "environment"
     = (if bool_decide (ciEnvironment input = "") then None
        else Some (VStr (ciEnvironment input)))
  /\ out !! "metadata"
     = (if bool_decide (ciAdditionalMetadata input = ∅) then None
        else Some (smap (ciAdditionalMetadata input))).
Proof.
  intros Hdom.
  assert (Hno : forall k, k <> "parameters" -> ctx !! k = None).
  { intros k Hk. apply not_elem_of_dom. set_solver. }
  unfold componentContextTail. cbv zeta.
  destruct (ciWorkload input) as [w|]; repeat case_bool_decide; simpl;
    split_and!; simplify_map_eq; try done; by rewrite Hno.
Qed.

(** X12. A context built from a snapshot always binds [workload], also for a
    workload with nothing in it, and [component]; [environment] is bound
    exactly when the snapshot names one.  A nil snapshot is the only input
    refused before the builder runs. *)
Theorem BuildFromSnapshot_binds (snapshot : option ComponentEnvSnapshot)
    (settings : option EnvSettings) (additionalMetadata : gmap string string)
    (ctx : object) :
  BuildFromSnapshot E json_Unmarshal ToStructural snapshot settings
    additionalMetadata = inr ctx ->
  exists sn,
    snapshot = Some sn
    /\ ctx !! "workload" = Some (VMap (extractWorkloadData (Some (snWorkload sn))))
    /\ ctx !! "component" = Some (componentMeta (snComponent sn))
    /\ is_Some (ctx !! "parameters")
    /\ ctx !! "environment"
       = (if bool_decide (snEnvironment sn = "") then None
          else Some (VStr (snEnvironment sn)))
    /\ ctx !! "metadata"
       = (if bool_decide (additionalMetadata = ∅) then None
          else Some (smap additionalMetadata)).
Proof.
  unfold BuildFromSnapshot. destruct snapshot as [sn|]; [|done].
  destruct (BuildComponentContext _ _ _ _) as [|ctx'] eqn:Hb; [done|].
  intros [= <-]. exists sn. split; [done|].
  apply BuildComponentContext_inr in Hb
    as (component & ctd & structural & declared & overrides
        & [= <-] & _ & _ & _ & _ & ->).
  match goal with
  | |- context [componentContextTail ?i ?c ?x] =>
      destruct (componentContextTail_lookup i c x) as (Hw & Hc & He & Hm)
  end.
  { rewrite dom_insert_L, dom_empty_L. set_solver. }
  split_and!; try done.
  rewrite componentContextTail_parameters, lookup_insert_eq. by eexists.
Qed.

Lemma addonContextTail_lookup input addon component (ctx : object) :
  dom ctx ⊆ {[ "parameters" ]} ->
  let out := addonContextTail input addon component ctx in
  out !! "addon"
  = Some (VMap {[ "name" := VStr (aName addon);
                  "instanceId" := VStr (InstanceID (aiInstance input)) ]})
  /\ out !! "component" = Some (componentMeta component)
  /\ out !! "workload" = None
  /\ out !! "environment"
     = (if bool_decide (aiEnvironment input = "") then None
        else Some (VStr (aiEnvironment input))).
Proof.
  intros Hdom.
  assert (Hno : forall k, k <> "parameters" -> ctx !! k = None).
  { intros k Hk. apply not_elem_of_dom. set_solver. }
  unfold addonContextTail. cbv zeta.
  assert (Hmeta : (<["instanceId" := VStr (InstanceID (aiInstance input))]>
                     {[ "name" := VStr (aName addon) ]} : object)
                  = {[ "name" := VStr (aName addon);
                       "instanceId" := VStr (InstanceID (aiInstance input)) ]}).
  { apply map_eq. intros k.
    destruct (decide (k = "instanceId")) as [->|]; [by simplify_map_eq|].
    destruct (decide (k = "name")) as [->|]; by simplify_map_eq. }
  rewrite Hmeta.
  repeat case_bool_decide; split_and!; simplify_map_eq; try done;
    by rewrite Hno.
Qed.

Ltac by_elements :=
  repeat (apply elem_of_union; first [left; apply elem_of_singleton; reflexivity
                                     |right; apply elem_of_singleton; reflexivity
                                     |left]).

(** X13. An addon context binds [addon] to the addon's name and the
    instance id, and [component]; it never binds [workload], and it has no
    keys but [parameters], [addon], [component], [environment] and
    [metadata]. *)
Theorem BuildAddonContext_keys (input : AddonContextInput) (ctx : object) :
  BuildAddonContext E json_Unmarshal ToStructural (Some input) = inr ctx ->
  exists addon component,
    aiAddon input = Some addon
    /\ aiComponent input = Some component
    /\ ctx !! "addon"
       = Some (VMap {[ "name" := VStr (aName addon);
                       "instanceId" := VStr (InstanceID (aiInstance input)) ]})
    /\ ctx !! "component" = Some (componentMeta component)
    /\ ctx !! "workload" = None
    /\ is_Some (ctx !! "parameters")
    /\ (is_Some (ctx !! "environment") <-> aiEnvironment input <> "")
    /\ (is_Some (ctx !! "metadata") <-> aiAdditionalMetadata input <> ∅)
    /\ dom ctx ⊆ {[ "parameters"; "addon"; "component"; "environment"; "metadata" ]}.
Proof.
  intros Hb.
  apply BuildAddonContext_inr in Hb
    as (addon & component & structural & declared & overrides
        & Ha & Hc & _ & _ & _ & ->).
  exists addon, component. split; [done|]. split; [done|].
  unfold addonContextTail. cbv zeta.
  assert (Hmeta : (<["instanceId" := VStr (InstanceID (aiInstance input))]>
                     {[ "name" := VStr (aName addon) ]} : object)
                  = {[ "name" := VStr (aName addon);
                       "instanceId" := VStr (InstanceID (aiInstance input)) ]}).
  { apply map_eq. intros k.
    destruct (decide (k = "instanceId")) as [->|]; [by simplify_map_eq|].
    destruct (decide (k = "name")) as [->|]; by simplify_map_eq. }
  rewrite Hmeta.
  assert (Hsub : forall X : gset string,
             X ⊆ {[ "parameters"; "addon"; "component"; "environment"; "metadata" ]} ->
             forall k, k ∈ ({[ "parameters"; "addon"; "component";
                               "environment"; "metadata" ]} : gset string) ->
             {[ k ]} ∪ X
             ⊆ {[ "parameters"; "addon"; "component"; "environment"; "metadata" ]}).
  { intros X HX k Hk x [->%elem_of_singleton|Hx]%elem_of_union; [done|].
    by apply HX. }
  repeat case_bool_decide; split_and!; simplify_map_eq; try done;
    rewrite ?is_Some_alt; try (split; done);
    rewrite ?dom_insert_L, ?dom_empty_L;
    repeat (apply Hsub; [|by_elements]); apply empty_subseteq.
Qed.


(** X14. Environment settings whose [Overrides] is nil, whose
    [Overrides.Raw] is nil, or whose [Raw] bytes decode to the empty object
    change nothing: the build gives what it gives without settings.  Only a
    nil [Raw] counts as no bytes: any other [Raw] is decoded, and bytes that
    do not decode make the build fail where it succeeds without settings. *)
Theorem empty_overrides_ignored (input : ComponentContextInput)
    (es : EnvSettings) :
  ciEnvSettings input = Some es ->
  (esOverrides es = None
   \/ (exists r, esOverrides es = Some r
                 /\ (Raw r = None
                     \/ exists bytes, Raw r = Some bytes
                                      /\ json_Unmarshal bytes = inr ∅)) ->
   BuildComponentContext E json_Unmarshal ToStructural (Some input)
   = BuildComponentContext E json_Unmarshal ToStructural
       (Some (without_settings input)))
  /\ (forall r bytes e ctx,
        esOverrides es = Some r -> Raw r = Some bytes ->
        json_Unmarshal bytes = inl e ->
        BuildComponentContext E json_Unmarshal ToStructural
          (Some (without_settings input)) = inr ctx ->
        BuildComponentContext E json_Unmarshal ToStructural (Some input)
        = inl (ErrExtractOverrides E
                 (ErrUnmarshalParameters E e))).
Proof.
  intros Hes. unfold BuildComponentContext, without_settings. simpl.
  rewrite Hes.
  destruct (ciComponent input) as [component|]; [|by split; [|intros ? ? ? ?]].
  destruct (ciComponentTypeDefinition input) as [ctd|];
    [|by split; [|intros ? ? ? ?]].
  destruct (buildStructuralSchema _ _ _ _) as [|structural];
    [by split; [|intros ? ? ? ?]|].
  destruct (extractParameters _ _ (cParameters component)) as [|declared];
    [by split; [|intros ? ? ? ?]|].
  split.
  - intros [->|(r & -> & Hraw)]; [done|].
    unfold extractParameters.
    destruct Hraw as [->|(bytes & -> & ->)]; by rewrite deepMerge_empty_r.
  - intros r bytes e ctx -> Hraw Hfail _. unfold extractParameters.
    by rewrite Hraw, Hfail.
Qed.

End contexts.

(** ** Decimal indices *)

Section decimal.
Import Str Select.

Lemma digit_val_char (d : N) :
  (d < 10)%N -> digit_val (pretty_N_char d) = Some (Z.of_N d).
Proof.
  intros Hd.
  assert (Hc : (d = 0 \/ d = 1 \/ d = 2 \/ d = 3 \/ d = 4 \/ d = 5 \/ d = 6
                \/ d = 7 \/ d = 8 \/ d = 9)%N) by lia.
  repeat (destruct Hc as [->|Hc]; [reflexivity|]). by subst.
Qed.

(** The digits written in front of [s] are read back in front of what [s]
    reads as. *)
Lemma parse_pretty_N_go (x : N) (s : string) (k v : Z) :
  0 <= k ->
  (forall acc, parse_digits s acc = Some (acc * 10 ^ k + v)) ->
  exists k', 0 <= k' /\
    forall acc, parse_digits (pretty_N_go x s) acc
                = Some (acc * 10 ^ k' + (Z.of_N x * 10 ^ k + v)).
Proof.
  revert s k v. induction (N.lt_wf_0 x) as [x _ IH]. intros s k v Hk Hs.
  destruct (decide (x = 0%N)) as [->|Hx].
  { exists k. split; [done|]. intros acc. rewrite pretty_N_go_0, Hs.
    f_equal; lia. }
  rewrite pretty_N_go_step by lia.
  destruct (IH (x `div` 10)%N) with
    (s := String (pretty_N_char (x `mod` 10)) s) (k := k + 1)
    (v := Z.of_N (x `mod` 10) * 10 ^ k + v) as (k' & Hk' & Hgo).
  - apply N.div_lt; lia.
  - lia.
  - intros acc. cbn [parse_digits].
    rewrite digit_val_char by (apply N.mod_lt; lia).
    rewrite Hs. f_equal. rewrite Z.pow_add_r by lia. lia.
  - exists k'. split; [done|]. intros acc. rewrite Hgo. f_equal.
    rewrite Z.pow_add_r by lia.
    rewrite (N.div_mod x 10) at 3 by lia.
    rewrite N2Z.inj_add, N2Z.inj_mul. change (Z.of_N 10) with 10. lia.
Qed.

Lemma parse_pretty_N (x : N) :
  parse_digits (pretty_N_go x "") 0 = Some (Z.of_N x).
Proof.
  destruct (parse_pretty_N_go x "" 0 0) as (k' & _ & Hgo); [done| |].
  - intros acc. simpl. f_equal; lia.
  - rewrite Hgo. f_equal; lia.
Qed.

Lemma pretty_N_go_digit (x : N) (s : string) :
  (0 < x)%N \/ starts_digit s -> starts_digit (pretty_N_go x s).
Proof.
  revert s. induction (N.lt_wf_0 x) as [x _ IH]. intros s Hs.
  destruct (decide (x = 0%N)) as [->|Hx].
  { rewrite pretty_N_go_0. destruct Hs as [|]; [lia|done]. }
  rewrite pretty_N_go_step by lia. apply IH; [apply N.div_lt; lia|].
  right. simpl. rewrite digit_val_char by (apply N.mod_lt; lia). by eexists.
Qed.

Lemma Atoi_digits (s : string) :
  starts_digit s ->
  Atoi s = match parse_digits s 0 with
           | Some n => if (- 2 ^ 63 <=? n) && (n <=? 2 ^ 63 - 1) then Some n else None
           | None => None
           end.
Proof.
  destruct s as [|c r]; [done|]. simpl. intros [d Hd].
  destruct c as [[] [] [] [] [] [] [] []]; try reflexivity;
    by vm_compute in Hd.
Qed.

(** [strconv.Atoi] reads back what [strconv.Itoa] writes. *)
Lemma Atoi_Itoa (i : Z) :
  - 2 ^ 63 <= i <= 2 ^ 63 - 1 -> Atoi (Itoa i) = Some i.
Proof.
  intros Hi. unfold Itoa, pretty, pretty_Z.
  destruct i as [|p|p].
  - reflexivity.
  - unfold pretty, pretty_positive, pretty, pretty_N.
    destruct (decide (N.pos p = 0%N)) as [|_]; [done|].
    rewrite Atoi_digits by (apply pretty_N_go_digit; left; lia).
    rewrite parse_pretty_N. change (Z.of_N (N.pos p)) with (Z.pos p).
    destruct (Z.leb_spec (- 2 ^ 63) (Z.pos p)); [|lia].
    destruct (Z.leb_spec (Z.pos p) (2 ^ 63 - 1)); [done|lia].
  - unfold pretty, pretty_positive, pretty, pretty_N.
    destruct (decide (N.pos p = 0%N)) as [|_]; [done|].
    unfold Atoi. rewrite app_string_cons, app_string_nil.
    pose proof (pretty_N_go_digit (N.pos p) "" (or_introl eq_refl)) as Hd.
    rewrite parse_pretty_N.
    destruct (pretty_N_go (N.pos p) "") as [|c r]; [done|].
    change (Z.of_N (N.pos p)) with (Z.pos p).
    change (- Z.pos p) with (Z.neg p).
    destruct (Z.leb_spec (- 2 ^ 63) (Z.neg p)); [|lia].
    destruct (Z.leb_spec (Z.neg p) (2 ^ 63 - 1)); [done|lia].
Qed.

Lemma Itoa_not_dash (i : Z) :
  - 2 ^ 63 <= i <= 2 ^ 63 - 1 -> String.eqb (Itoa i) "-" = false.
Proof.
  intros Hi. destruct (String.eqb_spec (Itoa i) "-") as [Heq|]; [|done].
  pose proof (Atoi_Itoa i Hi) as Ha. rewrite Heq in Ha. by vm_compute in Ha.
Qed.

End decimal.

(** ** Paths with one filter *)

Section filter_paths.
Import Str Patch Select.

Variable E : Type.
Variable Sprintf_v : value -> string.

Lemma take_app_length (s t : string) : take (String.length s) (s ++ t) = s.
Proof.
  induction s as [|c s IH]; [by rewrite app_string_nil; destruct t|].
  rewrite app_string_cons. simpl. by rewrite IH.
Qed.

Lemma drop_app_length (s t : string) : drop (String.length s) (s ++ t) = t.
Proof.
  induction s as [|c s IH]; [by rewrite app_string_nil|].
  rewrite app_string_cons. simpl. by rewrite IH.
Qed.

Lemma IndexByte_app c (s t : string) :
  IndexByte c s = None ->
  IndexByte c (s ++ String c t) = Some (String.length s).
Proof.
  induction s as [|d s IH]; rewrite ?app_string_nil, ?app_string_cons; simpl.
  - by rewrite Ascii.eqb_refl.
  - destruct (Ascii.eqb d c); [done|].
    destruct (IndexByte c s); [done|]. intros _. by rewrite IH.
Qed.

Lemma IndexByte_app_None c (s t : string) :
  IndexByte c s = None -> IndexByte c t = None -> IndexByte c (s ++ t) = None.
Proof.
  induction s as [|d s IH]; rewrite ?app_string_nil, ?app_string_cons; simpl;
    [done|].
  destruct (Ascii.eqb d c); [done|].
  destruct (IndexByte c s); [done|]. intros _ Ht. by rewrite IH.
Qed.

Lemma HasPrefix_plain c (key t : string) :
  key <> "" -> IndexByte c key = None ->
  HasPrefix (key ++ t) (String c "") = false.
Proof.
  destruct key as [|d key]; [done|]. intros _. rewrite app_string_cons.
  unfold HasPrefix. simpl.
  destruct (Ascii.eqb_spec d c) as [|Hne]; [done|]. intros _.
  destruct (ascii_dec c d) as [->|]; [done|done].
Qed.

Lemma eqb_app_plain (key t : string) :
  key <> "" -> String.eqb (key ++ t) "" = false.
Proof. destruct key; [done|]. by rewrite app_string_cons. Qed.


Lemma slice_app (a b c : string) :
  slice (String.length a) (String.length a + String.length b) (a ++ b ++ c) = b.
Proof.
  unfold slice. rewrite drop_app_length.
  replace (String.length a + String.length b - String.length a)%nat
    with (String.length b) by lia.
  apply take_app_length.
Qed.

Lemma applySegmentLoop_done fuel segment current :
  applySegmentLoop E Sprintf_v fuel segment current "" = inr current.
Proof. by destruct fuel. Qed.

(** A plain key is one [applyKey]. *)
Lemma applySegment_key key base (m : object) :
  plain key ->
  applySegment E Sprintf_v {| pointer := base; psValue := VMap m |} key
  = inr [ {| pointer := (base ++ [key])%list;
             psValue := default VNil (m !! key) |} ].
Proof.
  intros (Hne & _ & _ & Hbr & Hnum). unfold applySegment.
  destruct key as [|c key'] eqn:Hkey; [done|]. rewrite <- Hkey in *.
  assert (Hlen : String.length key = S (String.length key'))
    by by rewrite Hkey.
  rewrite Hlen. cbn [applySegmentLoop].
  assert (Hnil : String.eqb key "" = false) by by rewrite Hkey.
  rewrite Hnil, (HasPrefix_IndexByte _ _ _ Hbr), Hbr, Hnil, Hnum.
  unfold applyKey. rewrite Hnil. cbn [applyKeyStates psValue pointer].
  by rewrite applySegmentLoop_done.
Qed.

(** A key followed by one filter is [applyKey], then [applyFilter]. *)
Lemma applySegmentLoop_filter fuel segment key expr base (m : object) :
  plain key -> IndexByte "]" expr = None ->
  (String.length (key ++ "[?(" ++ expr ++ ")]") <= fuel)%nat ->
  applySegmentLoop E Sprintf_v fuel segment
    [ {| pointer := base; psValue := VMap m |} ] (key ++ "[?(" ++ expr ++ ")]")
  = applyFilter E Sprintf_v
      [ {| pointer := (base ++ [key])%list;
           psValue := default VNil (m !! key) |} ] expr.
Proof.
  intros (Hne & _ & _ & Hbr & Hnum) Hexpr.
  set (content := "?(" ++ expr ++ ")").
  set (bracket := "[" ++ content ++ "]").
  assert (Hseg : key ++ "[?(" ++ expr ++ ")]" = key ++ bracket).
  { unfold bracket, content.
    by rewrite !app_string_cons, !app_string_nil, !app_string_assoc,
      !app_string_cons, !app_string_nil. }
  rewrite Hseg. clear Hseg.
  assert (Hnil : String.eqb key "" = false) by by destruct key.
  assert (Hb : bracket = String "[" (content ++ "]")).
  { unfold bracket. by rewrite app_string_cons, app_string_nil. }
  assert (Hc : content = String "?" (String "(" (expr ++ ")"))).
  { unfold content. by rewrite !app_string_cons, app_string_nil. }
  assert (Hcontent : slice 1 (S (String.length content)) bracket = content).
  { exact (slice_app "[" content "]"). }
  assert (Hexp : slice 2 (2 + String.length expr) content = expr).
  { exact (slice_app "?(" expr ")"). }
  assert (Hsuffix : drop (2 + String.length expr) content = ")").
  { unfold content. rewrite <- app_string_assoc.
    replace (2 + String.length expr)%nat with (String.length ("?(" ++ expr)).
    - apply drop_app_length.
    - by rewrite !app_string_cons, app_string_nil. }
  clearbody bracket. clearbody content.
  assert (Hlc : String.length content = (2 + String.length expr + 1)%nat).
  { rewrite Hc. simpl. rewrite length_app_string. simpl. lia. }
  assert (Hlb : String.length bracket = S (S (String.length content))).
  { rewrite Hb. simpl. rewrite length_app_string. simpl. lia. }
  (* the key *)
  intros Hfuel. rewrite length_app_string in Hfuel.
  destruct fuel as [|fuel]; [destruct key; [done|simpl in Hfuel; lia]|].
  assert (Hfuel' : (String.length bracket <= fuel)%nat).
  { destruct key; [done|]. simpl in Hfuel. lia. }
  cbn [applySegmentLoop].
  rewrite (eqb_app_plain key bracket Hne), (HasPrefix_plain _ _ _ Hne Hbr).
  rewrite Hb.
  rewrite (IndexByte_app _ _ _ Hbr), take_app_length, drop_app_length.
  rewrite Hnil, Hnum. unfold applyKey. rewrite Hnil.
  cbn [applyKeyStates psValue pointer].
  (* the bracket *)
  rewrite <- Hb.
  rewrite (applySegmentLoop_fuel E Sprintf_v fuel (String.length bracket))
    by done.
  rewrite Hlb. cbn [applySegmentLoop].
  assert (Hin : IndexByte "]" content = None).
  { rewrite Hc. simpl. by rewrite IndexByte_app_None. }
  assert (Hclose : IndexByte "]" bracket = Some (S (String.length content))).
  { rewrite Hb. cbn [IndexByte]. change (Ascii.eqb "[" "]") with false.
    cbv iota. by rewrite (IndexByte_app "]" content "" Hin). }
  assert (Hnb : String.eqb bracket "" = false) by by rewrite Hb.
  assert (Hpb : HasPrefix bracket "[" = true).
  { rewrite Hb. unfold HasPrefix. simpl. by destruct (content ++ "]"). }
  rewrite Hnb, Hpb, Hclose.
  assert (Hrest : drop (S (String.length content) + 1) bracket = "").
  { replace (S (String.length content) + 1)%nat with (String.length bracket)
      by lia.
    rewrite <- (app_string_nil_r bracket) at 2. apply drop_app_length. }
  rewrite Hcontent, Hrest.
  assert (Hpc : HasPrefix content "?(" = true).
  { rewrite Hc. unfold HasPrefix. simpl. by destruct (expr ++ ")"). }
  assert (Hsc : HasSuffix content ")" = true).
  { unfold HasSuffix. apply andb_true_intro. split.
    - apply Nat.leb_le. rewrite Hlc. simpl. lia.
    - replace (String.length content - String.length ")")%nat
        with (2 + String.length expr)%nat by (rewrite Hlc; simpl; lia).
      by rewrite Hsuffix. }
  replace (String.length content - 1)%nat with (2 + String.length expr)%nat
    by (rewrite Hlc; lia).
  rewrite Hpc, Hsc, Hexp. simpl andb. cbv iota.
  by destruct (applyFilter E Sprintf_v _ expr) as [e|found].
Qed.


Lemma matchesFilter_parses item expr :
  is_Some (filterExpr_FindStringSubmatch (TrimSpace expr)) ->
  exists matched, matchesFilter E Sprintf_v item expr = inr matched.
Proof.
  intros [[field expected] Hp]. unfold matchesFilter. rewrite Hp.
  destruct (lookup_path _ item) as [[]|]; by eexists.
Qed.

Lemma filterItems_pointers base expr idx arr :
  is_Some (filterExpr_FindStringSubmatch (TrimSpace expr)) ->
  exists states,
    filterItems E Sprintf_v base expr idx arr = inr states
    /\ pointer <$> states
       = (fun i => (base ++ [Itoa (Z.of_nat i)])%list)
           <$> selected_from E Sprintf_v idx expr arr.
Proof.
  intros Hp. revert idx. induction arr as [|item rest IH]; intros idx.
  { by exists []. }
  cbn [filterItems selected_from]. unfold selects.
  destruct (matchesFilter_parses item expr Hp) as [matched ->].
  destruct (IH (S idx)) as (next & -> & Hnext).
  destruct matched; eexists; (split; [done|]); [|done].
  cbn [fmap list_fmap pointer]. simpl. by rewrite <- Hnext.
Qed.

Lemma eqb_segment_dash (key t : string) :
  key <> "" -> t <> "" -> String.eqb (key ++ t) "-" = false.
Proof.
  intros Hk Ht. destruct (String.eqb_spec (key ++ t) "-") as [Heq|]; [|done].
  apply (f_equal String.length) in Heq. rewrite length_app_string in Heq.
  destruct key; [done|]. destruct t; [done|]. simpl in Heq. lia.
Qed.

(** The walk of [expandPaths] down a chain of plain keys, then through the
    filter on the array found there. *)
Lemma expandSegments_filter parents key expr base (m : object) items :
  Forall plain parents -> plain key -> IndexByte "]" expr = None ->
  is_Some (filterExpr_FindStringSubmatch (TrimSpace expr)) ->
  pointer_get (parents ++ [key])%list (VMap m) = Some (VList items) ->
  exists states,
    expandSegments E Sprintf_v (parents ++ [filter_segment key expr])%list
      [ {| pointer := base; psValue := VMap m |} ] = inr states
    /\ pointer <$> states
       = (fun i => (base ++ parents ++ [key; Itoa (Z.of_nat i)])%list)
           <$> selected_from E Sprintf_v 0 expr items.
Proof.
  intros Hparents Hkey Hexpr Hp. revert base m.
  induction Hparents as [|parent parents Hparent Hps IH]; intros base m.
  - cbn [app pointer_get].
    destruct (present (m !! key)) as [child|] eqn:Hc; [|done].
    apply present_Some in Hc as [Hc _]. intros [= ->].
    cbn [expandSegments expandStates]. unfold filter_segment.
    rewrite eqb_segment_dash by (done || apply Hkey).
    unfold applySegment. rewrite applySegmentLoop_filter by done.
    rewrite Hc. cbn [from_option id applyFilter psValue pointer].
    destruct (filterItems_pointers (base ++ [key]) expr 0 items Hp)
      as (found & -> & Hfound).
    rewrite !app_nil_r.
    exists found. split; [by destruct found|].
    rewrite Hfound. apply list_fmap_ext. intros _ i _.
    by rewrite <- app_assoc.
  - cbn [app pointer_get].
    destruct (present (m !! parent)) as [child|] eqn:Hc; [|done].
    apply present_Some in Hc as [Hc _]. intros Hg.
    assert (exists m', child = VMap m') as [m' ->].
    { destruct (parents ++ [key])%list as [|next more] eqn:Hn;
        [by destruct parents|].
      assert (Hnext : plain next).
      { destruct parents as [|p parents']; simpl in Hn.
        - by injection Hn as <- _.
        - injection Hn as <- _. by inversion Hps. }
      destruct child; try done; [|by eexists].
      simpl in Hg. destruct Hnext as (_ & _ & _ & _ & Hnum).
      by rewrite Hnum in Hg. }
    cbn [expandSegments expandStates].
    destruct Hparent as (Hne & Hnd & Hrest).
    destruct (String.eqb_spec parent "-") as [|_]; [done|].
    rewrite applySegment_key by done. rewrite Hc. cbn [from_option id app].
    destruct (IH (base ++ [parent])%list m' Hg) as (states & -> & Hstates).
    exists states. split; [done|]. rewrite Hstates.
    apply list_fmap_ext. intros _ i _. by rewrite <- app_assoc.
Qed.


Lemma Split_raw_keys key parents segment :
  IndexByte "/" key = None ->
  Forall plain parents -> IndexByte "/" segment = None ->
  Split "/" (key ++ raw_keys parents ++ String "/" segment)
  = (key :: parents ++ [segment])%list.
Proof.
  intros Hkey Hparents Hseg. revert key Hkey.
  induction Hparents as [|parent parents Hparent _ IH]; intros key Hkey.
  - cbn [raw_keys app]. rewrite app_string_nil, Split_app_sep by done.
    by rewrite Split_no_sep.
  - cbn [raw_keys app].
    rewrite (app_string_cons "/" ""), app_string_nil, app_string_cons.
    rewrite Split_app_sep by done. rewrite app_string_assoc.
    rewrite IH; [done|apply Hparent].
Qed.

Lemma filter_segment_no_slash key expr :
  plain key -> IndexByte "/" expr = None ->
  IndexByte "/" (filter_segment key expr) = None.
Proof.
  intros (_ & _ & Hs & _) He. unfold filter_segment.
  apply IndexByte_app_None; [done|].
  rewrite !app_string_cons, app_string_nil. simpl.
  by rewrite IndexByte_app_None.
Qed.

Lemma TrimPrefix_slash (s : string) : TrimPrefix (String "/" s) "/" = s.
Proof. unfold TrimPrefix, HasPrefix. simpl. by destruct s. Qed.

Lemma splitRawPath_filter_path parents key expr :
  Forall plain parents -> plain key -> IndexByte "/" expr = None ->
  filter_path parents key expr <> ""
  /\ splitRawPath (filter_path parents key expr)
     = (parents ++ [filter_segment key expr])%list.
Proof.
  intros Hparents Hkey Hexpr.
  pose proof (filter_segment_no_slash key expr Hkey Hexpr) as Hseg.
  assert (Hne : filter_segment key expr <> "").
  { unfold filter_segment. destruct Hkey as (Hne & _).
    destruct key; [done|]. by rewrite app_string_cons. }
  unfold filter_path, splitRawPath.
  rewrite (app_string_cons "/" ""), app_string_nil.
  destruct parents as [|parent parents].
  - cbn [raw_keys app]. rewrite app_string_nil. split; [done|].
    rewrite TrimPrefix_slash.
    destruct (String.eqb_spec (filter_segment key expr) "") as [|_]; [done|].
    change (String.eqb (String "/" (filter_segment key expr)) "") with false.
    cbv iota. by rewrite Split_no_sep.
  - cbn [raw_keys].
    rewrite (app_string_cons "/" ""), app_string_nil, app_string_cons.
    split; [done|]. rewrite TrimPrefix_slash.
    inversion Hparents as [|? ? Hparent Hrest]; subst.
    set (rest := (parent ++ raw_keys parents) ++ String "/" (filter_segment key expr)).
    change (String.eqb (String "/" rest) "") with false. cbv iota.
    assert (Hn : String.eqb rest "" = false).
    { unfold rest. destruct Hparent as (Hp & _). destruct parent; [done|].
      by rewrite !app_string_cons. }
    rewrite Hn. unfold rest. rewrite app_string_assoc.
    rewrite Split_raw_keys; [done|apply Hparent|done|done].
Qed.

Lemma expandPaths_selected (root : object) (parents : list string)
    (key expr : string) (items : list value) :
  Forall plain parents -> plain key ->
  IndexByte "/" expr = None -> IndexByte "]" expr = None ->
  is_Some (filterExpr_FindStringSubmatch (TrimSpace expr)) ->
  pointer_get (parents ++ [key])%list (VMap root) = Some (VList items) ->
  expandPaths E Sprintf_v root (filter_path parents key expr)
  = inr ((fun i => buildJSONPointer (parents ++ [key; Itoa (Z.of_nat i)])%list)
           <$> selected_from E Sprintf_v 0 expr items).
Proof.
  intros Hparents Hkey Hslash Hclose Hp Hg. unfold expandPaths.
  destruct (splitRawPath_filter_path parents key expr Hparents Hkey Hslash)
    as [Hne ->].
  destruct (String.eqb_spec (filter_path parents key expr) "") as [|_]; [done|].
  destruct (expandSegments_filter parents key expr [] root items
              Hparents Hkey Hclose Hp Hg) as (states & -> & Hstates).
  f_equal. transitivity (buildJSONPointer <$> (pointer <$> states)).
  - by rewrite <- list_fmap_compose.
  - by rewrite Hstates, <- list_fmap_compose.
Qed.


Lemma selected_from_elem idx expr items (i : nat) :
  i ∈ selected_from E Sprintf_v idx expr items
  <-> exists item, (idx <= i)%nat /\ items !! (i - idx)%nat = Some item
                   /\ selects E Sprintf_v expr item = true.
Proof.
  revert idx. induction items as [|item rest IH]; intros idx.
  { split; [by intros ?%elem_of_nil|by intros (? & _ & ? & _)]. }
  cbn [selected_from].
  assert (Hrest : i ∈ selected_from E Sprintf_v (S idx) expr rest
                  <-> exists x, (idx < i)%nat
                                /\ (item :: rest) !! (i - idx)%nat = Some x
                                /\ selects E Sprintf_v expr x = true).
  { rewrite IH. split.
    - intros (x & Hle & Hx & Hs). exists x. split; [lia|]. split; [|done].
      replace (i - idx)%nat with (S (i - S idx)) by lia. done.
    - intros (x & Hle & Hx & Hs). exists x. split; [lia|]. split; [|done].
      replace (i - idx)%nat with (S (i - S idx)) in Hx by lia. done. }
  destruct (selects E Sprintf_v expr item) eqn:Hsel.
  - rewrite elem_of_cons, Hrest. split.
    + intros [->|(x & Hlt & Hx & Hs)].
      * exists item. rewrite Nat.sub_diag. by split_and!.
      * exists x. split_and!; [lia|done..].
    + intros (x & Hle & Hx & Hs).
      destruct (decide (i = idx)) as [->|Hne]; [by left|].
      right. exists x. split_and!; [lia|done..].
  - rewrite Hrest. split.
    + intros (x & Hlt & Hx & Hs). exists x. split_and!; [lia|done..].
    + intros (x & Hle & Hx & Hs).
      destruct (decide (i = idx)) as [->|Hne].
      * rewrite Nat.sub_diag in Hx. injection Hx as <-. congruence.
      * exists x. split_and!; [lia|done..].
Qed.

Lemma pointer_get_app (a b : list string) (current : value) :
  pointer_get (a ++ b) current = pointer_get a current ≫= pointer_get b.
Proof.
  revert current. induction a as [|seg a IH]; intros current; [done|].
  cbn [app pointer_get].
  destruct current as [| | | | |node|node]; try done.
  - destruct (Atoi seg) as [index|]; [|done].
    by destruct ((index <? 0) || (Z.of_nat (length node) <=? index)).
  - by destruct (present (node !! seg)).
Qed.

(** X15. A path that goes down a chain of keys to an array and ends in one
    filter expands to one pointer for every element the filter selects, in
    the order of the array, and to nothing else; every pointer, split and
    walked from the root, leads to the element it was made for. *)
Theorem expandPaths_filter (root : object) (parents : list string)
    (key expr : string) (items : list value) :
  Forall plain parents -> plain key ->
  IndexByte "/" expr = None -> IndexByte "]" expr = None ->
  is_Some (filterExpr_FindStringSubmatch (TrimSpace expr)) ->
  pointer_get (parents ++ [key])%list (VMap root) = Some (VList items) ->
  Z.of_nat (length items) <= 2 ^ 63 ->
  let pointer_of i :=
    buildJSONPointer (parents ++ [key; Itoa (Z.of_nat i)])%list in
  let selected := selected_from E Sprintf_v 0 expr items in
  expandPaths E Sprintf_v root (filter_path parents key expr)
  = inr (pointer_of <$> selected)
  /\ (forall i, i ∈ selected <->
        exists item, items !! i = Some item
                     /\ matchesFilter E Sprintf_v item expr = inr true)
  /\ (forall i item, items !! i = Some item ->
        pointer_get (splitPointer (pointer_of i)) (VMap root) = Some item).
Proof.
  intros Hparents Hkey Hslash Hclose Hp Hg Hlen pointer_of selected.
  split_and!.
  - by apply expandPaths_selected.
  - intros i. unfold selected. rewrite selected_from_elem.
    rewrite Nat.sub_0_r. unfold selects. split.
    + intros (item & _ & Hitem & Hsel). exists item. split; [done|].
      by destruct (matchesFilter E Sprintf_v item expr) as [|[]].
    + intros (item & Hitem & Hsel). exists item.
      split_and!; [lia|done|by rewrite Hsel].
  - intros i item Hitem. unfold pointer_of. rewrite splitPointer_written.
    replace (parents ++ [key; Itoa (Z.of_nat i)])%list
      with ((parents ++ [key]) ++ [Itoa (Z.of_nat i)])%list
      by by rewrite <- app_assoc.
    rewrite pointer_get_app, Hg. cbn [mbind option_bind pointer_get].
    pose proof (lookup_lt_Some _ _ _ Hitem) as Hi.
    rewrite Atoi_Itoa by lia.
    assert (Hb : (Z.of_nat i <? 0) || (Z.of_nat (length items) <=? Z.of_nat i)
                 = false).
    { apply orb_false_iff. split; [apply Z.ltb_ge|apply Z.leb_gt]; lia. }
    by rewrite Hb, Nat2Z.id, Hitem.
Qed.

(** *** Writing where the filter selects *)

Lemma pointer_get_container seg rest current parent :
  pointer_get (seg :: rest) current = Some parent ->
  (exists node, current = VMap node) \/ (exists node, current = VList node).
Proof. destruct current; try done; intros _; [right|left]; by eexists. Qed.

Lemma pointer_set_not_nil segs x current parent :
  x <> VNil -> pointer_get segs current = Some parent ->
  pointer_set segs x current <> VNil.
Proof.
  intros Hx. destruct segs as [|seg rest]; [done|].
  intros Hg. destruct (pointer_get_container _ _ _ _ Hg) as [[node ->]|[node ->]].
  - done.
  - simpl. by destruct (Atoi seg).
Qed.

Lemma pointer_get_set segs x current parent :
  x <> VNil -> pointer_get segs current = Some parent ->
  pointer_get segs (pointer_set segs x current) = Some x.
Proof.
  intros Hx. revert current.
  induction segs as [|seg rest IH]; intros current; [done|].
  cbn [pointer_get pointer_set].
  destruct current as [| | | | |node|node]; try done.
  - destruct (Atoi seg) as [index|] eqn:Ha; [|done].
    destruct ((index <? 0) || (Z.of_nat (length node) <=? index)) eqn:Hb; [done|].
    intros Hg. cbn [pointer_get]. rewrite ?Ha, length_insert, Hb.
    rewrite list_lookup_insert_eq by by apply in_range.
    cbn [from_option id]. by apply IH.
  - destruct (present (node !! seg)) as [child|] eqn:Hp; [|done].
    apply present_Some in Hp as [Hc _]. intros Hg.
    rewrite Hc, lookup_insert_eq. cbn [from_option id].
    rewrite present_not_nil by by eapply pointer_set_not_nil.
    by apply IH.
Qed.

Lemma pointer_set_set segs x y current parent :
  pointer_get segs current = Some parent ->
  pointer_set segs x (pointer_set segs y current) = pointer_set segs x current.
Proof.
  revert current. induction segs as [|seg rest IH]; intros current; [done|].
  cbn [pointer_get pointer_set].
  destruct current as [| | | | |node|node]; try done.
  - destruct (Atoi seg) as [index|] eqn:Ha; [|done].
    destruct ((index <? 0) || (Z.of_nat (length node) <=? index)) eqn:Hb; [done|].
    intros Hg. cbn [pointer_set]. rewrite ?Ha.
    rewrite list_lookup_insert_eq by by apply in_range.
    cbn [from_option id]. by rewrite (IH _ Hg), list_insert_insert_eq.
  - destruct (present (node !! seg)) as [child|] eqn:Hp; [|done].
    apply present_Some in Hp as [Hc _]. intros Hg.
    rewrite Hc, lookup_insert_eq. cbn [from_option id].
    by rewrite (IH _ Hg), insert_insert_eq.
Qed.

Lemma pointer_set_id segs current parent :
  pointer_get segs current = Some parent ->
  pointer_set segs parent current = current.
Proof.
  revert current. induction segs as [|seg rest IH]; intros current.
  { by intros [= ->]. }
  cbn [pointer_get pointer_set].
  destruct current as [| | | | |node|node]; try done.
  - destruct (Atoi seg) as [index|] eqn:Ha; [|done].
    destruct ((index <? 0) || (Z.of_nat (length node) <=? index)) eqn:Hb; [done|].
    intros Hg. rewrite (IH _ Hg).
    by rewrite list_default_insert_id by by apply in_range.
  - destruct (present (node !! seg)) as [child|] eqn:Hp; [|done].
    apply present_Some in Hp as [Hc _]. intros Hg.
    rewrite Hc. cbn [from_option id]. by rewrite (IH _ Hg), insert_id.
Qed.

Lemma pointer_set_object segs x (root : object) :
  segs <> [] -> exists root', pointer_set segs x (VMap root) = VMap root'.
Proof. destruct segs; [done|]. by eexists. Qed.

(** One merge at one element of the array found at [path]. *)
Lemma mergeShallowAtPointer_index (root : object) path (i : nat) items
    (overlay : object) :
  path <> [] ->
  pointer_get path (VMap root) = Some (VList items) ->
  (i < length items)%nat -> Z.of_nat (length items) <= 2 ^ 63 ->
  exists root',
    mergeShallowAtPointer E root
      (buildJSONPointer (path ++ [Itoa (Z.of_nat i)])%list) overlay
    = (root', None)
    /\ VMap root'
       = pointer_set path
           (VList (<[i := mergeShallowEntry (items !! i) overlay]> items))
           (VMap root).
Proof.
  intros Hpath Hg Hi Hlen. unfold mergeShallowAtPointer.
  rewrite (splitPointer_snoc E _ path (Itoa (Z.of_nat i)))
    by apply splitPointer_written.
  rewrite (navigate_existing E _ _ _ _ _ _ _ _ Hg).
  unfold mergeShallowParent.
  rewrite Itoa_not_dash, Atoi_Itoa by lia.
  assert (Hb : (Z.of_nat i <? 0) || (Z.of_nat (length items) <=? Z.of_nat i)
               = false).
  { apply orb_false_iff. split; [apply Z.ltb_ge|apply Z.leb_gt]; lia. }
  rewrite Hb, Nat2Z.id. cbn [fst snd].
  destruct (pointer_set_object path
              (VList (<[i := mergeShallowEntry (items !! i) overlay]> items))
              root Hpath) as [root' Hr].
  exists root'. by rewrite Hr.
Qed.

Lemma mergeResolved_indices path (overlay : object) sel :
  path <> [] ->
  forall (root : object) items,
    pointer_get path (VMap root) = Some (VList items) ->
    Forall (fun i => (i < length items)%nat) sel ->
    Z.of_nat (length items) <= 2 ^ 63 ->
    exists root',
      mergeResolved E overlay
        ((fun i => buildJSONPointer (path ++ [Itoa (Z.of_nat i)])%list) <$> sel)
        root = (root', None)
      /\ VMap root'
         = pointer_set path
             (VList (foldl (fun its i =>
                              <[i := mergeShallowEntry (its !! i) overlay]> its)
                       items sel))
             (VMap root).
Proof.
  intros Hpath. induction sel as [|i sel IH]; intros root items Hg Hsel Hlen.
  { exists root. split; [done|]. simpl. by rewrite (pointer_set_id _ _ _ Hg). }
  inversion Hsel as [|? ? Hi Hrest]; subst.
  cbn [fmap list_fmap mergeResolved foldl].
  destruct (mergeShallowAtPointer_index root path i items overlay
              Hpath Hg Hi Hlen) as (root1 & Hm & Hroot1).
  change (list_fmap _ _ ?f sel) with (f <$> sel).
  rewrite Hm.
  set (items1 := <[i := mergeShallowEntry (items !! i) overlay]> items) in *.
  assert (Hg1 : pointer_get path (VMap root1) = Some (VList items1)).
  { rewrite Hroot1. by eapply pointer_get_set. }
  destruct (IH root1 items1 Hg1) as (root' & Hr & Hroot').
  - unfold items1. by rewrite length_insert.
  - unfold items1. by rewrite length_insert.
  - exists root'. split; [done|].
    by rewrite Hroot', Hroot1, (pointer_set_set _ _ _ _ _ Hg).
Qed.

Lemma selected_from_bound idx expr items :
  Forall (fun i => (idx <= i < idx + length items)%nat)
    (selected_from E Sprintf_v idx expr items).
Proof.
  revert idx. induction items as [|item rest IH]; intros idx; [done|].
  cbn [selected_from length].
  assert (Hrest : Forall (fun i => (idx <= i < idx + S (length rest))%nat)
                    (selected_from E Sprintf_v (S idx) expr rest)).
  { eapply Forall_impl; [apply IH|]. simpl. lia. }
  destruct (selects E Sprintf_v expr item); [|done].
  constructor; [lia|done].
Qed.

(** Merging at the selected positions one after the other is merging into
    every selected element. *)
Lemma foldl_selected expr (overlay : object) (items pre : list value) :
  foldl (fun its i => <[i := mergeShallowEntry (its !! i) overlay]> its)
    (pre ++ items)%list (selected_from E Sprintf_v (length pre) expr items)
  = (pre ++ merge_selected E Sprintf_v expr overlay items)%list.
Proof.
  revert pre. induction items as [|item rest IH]; intros pre; [done|].
  cbn [selected_from merge_selected fmap list_fmap].
  change (list_fmap _ _ ?f rest) with (f <$> rest).
  fold (merge_selected E Sprintf_v expr overlay rest).
  specialize (IH (pre ++ [if selects E Sprintf_v expr item
                          then mergeShallowEntry (Some item) overlay
                          else item])%list).
  rewrite length_app, <- app_assoc in IH. simpl in IH.
  replace (length pre + 1)%nat with (S (length pre)) in IH by lia.
  destruct (selects E Sprintf_v expr item).
  - cbn [foldl]. rewrite list_lookup_middle by done.
    rewrite insert_app_r_alt, Nat.sub_diag by done.
    rewrite <- app_assoc in IH. exact IH.
  - rewrite <- app_assoc in IH. exact IH.
Qed.

(** X16. [mergeShallow] on a path that goes down a chain of keys to an array
    and ends in one filter merges the value into every element the filter
    selects (a selected element that is no object is replaced by a copy of
    the value), leaves the others as they are, and changes nothing else in
    the document. *)
Theorem mergeShallow_filter (root : object) (parents : list string)
    (key expr : string) (items : list value) (overlay : object) :
  Forall plain parents -> plain key ->
  IndexByte "/" expr = None -> IndexByte "]" expr = None ->
  is_Some (filterExpr_FindStringSubmatch (TrimSpace expr)) ->
  pointer_get (parents ++ [key])%list (VMap root) = Some (VList items) ->
  Z.of_nat (length items) <= 2 ^ 63 ->
  exists root',
    applyMergeShallow E Sprintf_v root (filter_path parents key expr)
      (VMap overlay) = (root', None)
    /\ VMap root'
       = pointer_set (parents ++ [key])%list
           (VList (merge_selected E Sprintf_v expr overlay items)) (VMap root).
Proof.
  intros Hparents Hkey Hslash Hclose Hp Hg Hlen. unfold applyMergeShallow.
  rewrite (expandPaths_selected root parents key expr items) by done.
  set (sel := selected_from E Sprintf_v 0 expr items).
  assert (Hpointers :
            (fun i => buildJSONPointer (parents ++ [key; Itoa (Z.of_nat i)])%list)
              <$> sel
            = (fun i => buildJSONPointer
                          ((parents ++ [key]) ++ [Itoa (Z.of_nat i)])%list)
                <$> sel).
  { apply list_fmap_ext. intros _ i _. by rewrite <- app_assoc. }
  rewrite Hpointers.
  destruct (mergeResolved_indices (parents ++ [key])%list overlay sel)
    with (root := root) (items := items) as (root' & Hm & Hroot'); try done.
  { by destruct parents. }
  { eapply Forall_impl; [apply selected_from_bound|]. simpl. lia. }
  exists root'. split.
  - rewrite <- Hm. clear Hm.
    generalize ((fun i => buildJSONPointer
                            ((parents ++ [key]) ++ [Itoa (Z.of_nat i)])%list)
                  <$> sel).
    by intros [|pointer pointers].
  - rewrite Hroot'. unfold sel.
    pose proof (foldl_selected expr overlay items []) as Hfold.
    simpl in Hfold. by rewrite Hfold.
Qed.

End filter_paths.

(** ** Template functions *)

Section template_functions.
Import Str Hash Template.

Variable GenerateK8sNameWithLengthLimit : Z -> list string -> string.
Variable MaxResourceNameLength : Z.

Lemma maps_Copy_union (dst src : object) : maps_Copy dst src = src ∪ dst.
Proof.
  unfold maps_Copy.
  apply (map_fold_weak_ind (fun (r : object) (m : object) => r = m ∪ dst)).
  - by rewrite (left_id_L ∅ (∪)).
  - intros k v m r Hk ->. by rewrite insert_union_l.
Qed.

Lemma mergeMapFunction_union (a b : object) :
  mergeMapFunction (VMap a) (VMap b) = b ∪ a.
Proof.
  unfold mergeMapFunction. rewrite !maps_Copy_union.
  by rewrite (right_id_L ∅ (∪)).
Qed.

Lemma union_list_objects (l1 l2 : list object) :
  ⋃ (l1 ++ l2) = ⋃ l1 ∪ ⋃ l2.
Proof.
  induction l1 as [|m l1 IH]; simpl.
  - by rewrite (left_id_L ∅ (∪)).
  - by rewrite IH, (assoc_L (∪)).
Qed.

Lemma eval_fold_left (rest : list object) (e : merge_expr) (acc : object) :
  eval e = VMap acc ->
  eval (fold_left (fun result arg => Call result arg) (Arg <$> (VMap <$> rest)) e)
  = VMap (⋃ (reverse rest) ∪ acc).
Proof.
  revert e acc. induction rest as [|m rest IH]; intros e acc He.
  { simpl. by rewrite He, (left_id_L ∅ (∪)). }
  cbn [fmap list_fmap fold_left].
  change (list_fmap _ _ ?f (list_fmap _ _ ?g rest)) with (f <$> (g <$> rest)).
  rewrite (IH _ (m ∪ acc)).
  - rewrite reverse_cons, union_list_objects. simpl.
    by rewrite (right_id_L ∅ (∪)), (assoc_L (∪)).
  - cbn [eval]. by rewrite He, mergeMapFunction_union.
Qed.

(** X17. [oc_merge] of two or more maps is their union in which, at a key
    bound by several arguments, the last of them wins; nested maps are
    replaced, not merged.  With fewer than two arguments it is an error. *)
Theorem oc_merge_last_wins (args : list object) :
  oc_merge (VMap <$> args)
  = if bool_decide (2 <= length args)%nat
    then Some (VMap (⋃ (reverse args))) else None.
Proof.
  destruct args as [|a [|b rest]]; [done..|].
  rewrite bool_decide_eq_true_2 by (simpl; lia).
  assert (Hab : eval (Call (Arg (VMap a)) (Arg (VMap b))) = VMap (b ∪ a)).
  { cbn [eval]. by rewrite mergeMapFunction_union. }
  assert (Hr : ⋃ (reverse (a :: b :: rest)) = ⋃ (reverse rest) ∪ (b ∪ a)).
  { rewrite !reverse_cons, !union_list_objects. simpl.
    by rewrite !(right_id_L ∅ (∪)), (assoc_L (∪)). }
  rewrite Hr. destruct rest as [|c rest].
  - unfold oc_merge. cbn [fmap list_fmap mergeMacro]. rewrite Hab.
    simpl. by rewrite (left_id_L ∅ (∪)).
  - unfold oc_merge.
    change (mergeMacro (Arg <$> (VMap <$> a :: b :: c :: rest)))
      with (Expanded (fold_left (fun result arg => Call result arg)
                        (Arg <$> (VMap <$> c :: rest))
                        (Call (Arg (VMap a)) (Arg (VMap b))))).
    cbv beta iota.
    by rewrite (eval_fold_left (c :: rest) _ (b ∪ a) Hab).
Qed.

(** X18. [oc_generate_name] reads only the strings of a list: items that are
    not strings change nothing, and a single string is named as the list
    that holds just that string. *)
Theorem generateK8sName_strings (items : list value) (s : string) :
  generateK8sName GenerateK8sNameWithLengthLimit MaxResourceNameLength
    (VList items)
  = generateK8sName GenerateK8sNameWithLengthLimit MaxResourceNameLength
      (VList (VStr <$> omap string_item items))
  /\ generateK8sName GenerateK8sNameWithLengthLimit MaxResourceNameLength (VStr s)
     = generateK8sName GenerateK8sNameWithLengthLimit MaxResourceNameLength
         (VList [VStr s]).
Proof.
  split; [|done].
  unfold generateK8sName. f_equal.
  induction items as [|item items IH]; [done|].
  destruct item; simpl; first [exact IH|f_equal; exact IH].
Qed.

Lemma entry_names (entry1 entry2 : object -> option value) (files : list value) :
  (forall fileMap, entry_name <$> entry1 fileMap = entry_name <$> entry2 fileMap) ->
  entry_name <$> omap (fun fileAny => match fileAny with
                                      | VMap fileMap => entry1 fileMap
                                      | _ => None
                                      end) files
  = entry_name <$> omap (fun fileAny => match fileAny with
                                        | VMap fileMap => entry2 fileMap
                                        | _ => None
                                        end) files.
Proof.
  intros Hentry. induction files as [|file files IH]; [done|].
  cbn [omap list_omap].
  change (list_omap _ _ ?f files) with (omap f files).
  destruct file as [| | | | | |fileMap]; try done.
  specialize (Hentry fileMap).
  destruct (entry1 fileMap), (entry2 fileMap); simplify_eq/=; try done.
  by f_equal.
Qed.

Lemma fileEntries_names containerConfigs section
    (entry1 entry2 : object -> option value) :
  (forall fileMap, entry_name <$> entry1 fileMap = entry_name <$> entry2 fileMap) ->
  entry_name <$> fileEntries containerConfigs section entry1
  = entry_name <$> fileEntries containerConfigs section entry2.
Proof.
  intros Hentry. unfold fileEntries.
  destruct (containerConfigs !! section) as [[| | | | | |sectionMap]|]; try done.
  destruct (sectionMap !! "files") as [[| | | | |filesList|]|]; try done.
  by apply entry_names.
Qed.

Lemma fileEntries_paths containerConfigs section :
  entry_name <$> fileEntries containerConfigs section generateVolumeMountEntry
  = volume_name <$> omap file_path (section_files (VMap containerConfigs) section).
Proof.
  unfold fileEntries, section_files.
  destruct (containerConfigs !! section) as [[| | | | | |sectionMap]|]; try done.
  destruct (sectionMap !! "files") as [[| | | | |filesList|]|]; try done.
  induction filesList as [|file files IH]; [done|].
  cbn [omap list_omap].
  change (list_omap _ _ ?f files) with (omap f files).
  destruct file as [| | | | | |fileMap]; try exact IH.
  unfold generateVolumeMountEntry, file_path at 1.
  destruct (fileMap !! "name") as [[]|], (fileMap !! "mountPath") as [[]|];
    try exact IH.
  cbn [fmap list_fmap]. f_equal. exact IH.
Qed.

(** X19. The volumes and the volume mounts generated for a container's
    configurations name the same volumes in the same order: the i-th mount
    refers to the i-th volume, and one list is empty when the other is.  The
    names are, for the config files and then the secret files that are maps
    with a string [name] and a string [mountPath], in the order of the
    lists, [file-mount-] followed by the [oc_hash] of [mountPath/name]; any
    other file entry gives no volume. *)
Theorem volumes_match_volumeMounts (containerConfigsVal : value)
    (metadataName : string) :
  entry_name <$> generateVolumeMountsForContainer containerConfigsVal
  = entry_name <$> generateVolumesForContainer GenerateK8sNameWithLengthLimit
                     MaxResourceNameLength containerConfigsVal metadataName
  /\ entry_name <$> generateVolumeMountsForContainer containerConfigsVal
     = volume_name
         <$> (omap file_path (section_files containerConfigsVal "configs")
              ++ omap file_path (section_files containerConfigsVal "secrets"))%list.
Proof.
  destruct containerConfigsVal as [| | | | | |containerConfigs]; try done.
  unfold generateVolumeMountsForContainer, generateVolumesForContainer.
  split.
  - rewrite !fmap_app. f_equal; apply fileEntries_names; intros fileMap.
    + unfold generateVolumeMountEntry, generateConfigMapVolumeEntry.
      by destruct (fileMap !! "name") as [[]|],
                  (fileMap !! "mountPath") as [[]|].
    + unfold generateVolumeMountEntry, generateSecretVolumeEntry.
      by destruct (fileMap !! "name") as [[]|],
                  (fileMap !! "mountPath") as [[]|].
  - by rewrite !fmap_app, !fileEntries_paths.
Qed.

Lemma app_string_snoc_inj (s t : string) (c d : ascii) :
  s ++ String c "" = t ++ String d "" -> s = t /\ c = d.
Proof.
  revert t. induction s as [|a s IH]; intros [|b t];
    rewrite ?app_string_nil, ?app_string_cons.
  - by intros [= ->].
  - intros [= -> H]. destruct t; discriminate H.
  - intros [= -> H]. destruct s; discriminate H.
  - intros [= -> H]. by destruct (IH _ H) as [-> ->].
Qed.

Lemma digit_inj (d1 d2 : Z) :
  0 <= d1 < 16 -> 0 <= d2 < 16 -> digit d1 = digit d2 -> d1 = d2.
Proof.
  intros H1 H2.
  assert (Hc1 : d1 = 0 \/ d1 = 1 \/ d1 = 2 \/ d1 = 3 \/ d1 = 4 \/ d1 = 5
                \/ d1 = 6 \/ d1 = 7 \/ d1 = 8 \/ d1 = 9 \/ d1 = 10 \/ d1 = 11
                \/ d1 = 12 \/ d1 = 13 \/ d1 = 14 \/ d1 = 15) by lia.
  assert (Hc2 : d2 = 0 \/ d2 = 1 \/ d2 = 2 \/ d2 = 3 \/ d2 = 4 \/ d2 = 5
                \/ d2 = 6 \/ d2 = 7 \/ d2 = 8 \/ d2 = 9 \/ d2 = 10 \/ d2 = 11
                \/ d2 = 12 \/ d2 = 13 \/ d2 = 14 \/ d2 = 15) by lia.
  clear H1 H2.
  repeat (destruct Hc1 as [->|Hc1]);
    repeat (destruct Hc2 as [->|Hc2]); subst;
    first [reflexivity|intros H; vm_compute in H; discriminate H].
Qed.

Lemma nibbles_inj k (u v : Z) :
  0 <= u < 16 ^ Z.of_nat k -> 0 <= v < 16 ^ Z.of_nat k ->
  nibbles k u = nibbles k v -> u = v.
Proof.
  revert u v. induction k as [|k IH]; intros u v Hu Hv.
  { simpl in *. lia. }
  rewrite Nat2Z.inj_succ, Z.pow_succ_r in Hu, Hv by lia.
  cbn [nibbles]. intros [Hhigh Hlow]%app_string_snoc_inj.
  apply digit_inj in Hlow; [|by apply Z.mod_pos_bound..].
  apply IH in Hhigh.
  - rewrite (Z.div_mod u 16), (Z.div_mod v 16) by lia. lia.
  - split; [apply Z.div_pos; lia|apply Z.div_lt_upper_bound; lia].
  - split; [apply Z.div_pos; lia|apply Z.div_lt_upper_bound; lia].
Qed.

(** X20. Two inputs get the same [oc_hash] exactly when their FNV-1a digests
    are equal: writing the digest in hexadecimal adds no collisions. *)
Theorem oc_hash_collisions (a b : string) :
  oc_hash a = oc_hash b <-> Sum32 (bytes a) = Sum32 (bytes b).
Proof.
  split; [|unfold oc_hash; by intros ->].
  unfold oc_hash.
  rewrite !Sprintf_08x_nibbles by apply Sum32_range.
  apply nibbles_inj; change (16 ^ Z.of_nat 8) with (2 ^ 32); apply Sum32_range.
Qed.

End template_functions.

(** ** API versions *)

Section api_versions.
Import Str Patch.

Lemma IndexByte_split c (s : string) (i : nat) :
  IndexByte c s = Some i ->
  s = take i s ++ String c (drop (i + 1) s) /\ IndexByte c (take i s) = None.
Proof.
  revert i. induction s as [|d s IH]; intros i; [done|]. simpl.
  destruct (Ascii.eqb_spec d c) as [->|Hne].
  - intros [= <-]. by rewrite app_string_nil.
  - destruct (IndexByte c s) as [j|] eqn:Hj; [|done].
    intros [= <-]. destruct (IH j eq_refl) as [Hs Hn]. simpl.
    rewrite app_string_cons, <- Hs. split; [done|].
    destruct (Ascii.eqb_spec d c) as [|_]; [done|]. by rewrite Hn.
Qed.

(** X21. [splitAPIVersion] cuts an apiVersion at its first slash: the group
    has no slash and group, slash and version put together give the
    apiVersion back; without a slash the group is empty and the version is
    the whole apiVersion. *)
Theorem splitAPIVersion_parts (apiVersion : string) :
  let '(group, version) := splitAPIVersion apiVersion in
  IndexByte "/" group = None
  /\ match IndexByte "/" apiVersion with
     | Some _ => apiVersion = group ++ "/" ++ version
     | None => group = "" /\ version = apiVersion
     end.
Proof.
  unfold splitAPIVersion.
  destruct (String.eqb_spec apiVersion "") as [->|_]; [done|].
  destruct (IndexByte "/" apiVersion) as [i|] eqn:Hi; [|done].
  destruct (IndexByte_split _ _ _ Hi) as [Hs Hn]. split; [done|].
  by rewrite (app_string_cons "/" ""), app_string_nil.
Qed.

End api_versions.

(** ** Addon contexts from a snapshot *)

Section addon_snapshot.
Import Ctx Schema Builder Snapshot.

Variable E : Type.
Variable json_Unmarshal : string -> E + object.
Variable ToStructural : list object -> E + Structural.

(** X22. An addon context built from a snapshot describes the snapshot's
    component and environment and the given addon and instance, and binds no
    [workload]; a nil snapshot or a nil addon is refused before the builder
    runs, the snapshot first. *)
Theorem BuildAddonFromSnapshot_binds (snapshot : option ComponentEnvSnapshot)
    (addon : option Addon) (instance : ComponentAddon)
    (settings : option EnvSettings) (additionalMetadata : gmap string string) :
  (snapshot = None ->
   BuildAddonFromSnapshot E json_Unmarshal ToStructural snapshot addon instance
     settings additionalMetadata = inl (ErrSnapshotNil E))
  /\ (is_Some snapshot -> addon = None ->
      BuildAddonFromSnapshot E json_Unmarshal ToStructural snapshot addon
        instance settings additionalMetadata = inl (ErrSnapshotAddonNil E))
  /\ (forall ctx,
        BuildAddonFromSnapshot E json_Unmarshal ToStructural snapshot addon
          instance settings additionalMetadata = inr ctx ->
        exists sn a,
          snapshot = Some sn /\ addon = Some a
          /\ ctx !! "addon"
             = Some (VMap {[ "name" := VStr (aName a);
                             "instanceId" := VStr (InstanceID instance) ]})
          /\ ctx !! "component" = Some (componentMeta (snComponent sn))
          /\ ctx !! "workload" = None
          /\ (is_Some (ctx !! "environment") <-> snEnvironment sn <> "")).
Proof.
  split_and!.
  - by intros ->.
  - by intros [sn ->] ->.
  - intros ctx. unfold BuildAddonFromSnapshot.
    destruct snapshot as [sn|]; [|done]. destruct addon as [a|]; [|done].
    destruct (BuildAddonContext _ _ _ _) as [|ctx'] eqn:Hb; [done|].
    intros [= <-]. exists sn, a.
    apply BuildAddonContext_inr in Hb
      as (a' & c' & structural & declared & overrides
          & [= <-] & [= <-] & _ & _ & _ & ->).
    match goal with
    | |- context [addonContextTail ?i ?x ?c ?m] =>
        destruct (addonContextTail_lookup E json_Unmarshal i x c m)
          as (Haddon & Hcomp & Hw & Henv)
    end.
    { rewrite dom_insert_L, dom_empty_L. set_solver. }
    assert (Hiff : is_Some (if bool_decide (snEnvironment sn = "") then None
                            else Some (VStr (snEnvironment sn)))
                   <-> snEnvironment sn <> "").
    { destruct (decide (snEnvironment sn = "")) as [Hd|Hd].
      - rewrite bool_decide_eq_true_2 by done.
        split; [by intros []%is_Some_None|done].
      - rewrite bool_decide_eq_false_2 by done.
        split; [done|by eexists]. }
    rewrite Henv. cbn [aiEnvironment]. by split_and!.
Qed.

End addon_snapshot.

(** ** Specifications that select nothing, operations in sequence *)

Section spec_loops.
Import Str Patch.

Variable E : Type.
Variable Sprintf_v : value -> string.
Variable jsonpatch_Apply : string -> string -> option value -> object -> E + object.
Variable spec : PatchSpec.
Variable render : RenderFunc E.
Variable isMissingData : MissingDataChecker E.

Lemma forTargets_none targets (resources : list object) (inputs : object) :
  Where (Target spec) <> "" ->
  (forall i r, i ∈ targets -> resources !! i = Some r ->
     render (VStr (Where (Target spec))) (<["resource" := VMap r]> inputs)
     = inr (VBool false)) ->
  forTargets E Sprintf_v jsonpatch_Apply spec render isMissingData
    targets resources inputs = (resources, inputs, None).
Proof.
  intros Hw. induction targets as [|idx rest IH]; intros Hfalse; [done|].
  cbn [forTargets].
  destruct (resources !! idx) as [target|] eqn:Ht.
  - unfold matchTarget.
    destruct (String.eqb_spec (Where (Target spec)) "") as [|_]; [done|].
    rewrite (Hfalse idx target) by (done || by left).
    rewrite restore_insert. apply IH. intros i r Hi. apply Hfalse. by right.
  - apply IH. intros i r Hi. apply Hfalse. by right.
Qed.

(** X23. A specification without [forEach] whose [where] renders to false on
    every resource that [FindTargetResources] selects is a no-op: the
    resources and the context come back as they were, with no error. *)
Theorem ApplySpec_where_false (resources : list object) (inputs : object) :
  ForEach spec = "" ->
  Where (Target spec) <> "" ->
  (forall i r, i ∈ FindTargetResources resources (Target spec) ->
     resources !! i = Some r ->
     render (VStr (Where (Target spec))) (<["resource" := VMap r]> inputs)
     = inr (VBool false)) ->
  ApplySpec E Sprintf_v jsonpatch_Apply spec render isMissingData resources inputs
  = (resources, inputs, None).
Proof.
  intros Hf Hw Hfalse. unfold ApplySpec.
  destruct (Operations spec) as [|op ops]; [done|].
  rewrite Hf. cbn [String.eqb negb]. by apply forTargets_none.
Qed.

(** X24. The operations of a specification run in sequence on one target:
    running [ops1 ++ ops2] is running [ops1] and then, if none of them failed,
    [ops2] on the target as [ops1] left it; after a failure nothing more is
    run. *)
Theorem runOperations_app (ops1 ops2 : list JSONPatchOperation)
    (target : object) (baseInputs : object) :
  runOperations E Sprintf_v jsonpatch_Apply render (ops1 ++ ops2) target baseInputs
  = match runOperations E Sprintf_v jsonpatch_Apply render ops1 target baseInputs with
    | (target1, None) =>
        runOperations E Sprintf_v jsonpatch_Apply render ops2 target1 baseInputs
    | (target1, Some err) => (target1, Some err)
    end.
Proof.
  revert target. induction ops1 as [|op ops1 IH]; intros target; [done|].
  cbn [app runOperations].
  destruct (ApplyOperation E Sprintf_v jsonpatch_Apply target op _ render)
    as [target1 [err|]]; [done|].
  apply IH.
Qed.

End spec_loops.

(** ** The two traversals create the same containers *)

Section created_parents.
Import Str Patch.

Variable E : Type.

Lemma determineNextContainerType_next pre seg rest last next more :
  (rest ++ [last])%list = next :: more ->
  determineNextContainerType (pre ++ seg :: rest) (length pre) last
  = (if String.eqb next "-" then VList []
     else match Atoi next with Some _ => VList [] | None => VMap ∅ end).
Proof.
  intros Hnext. unfold determineNextContainerType.
  replace (length pre + 1)%nat with (length pre + 1 + 0)%nat by lia.
  rewrite <- Nat.add_assoc.
  rewrite lookup_app_r by lia.
  replace (length pre + (1 + 0) - length pre)%nat with 1%nat by lia.
  cbn [lookup list_lookup].
  destruct rest as [|x rest]; simpl in *; by injection Hnext as -> _.
Qed.

(** Where [ensureParents] succeeds, [navigate] with creation walks the
    document it is given and the document [ensureParents] leaves to the same
    result. *)
Lemma navigate_after_ensureParents parentSegs last
    (k : value -> value * option (patch_error E)) todo :
  forall pre current current',
    parentSegs = (pre ++ todo)%list ->
    ensureParents E (todo ++ [last]) current = (current', None) ->
    navigate E true parentSegs last (length pre) todo k current'
    = navigate E true parentSegs last (length pre) todo k current.
Proof.
  induction todo as [|seg rest IH]; intros pre current current' Hsegs.
  { by intros [= <-]. }
  assert (HIH : forall child child',
             ensureParents E (rest ++ [last]) child = (child', None) ->
             navigate E true parentSegs last (S (length pre)) rest k child'
             = navigate E true parentSegs last (S (length pre)) rest k child).
  { intros child child' He.
    replace (S (length pre)) with (length (pre ++ [seg])%list)
      by (rewrite length_app; simpl; lia).
    apply IH; [|done]. by rewrite <- app_assoc. }
  destruct (rest ++ [last])%list as [|next more] eqn:Hnext;
    [by destruct rest|].
  change ((seg :: rest) ++ [last])%list with (seg :: (rest ++ [last]))%list.
  rewrite Hnext, ensureParents_step.
  pose proof (determineNextContainerType_next pre seg rest last next more Hnext)
    as Hcreate.
  rewrite <- Hsegs in Hcreate.
  assert (Hmap : forall (node : object) child0 child' r,
             child0 <> VNil ->
             ensureParents E (next :: more) child0 = (child', r) ->
             (VMap (<[seg := child']> node), r) = (current', None) ->
             navigate E true parentSegs last (length pre) (seg :: rest) k current'
             = (let '(child, r) :=
                  navigate E true parentSegs last (S (length pre)) rest k child0 in
                (VMap (<[seg := child]> node), r))).
  { intros node child0 child' r Hnn Hrec [= <- ->]. cbn [navigate].
    rewrite lookup_insert_eq, present_not_nil.
    - rewrite (HIH _ _ Hrec).
      destruct (navigate E true parentSegs last (S (length pre)) rest k child0).
      by rewrite insert_insert_eq.
    - pose proof (ensureParents_not_nil E (next :: more) child0 Hnn) as Hn.
      by rewrite Hrec in Hn. }
  destruct current as [| | | | |node|node]; try done.
  - destruct (Atoi seg) as [index|] eqn:Ha; [|done].
    destruct ((index <? 0) || (Z.of_nat (length node) <=? index)) eqn:Hb; [done|].
    destruct (ensureParents E (next :: more) _) as [child' r] eqn:Hrec.
    intros [= <- ->]. cbn [navigate]. rewrite Ha, length_insert, Hb.
    rewrite list_lookup_insert_eq by by apply in_range.
    cbn [from_option id]. rewrite (HIH _ _ Hrec).
    destruct (navigate E true parentSegs last (S (length pre)) rest k _).
    by rewrite list_insert_insert_eq.
  - destruct (present (node !! seg)) as [child|] eqn:Hp.
    + destruct (ensureParents E (next :: more) child) as [child' r] eqn:Hrec.
      intros Hr. apply present_Some in Hp as [Hc Hnn].
      rewrite (Hmap node child child' r Hnn Hrec Hr).
      cbn [navigate]. by rewrite Hc, (present_not_nil _ Hnn).
    + destruct (String.eqb next "-") eqn:Hd.
      * destruct (ensureParents E (next :: more) (VList [])) as [child' r] eqn:Hrec.
        intros Hr. rewrite (Hmap node (VList []) child' r) by done.
        cbn [navigate]. by rewrite Hp, Hcreate.
      * destruct (Atoi next) eqn:Hn; [done|].
        destruct (ensureParents E (next :: more) (VMap ∅)) as [child' r] eqn:Hrec.
        intros Hr. rewrite (Hmap node (VMap ∅) child' r) by done.
        cbn [navigate]. by rewrite Hp, Hcreate.
Qed.

(** X25. The parents [mergeShallow] creates on its way are the parents
    [ensureParentExists] creates for an [add]: where [ensureParentExists]
    succeeds, merging at the pointer in the document it leaves gives exactly
    what merging in the original document gives. *)
Theorem mergeShallow_after_ensureParentExists (root root' : object)
    (pointer : string) (val : object) :
  ensureParentExists E root pointer = (root', None) ->
  mergeShallowAtPointer E root' pointer val
  = mergeShallowAtPointer E root pointer val.
Proof.
  unfold ensureParentExists, mergeShallowAtPointer, navigateToParent.
  destruct (splitPointer pointer) as [|seg rest] eqn:Hs.
  { by intros [= <-]. }
  destruct (ensureParents_object E (seg :: rest) root) as [m Hm].
  destruct (ensureParents E (seg :: rest) (VMap root)) as [v r] eqn:Hrec.
  simpl in Hm. subst v. cbn [as_object]. intros [= -> ->].
  set (parentSegs := removelast (seg :: rest)).
  set (last := List.last (seg :: rest) "").
  assert (Hsplit : seg :: rest = (parentSegs ++ [last])%list).
  { unfold parentSegs, last. by apply app_removelast_last. }
  rewrite Hsplit in Hrec.
  pose proof (navigate_after_ensureParents parentSegs last
                (mergeShallowParent E val last) parentSegs [] (VMap root)
                (VMap root') eq_refl Hrec) as Hsame.
  cbn [length] in Hsame. rewrite Hsame.
  destruct (navigate E true parentSegs last 0 parentSegs
              (mergeShallowParent E val last) (VMap root)) as [v r] eqn:Hnav.
  destruct (navigate_object E parentSegs last 0 parentSegs
              (mergeShallowParent E val last) root) as [m Hm].
  { intros c. by eexists. }
  rewrite Hnav in Hm. simpl in Hm. by subst v.
Qed.

End created_parents.

(** ** Parents created on the way *)

Section created_on_the_way.
Import Str Patch.

Variable E : Type.
Variable Sprintf_v : value -> string.
Variable jsonpatch_Apply : string -> string -> option value -> object -> E + object.








End created_on_the_way.

(** ** Instances of the further properties *)

Section further_instances.
Import Str Patch Ctx Schema Builder Snapshot Select Sample Cases.

Ltac by_computation :=
  match goal with
  | |- ?P => apply (bool_decide_unpack P); vm_compute; exact I
  end.

Lemma expandPaths_without_filter_witness :
  IndexByte "?" first_name = None
  /\ match expandPaths err Sprintf_v two_workers first_name with
     | inl _ => True
     | inr pointers => length pointers = 1%nat
     end.
Proof.
  assert (H : IndexByte "?" first_name = None) by reflexivity.
  split; [exact H|].
  exact (expandPaths_without_filter err Sprintf_v two_workers first_name H).
Defined.

Lemma ensureParentExists_existing_witness :
  pointer_get (removelast (splitPointer first_env_append)) (VMap two_workers)
  = Some (VList [])
  /\ ensureParentExists err two_workers first_env_append = (two_workers, None).
Proof.
  assert (H : pointer_get (removelast (splitPointer first_env_append))
                (VMap two_workers) = Some (VList []))
    by (vm_compute; reflexivity).
  split; [exact H|].
  exact (ensureParentExists_existing err two_workers first_env_append _ H).
Defined.

Lemma ensureParentExists_idempotent_witness :
  ensureParentExists err ∅ "/a/b/c" = (a_b, None)
  /\ is_Some (pointer_get (removelast (splitPointer "/a/b/c")) (VMap a_b))
  /\ ensureParentExists err a_b "/a/b/c" = (a_b, None).
Proof.
  assert (H : ensureParentExists err ∅ "/a/b/c" = (a_b, None))
    by (vm_compute; reflexivity).
  split; [exact H|].
  exact (ensureParentExists_idempotent err ∅ a_b "/a/b/c" H).
Defined.

Lemma mergeShallowAtPointer_idempotent_witness :
  mergeShallowAtPointer err scenario4 "/a" overlay4
  = ((mergeShallowAtPointer err scenario4 "/a" overlay4).1, None)
  /\ mergeShallowAtPointer err
       (mergeShallowAtPointer err scenario4 "/a" overlay4).1 "/a" overlay4
     = ((mergeShallowAtPointer err scenario4 "/a" overlay4).1, None).
Proof.
  assert (H : mergeShallowAtPointer err scenario4 "/a" overlay4
              = ((mergeShallowAtPointer err scenario4 "/a" overlay4).1, None))
    by (vm_compute; reflexivity).
  split; [exact H|].
  exact (mergeShallowAtPointer_idempotent err scenario4 _ "/a" overlay4 H).
Defined.

Lemma deepMerge_disjoint_witness :
  dom params_a ## dom params_b
  /\ deepMerge params_a params_b = params_a ∪ params_b
  /\ deepMerge params_a params_b = deepMerge params_b params_a.
Proof.
  assert (H : dom params_a ## dom params_b) by by_computation.
  split; [exact H|]. exact (deepMerge_disjoint params_a params_b H).
Defined.

Lemma BuildFromSnapshot_binds_witness :
  exists ctx,
    BuildFromSnapshot err json_sample ToStructural_sample (Some snapshot0)
      None ∅ = inr ctx
    /\ exists sn,
         Some snapshot0 = Some sn
         /\ ctx !! "workload"
            = Some (VMap (extractWorkloadData (Some (snWorkload sn))))
         /\ ctx !! "component" = Some (componentMeta (snComponent sn))
         /\ is_Some (ctx !! "parameters")
         /\ ctx !! "environment"
            = (if bool_decide (snEnvironment sn = "") then None
               else Some (VStr (snEnvironment sn)))
         /\ ctx !! "metadata"
            = (if bool_decide ((∅ : gmap string string) = ∅) then None
               else Some (smap ∅)).
Proof.
  eexists. split; [vm_compute; reflexivity|].
  apply (BuildFromSnapshot_binds err json_sample ToStructural_sample
           (Some snapshot0) None ∅).
  vm_compute. reflexivity.
Defined.

Lemma BuildAddonContext_keys_witness :
  BuildAddonContext err json_sample ToStructural_sample (Some addon_input)
  = inr addon_ctx
  /\ exists addon component,
       aiAddon addon_input = Some addon
       /\ aiComponent addon_input = Some component
       /\ addon_ctx !! "addon"
          = Some (VMap {[ "name" := VStr (aName addon);
                          "instanceId" := VStr (InstanceID (aiInstance addon_input)) ]})
       /\ addon_ctx !! "component" = Some (componentMeta component)
       /\ addon_ctx !! "workload" = None
       /\ is_Some (addon_ctx !! "parameters")
       /\ (is_Some (addon_ctx !! "environment") <-> aiEnvironment addon_input <> "")
       /\ (is_Some (addon_ctx !! "metadata")
           <-> aiAdditionalMetadata addon_input <> ∅)
       /\ dom addon_ctx
          ⊆ {[ "parameters"; "addon"; "component"; "environment"; "metadata" ]}.
Proof.
  assert (H : BuildAddonContext err json_sample ToStructural_sample
                (Some addon_input) = inr addon_ctx)
    by (vm_compute; reflexivity).
  split; [exact H|].
  exact (BuildAddonContext_keys err json_sample ToStructural_sample
           addon_input addon_ctx H).
Defined.

Lemma empty_overrides_ignored_witness :
  (ciEnvSettings quiet_input = Some no_overrides
   /\ ciEnvSettings zero_bytes_input = Some zero_bytes)
  /\ BuildComponentContext err json_sample ToStructural_sample (Some quiet_input)
     = BuildComponentContext err json_sample ToStructural_sample
         (Some (without_settings quiet_input))
  /\ (exists ctx,
        BuildComponentContext err json_sample ToStructural_sample
          (Some (without_settings zero_bytes_input)) = inr ctx)
  /\ BuildComponentContext err json_sample ToStructural_sample
       (Some zero_bytes_input)
     = inl (ErrExtractOverrides err
              (ErrUnmarshalParameters err "invalid character")).
Proof.
  assert (Hq : ciEnvSettings quiet_input = Some no_overrides) by reflexivity.
  assert (Hz : ciEnvSettings zero_bytes_input = Some zero_bytes) by reflexivity.
  split; [by split|].
  pose proof (empty_overrides_ignored err json_sample ToStructural_sample
                quiet_input no_overrides Hq) as [Hsame _].
  pose proof (empty_overrides_ignored err json_sample ToStructural_sample
                zero_bytes_input zero_bytes Hz) as [_ Hfail].
  assert (Hok : exists ctx,
             BuildComponentContext err json_sample ToStructural_sample
               (Some (without_settings zero_bytes_input)) = inr ctx)
    by (eexists; vm_compute; reflexivity).
  split; [apply Hsame; by left|]. split; [exact Hok|].
  destruct Hok as [ctx Hb].
  exact (Hfail {| Raw := Some "" |} "" "invalid character" ctx
           eq_refl eq_refl eq_refl Hb).
Defined.

Lemma plain_samples : Forall plain to_containers /\ plain "containers".
Proof.
  split.
  - unfold to_containers.
    repeat (apply Forall_cons_2; [unfold plain; split_and!; done|]).
    apply Forall_nil_2.
  - unfold plain; split_and!; done.
Qed.

Lemma expandPaths_filter_witness :
  (Forall plain to_containers /\ plain "containers"
   /\ IndexByte "/" role_worker = None /\ IndexByte "]" role_worker = None
   /\ is_Some (filterExpr_FindStringSubmatch (TrimSpace role_worker))
   /\ pointer_get (to_containers ++ ["containers"])%list (VMap two_workers)
      = Some (VList workers))
  /\ Z.of_nat (length workers) <= 2 ^ 63
  /\ expandPaths err Sprintf_v two_workers
       (filter_path to_containers "containers" role_worker)
     = inr ((fun i => buildJSONPointer
                        (to_containers ++ ["containers"; Itoa (Z.of_nat i)])%list)
              <$> selected_from err Sprintf_v 0 role_worker workers)
  /\ (1%nat ∈ selected_from err Sprintf_v 0 role_worker workers <->
      exists item, workers !! 1%nat = Some item
                   /\ matchesFilter err Sprintf_v item role_worker = inr true)
  /\ pointer_get
       (splitPointer
          (buildJSONPointer
             (to_containers ++ ["containers"; Itoa (Z.of_nat 1)])%list))
       (VMap two_workers) = workers !! 1%nat.
Proof.
  destruct plain_samples as [Hp Hk].
  assert (Hs : IndexByte "/" role_worker = None) by reflexivity.
  assert (Hc : IndexByte "]" role_worker = None) by reflexivity.
  assert (He : is_Some (filterExpr_FindStringSubmatch (TrimSpace role_worker)))
    by (vm_compute; by eexists).
  assert (Hg : pointer_get (to_containers ++ ["containers"])%list (VMap two_workers)
               = Some (VList workers)) by (vm_compute; reflexivity).
  assert (Hl : Z.of_nat (length workers) <= 2 ^ 63) by (simpl; lia).
  split; [by split_and!|]. split; [exact Hl|].
  destruct (expandPaths_filter err Sprintf_v two_workers to_containers "containers"
              role_worker workers Hp Hk Hs Hc He Hg Hl) as (Hexp & Hsel & Hread).
  split; [exact Hexp|]. split; [exact (Hsel 1%nat)|].
  exact (Hread 1%nat _ eq_refl).
Defined.

Lemma mergeShallow_filter_witness :
  (Forall plain to_containers /\ plain "containers"
   /\ IndexByte "/" role_worker = None /\ IndexByte "]" role_worker = None
   /\ is_Some (filterExpr_FindStringSubmatch (TrimSpace role_worker))
   /\ pointer_get (to_containers ++ ["containers"])%list (VMap two_workers)
      = Some (VList workers)
   /\ Z.of_nat (length workers) <= 2 ^ 63)
  /\ exists root',
       applyMergeShallow err Sprintf_v two_workers
         (filter_path to_containers "containers" role_worker) (VMap tier)
       = (root', None)
       /\ VMap root'
          = pointer_set (to_containers ++ ["containers"])%list
              (VList (merge_selected err Sprintf_v role_worker tier workers))
              (VMap two_workers).
Proof.
  destruct plain_samples as [Hp Hk].
  assert (Hs : IndexByte "/" role_worker = None) by reflexivity.
  assert (Hc : IndexByte "]" role_worker = None) by reflexivity.
  assert (He : is_Some (filterExpr_FindStringSubmatch (TrimSpace role_worker)))
    by (vm_compute; by eexists).
  assert (Hg : pointer_get (to_containers ++ ["containers"])%list (VMap two_workers)
               = Some (VList workers)) by (vm_compute; reflexivity).
  assert (Hl : Z.of_nat (length workers) <= 2 ^ 63) by (simpl; lia).
  split; [by split_and!|].
  exact (mergeShallow_filter err Sprintf_v two_workers to_containers "containers"
           role_worker workers tier Hp Hk Hs Hc He Hg Hl).
Defined.

Lemma ApplySpec_where_false_witness :
  ForEach annotate_api = ""
  /\ ApplySpec err Sprintf_v jsonpatch_refuse annotate_api render_never None
       deployments ∅ = (deployments, ∅, None).
Proof.
  split; [reflexivity|].
  apply (ApplySpec_where_false err Sprintf_v jsonpatch_refuse annotate_api
           render_never None deployments ∅); [reflexivity|done|].
  intros i r _ _. reflexivity.
Defined.

Lemma mergeShallow_after_ensureParentExists_witness :
  ensureParentExists err ∅ "/a/b/c" = (a_b, None)
  /\ mergeShallowAtPointer err a_b "/a/b/c" tier
     = mergeShallowAtPointer err ∅ "/a/b/c" tier.
Proof.
  assert (H : ensureParentExists err ∅ "/a/b/c" = (a_b, None))
    by (vm_compute; reflexivity).
  split; [exact H|].
  exact (mergeShallow_after_ensureParentExists err ∅ a_b "/a/b/c" tier H).
Defined.





End further_instances.
